(** * Rate limiters of [rateLimiters/]: token bucket, leaky bucket,
    fixed window counter and sliding window log.

    Every public method of the four limiters locks the limiter's mutex for its
    whole body, so a method is one atomic transition of the limiter's state.
    A method is embedded as a function from the state before the call and the
    clock reading [now] that its single [time.Now()] returns to the returned
    value and the state after the call.  The [mutex] field carries no other
    state and is left out of the records.  The demo loops
    ([TokenBucketRateLimiter] and its siblings) only call these methods, sleep
    and print. *)

From Stdlib Require Import ZArith QArith Qpower Lqa Lia List Bool Sorted.
From Stdlib Require Import Floats Uint63.
Import ListNotations.

Local Open Scope Z_scope.

(** ** Go integers *)

Module GoInt.

Definition minInt64 : Z := - 2 ^ 63.
Definition maxInt64 : Z := 2 ^ 63 - 1.

(** A value of Go's [int] on a 64-bit platform, and of [int64]. *)
Definition is_int (z : Z) : bool := (minInt64 <=? z) && (z <=? maxInt64).

(** Two's complement wrap-around of signed 64-bit arithmetic. *)
Definition wrap (z : Z) : Z := (z + 2 ^ 63) mod 2 ^ 64 - 2 ^ 63.

(** [n++] *)
Definition incr (n : Z) : Z := wrap (n + 1).

(** [-n] *)
Definition neg (n : Z) : Z := wrap (- n).

(** [a - b] *)
Definition sub (a b : Z) : Z := wrap (a - b).

End GoInt.

(** ** float64 arithmetic

    The operations the limiters apply to [float64] values.  The limiter code is
    written against this interface; [binary64] is its instance: IEEE 754
    double precision as the machine computes it, every operation rounded to
    nearest, ties to even, with infinities and NaN.  Each operation rounds on
    its own: [tokens + elapsed * rate] is a rounded product and then a rounded
    sum (no fused multiply-add). *)

Class Float64 (F : Type) : Type := {
  f_of_int : Z -> F;          (* float64(n), and the integer constants *)
  f_add : F -> F -> F;
  f_sub : F -> F -> F;
  f_mul : F -> F -> F;
  f_div : F -> F -> F;
  f_lt : F -> F -> bool;      (* x < y *)
  f_le : F -> F -> bool;      (* x <= y *)
  f_min : F -> F -> F;        (* the builtin min *)
  f_max : F -> F -> F;        (* the builtin max *)
}.

Module IEEE.

(** [float64(n)] for an [int]: round to nearest, ties to even. *)
Definition of_int (z : Z) : float :=
  if z <? 0 then
    if z =? GoInt.minInt64 then (-9223372036854775808)%float
    else (- of_uint63 (Uint63.of_Z (- z)))%float
  else of_uint63 (Uint63.of_Z z).

(** The builtin [min] on floats (runtime's [fmin]): a NaN argument gives NaN,
    and negative zero is below positive zero. *)
Definition fmin (x y : float) : float :=
  if is_nan y || (y <? x)%float then y
  else if is_nan x || (x <? y)%float || negb (x =? 0)%float then x
  else if get_sign x then x else y.

(** The builtin [max] on floats (runtime's [fmax]). *)
Definition fmax (x y : float) : float :=
  if is_nan y || (x <? y)%float then y
  else if is_nan x || (y <? x)%float || negb (x =? 0)%float then x
  else if get_sign x then y else x.

End IEEE.

#[export] Instance binary64 : Float64 float := {
  f_of_int := IEEE.of_int;
  f_add := PrimFloat.add;
  f_sub := PrimFloat.sub;
  f_mul := PrimFloat.mul;
  f_div := PrimFloat.div;
  f_lt := PrimFloat.ltb;
  f_le := PrimFloat.leb;
  f_min := IEEE.fmin;
  f_max := IEEE.fmax;
}.

(** ** Package time

    A [time.Time] obtained from [time.Now()] carries a monotonic clock reading,
    and [Sub] and [After] compare those readings: a [Time] is the instant in
    nanoseconds.  A [Duration] is an int64 count of nanoseconds; the range of a
    [Time] is far wider, so [Add] does not wrap. *)

Definition Time : Type := Z.
Definition Duration : Type := Z.

Definition Second : Duration := 1000000000.
Definition minDuration : Duration := GoInt.minInt64.
Definition maxDuration : Duration := GoInt.maxInt64.

(** [t.Sub(u)]: the difference, saturated to the range of a [Duration]. *)
Definition Sub (t u : Time) : Duration :=
  let d := t - u in
  if d <? minDuration then minDuration
  else if maxDuration <? d then maxDuration
  else d.

(** [t.Add(d)] *)
Definition Add (t : Time) (d : Duration) : Time := t + d.

(** [t.After(u)] *)
Definition After (t u : Time) : bool := u <? t.

(** [d.Seconds()]: [float64(d / Second) + float64(d % Second) / 1e9], with Go's
    truncating division. *)
Definition Seconds {F : Type} `{Float64 F} (d : Duration) : F :=
  let sec := Z.quot d Second in
  let nsec := Z.rem d Second in
  f_add (f_of_int sec) (f_div (f_of_int nsec) (f_of_int 1000000000)).

(** ** token-bucket.go *)

Module TokenBucket.

Section Code.
Context {F : Type} `{Float64 F}.

Record TokenBucket : Type := {
  capacity : F;            (* maximum number of tokens *)
  tokens : F;              (* current number of tokens *)
  refillRate : F;          (* tokens added per second *)
  lastRefillTime : Time;   (* last time the bucket was refilled *)
}.

Definition NewTokenBucket (capacity refillRate : F) (now : Time) : TokenBucket :=
  {| capacity := capacity;
     tokens := capacity;
     refillRate := refillRate;
     lastRefillTime := now |}.

Definition refill (tb : TokenBucket) (now : Time) : TokenBucket :=
  let currentTime := now in
  let elapsedTime : F := Seconds (Sub currentTime (lastRefillTime tb)) in
  let newTokens := f_mul elapsedTime (refillRate tb) in
  {| capacity := capacity tb;
     tokens := f_min (capacity tb) (f_add (tokens tb) newTokens);
     refillRate := refillRate tb;
     lastRefillTime := currentTime |}.

Definition AllowRequest (tb : TokenBucket) (now : Time) : bool * TokenBucket :=
  let tb := refill tb now in
  if f_le (f_of_int 1) (tokens tb) then
    (true, {| capacity := capacity tb;
              tokens := f_sub (tokens tb) (f_of_int 1);
              refillRate := refillRate tb;
              lastRefillTime := lastRefillTime tb |})
  else (false, tb).

Definition GetTokens (tb : TokenBucket) (now : Time) : F * TokenBucket :=
  let tb := refill tb now in
  (tokens tb, tb).

End Code.
Arguments TokenBucket F : clear implicits.

End TokenBucket.

(** ** The leaky bucket (second half of sliding-window-log.go) *)

Module LeakyBucket.

Section Code.
Context {F : Type} `{Float64 F}.

Record LeakyBucket : Type := {
  capacity : F;      (* maximum bucket size *)
  water : F;         (* current amount of "water" in the bucket *)
  leakRate : F;      (* rate at which water leaks per second *)
  lastTime : Time;   (* last time the bucket was updated *)
}.

Definition NewLeakyBucket (capacity leakRate : F) (now : Time) : LeakyBucket :=
  {| capacity := capacity;
     water := f_of_int 0;
     leakRate := leakRate;
     lastTime := now |}.

Definition leak (lb : LeakyBucket) (now : Time) : LeakyBucket :=
  let currentTime := now in
  let elapsedTime : F := Seconds (Sub currentTime (lastTime lb)) in
  let leaked := f_mul elapsedTime (leakRate lb) in
  {| capacity := capacity lb;
     water := f_max (f_of_int 0) (f_sub (water lb) leaked);
     leakRate := leakRate lb;
     lastTime := currentTime |}.

Definition AllowRequest (lb : LeakyBucket) (now : Time) : bool * LeakyBucket :=
  let lb := leak lb now in
  if f_lt (water lb) (capacity lb) then
    (true, {| capacity := capacity lb;
              water := f_add (water lb) (f_of_int 1);
              leakRate := leakRate lb;
              lastTime := lastTime lb |})
  else (false, lb).

Definition GetWaterLevel (lb : LeakyBucket) (now : Time) : F * LeakyBucket :=
  let lb := leak lb now in
  (water lb, lb).

Definition GetCapacityUsed (lb : LeakyBucket) (now : Time) : F * LeakyBucket :=
  let lb := leak lb now in
  (f_mul (f_div (water lb) (capacity lb)) (f_of_int 100), lb).

End Code.
Arguments LeakyBucket F : clear implicits.

End LeakyBucket.

(** ** fixed-window-counter.go *)

Module FixedWindowCounter.

Record FixedWindowCounter : Type := {
  limit : Z;               (* maximum requests allowed in the window *)
  windowSize : Duration;   (* time window duration *)
  count : Z;               (* current count of requests in the window *)
  startTime : Time;        (* start time of the current window *)
}.

Definition NewFixedWindowCounter (limit : Z) (windowSize : Duration) (now : Time)
  : FixedWindowCounter :=
  {| limit := limit; windowSize := windowSize; count := 0; startTime := now |}.

Definition AllowRequest (fwc : FixedWindowCounter) (now : Time)
  : bool * FixedWindowCounter :=
  let currentTime := now in
  (* Check if we need to reset the window *)
  let fwc :=
    if windowSize fwc <=? Sub currentTime (startTime fwc) then
      {| limit := limit fwc; windowSize := windowSize fwc;
         count := 0; startTime := currentTime |}
    else fwc in
  (* Check if request can be allowed *)
  if count fwc <? limit fwc then
    (true, {| limit := limit fwc; windowSize := windowSize fwc;
              count := GoInt.incr (count fwc); startTime := startTime fwc |})
  else (false, fwc).

Definition GetCurrentCount (fwc : FixedWindowCounter) (now : Time)
  : Z * FixedWindowCounter :=
  let currentTime := now in
  if windowSize fwc <=? Sub currentTime (startTime fwc) then (0, fwc)
  else (count fwc, fwc).

Definition GetTimeUntilReset (fwc : FixedWindowCounter) (now : Time)
  : Duration * FixedWindowCounter :=
  let currentTime := now in
  let elapsed := Sub currentTime (startTime fwc) in
  if windowSize fwc <=? elapsed then (0, fwc)
  else (GoInt.sub (windowSize fwc) elapsed, fwc).

(** The four results of [GetWindowInfo]. *)
Record WindowInfo (F : Type) : Type := {
  info_count : Z;
  info_limit : Z;
  timeUntilReset : Duration;
  utilizationPercent : F;
}.
Arguments Build_WindowInfo {F}.
Arguments info_count {F}.
Arguments info_limit {F}.
Arguments timeUntilReset {F}.
Arguments utilizationPercent {F}.

Definition GetWindowInfo {F : Type} `{Float64 F} (fwc : FixedWindowCounter) (now : Time)
  : WindowInfo F * FixedWindowCounter :=
  let currentTime := now in
  let elapsed := Sub currentTime (startTime fwc) in
  if windowSize fwc <=? elapsed then
    (Build_WindowInfo 0 (limit fwc) 0 (f_of_int 0), fwc)
  else
    let utilization :=
      f_mul (f_div (f_of_int (count fwc)) (f_of_int (limit fwc))) (f_of_int 100) in
    let timeRemaining := GoInt.sub (windowSize fwc) elapsed in
    (Build_WindowInfo (count fwc) (limit fwc) timeRemaining utilization, fwc).

End FixedWindowCounter.

(** ** sliding-window-log.go

    The [container/list] deque of timestamps is the list of its values, front
    first.  A method that dereferences [Front()] of an empty deque panics:
    its result is [None]. *)

Module SlidingWindowLog.

Record SlidingWindowLog : Type := {
  limit : Z;               (* maximum requests allowed in the window *)
  windowSize : Duration;   (* time window duration *)
  requests : list Time;    (* timestamps of requests, oldest at the front *)
}.

Definition NewSlidingWindowLog (limit : Z) (windowSize : Duration) : SlidingWindowLog :=
  {| limit := limit; windowSize := windowSize; requests := [] |}.

(** [swl.requests.Len()] *)
Definition Len (l : list Time) : Z := Z.of_nat (length l).

(** [cutoffTime := currentTime.Add(-swl.windowSize)] *)
Definition cutoffTime (swl : SlidingWindowLog) (currentTime : Time) : Time :=
  Add currentTime (GoInt.neg (windowSize swl)).

(** The loop of [cleanupOldRequests]: each iteration looks at the front element
    only, and either stops or removes it. *)
Fixpoint cleanupLoop (cutoff : Time) (requests : list Time) : list Time :=
  match requests with
  | [] => []
  | requestTime :: rest =>
      if After requestTime cutoff then requests   (* break *)
      else cleanupLoop cutoff rest                (* Remove(front) *)
  end.

Definition cleanupOldRequests (swl : SlidingWindowLog) (currentTime : Time)
  : SlidingWindowLog :=
  {| limit := limit swl; windowSize := windowSize swl;
     requests := cleanupLoop (cutoffTime swl currentTime) (requests swl) |}.

Definition AllowRequest (swl : SlidingWindowLog) (now : Time)
  : bool * SlidingWindowLog :=
  let currentTime := now in
  let swl := cleanupOldRequests swl currentTime in
  if Len (requests swl) <? limit swl then
    (true, {| limit := limit swl; windowSize := windowSize swl;
              requests := requests swl ++ [currentTime] |})
  else (false, swl).

Definition GetCurrentCount (swl : SlidingWindowLog) (now : Time)
  : Z * SlidingWindowLog :=
  let currentTime := now in
  let swl := cleanupOldRequests swl currentTime in
  (Len (requests swl), swl).

Definition GetOldestRequestAge (swl : SlidingWindowLog) (now : Time)
  : Duration * SlidingWindowLog :=
  let currentTime := now in
  let swl := cleanupOldRequests swl currentTime in
  match requests swl with
  | [] => (0, swl)
  | oldestRequest :: _ => (Sub currentTime oldestRequest, swl)
  end.

Definition GetTimeUntilSlotAvailable (swl : SlidingWindowLog) (now : Time)
  : option Duration * SlidingWindowLog :=
  let currentTime := now in
  let swl := cleanupOldRequests swl currentTime in
  if Len (requests swl) <? limit swl then (Some 0, swl)
  else
    match requests swl with
    | [] => (None, swl)   (* Front() is nil *)
    | oldestRequest :: _ =>
        let expirationTime := Add oldestRequest (windowSize swl) in
        if After expirationTime currentTime
        then (Some (Sub expirationTime currentTime), swl)
        else (Some 0, swl)
    end.

(** The four results of [GetWindowInfo]. *)
Record WindowInfo (F : Type) : Type := {
  info_count : Z;
  info_limit : Z;
  utilizationPercent : F;
  oldestAge : Duration;
}.
Arguments Build_WindowInfo {F}.
Arguments info_count {F}.
Arguments info_limit {F}.
Arguments utilizationPercent {F}.
Arguments oldestAge {F}.

Definition GetWindowInfo {F : Type} `{Float64 F} (swl : SlidingWindowLog) (now : Time)
  : WindowInfo F * SlidingWindowLog :=
  let currentTime := now in
  let swl := cleanupOldRequests swl currentTime in
  let count := Len (requests swl) in
  let utilization := f_mul (f_div (f_of_int count) (f_of_int (limit swl))) (f_of_int 100) in
  let oldest :=
    match requests swl with
    | [] => 0
    | oldestRequest :: _ => Sub currentTime oldestRequest
    end in
  (Build_WindowInfo count (limit swl) utilization oldest, swl).

Definition GetRequestTimestamps (swl : SlidingWindowLog) (now : Time)
  : list Time * SlidingWindowLog :=
  let currentTime := now in
  let swl := cleanupOldRequests swl currentTime in
  (requests swl, swl).

End SlidingWindowLog.

(** ** Histories of calls

    The clock that [time.Now()] reads is monotonic: a call never reads a time
    before the one the limiter stored last.  A state is reachable when it is
    the state after the constructor and finitely many public calls. *)

Inductive tb_reachable {F : Type} `{Float64 F} (capacity refillRate : F)
  : TokenBucket.TokenBucket F -> Prop :=
| tb_reach_new : forall t0,
    tb_reachable capacity refillRate (TokenBucket.NewTokenBucket capacity refillRate t0)
| tb_reach_AllowRequest : forall tb now,
    tb_reachable capacity refillRate tb ->
    TokenBucket.lastRefillTime tb <= now ->
    tb_reachable capacity refillRate (snd (TokenBucket.AllowRequest tb now))
| tb_reach_GetTokens : forall tb now,
    tb_reachable capacity refillRate tb ->
    TokenBucket.lastRefillTime tb <= now ->
    tb_reachable capacity refillRate (snd (TokenBucket.GetTokens tb now)).

Inductive lb_reachable {F : Type} `{Float64 F} (capacity leakRate : F)
  : LeakyBucket.LeakyBucket F -> Prop :=
| lb_reach_new : forall t0,
    lb_reachable capacity leakRate (LeakyBucket.NewLeakyBucket capacity leakRate t0)
| lb_reach_AllowRequest : forall lb now,
    lb_reachable capacity leakRate lb ->
    LeakyBucket.lastTime lb <= now ->
    lb_reachable capacity leakRate (snd (LeakyBucket.AllowRequest lb now))
| lb_reach_GetWaterLevel : forall lb now,
    lb_reachable capacity leakRate lb ->
    LeakyBucket.lastTime lb <= now ->
    lb_reachable capacity leakRate (snd (LeakyBucket.GetWaterLevel lb now))
| lb_reach_GetCapacityUsed : forall lb now,
    lb_reachable capacity leakRate lb ->
    LeakyBucket.lastTime lb <= now ->
    lb_reachable capacity leakRate (snd (LeakyBucket.GetCapacityUsed lb now)).

(** [n] admission checks in a row, all reading the clock at [now]. *)
Fixpoint lb_burst {F : Type} `{Float64 F} (lb : LeakyBucket.LeakyBucket F)
  (now : Time) (n : nat) : LeakyBucket.LeakyBucket F :=
  match n with
  | O => lb
  | S k => lb_burst (snd (LeakyBucket.AllowRequest lb now)) now k
  end.

(** The results of admission checks at the given clock readings, in order. *)
Fixpoint tb_run {F : Type} `{Float64 F} (tb : TokenBucket.TokenBucket F)
  (times : list Time) : list bool * TokenBucket.TokenBucket F :=
  match times with
  | [] => ([], tb)
  | now :: rest =>
      let (ok, tb1) := TokenBucket.AllowRequest tb now in
      let (oks, tb2) := tb_run tb1 rest in
      (ok :: oks, tb2)
  end.

Fixpoint lb_run {F : Type} `{Float64 F} (lb : LeakyBucket.LeakyBucket F)
  (times : list Time) : list bool * LeakyBucket.LeakyBucket F :=
  match times with
  | [] => ([], lb)
  | now :: rest =>
      let (ok, lb1) := LeakyBucket.AllowRequest lb now in
      let (oks, lb2) := lb_run lb1 rest in
      (ok :: oks, lb2)
  end.

Fixpoint fwc_run (fwc : FixedWindowCounter.FixedWindowCounter) (times : list Time)
  : list bool * FixedWindowCounter.FixedWindowCounter :=
  match times with
  | [] => ([], fwc)
  | now :: rest =>
      let (ok, fwc1) := FixedWindowCounter.AllowRequest fwc now in
      let (oks, fwc2) := fwc_run fwc1 rest in
      (ok :: oks, fwc2)
  end.

Fixpoint swl_run (swl : SlidingWindowLog.SlidingWindowLog) (times : list Time)
  : list bool * SlidingWindowLog.SlidingWindowLog :=
  match times with
  | [] => ([], swl)
  | now :: rest =>
      let (ok, swl1) := SlidingWindowLog.AllowRequest swl now in
      let (oks, swl2) := swl_run swl1 rest in
      (ok :: oks, swl2)
  end.

(** The public operations of the sliding window log. *)
Inductive swl_op : Type :=
| opAllowRequest
| opGetCurrentCount
| opGetOldestRequestAge
| opGetTimeUntilSlotAvailable
| opGetWindowInfo
| opGetRequestTimestamps.

(** The log's state after a public operation that read the clock at [now]. *)
Definition swl_step (op : swl_op) (swl : SlidingWindowLog.SlidingWindowLog) (now : Time)
  : SlidingWindowLog.SlidingWindowLog :=
  match op with
  | opAllowRequest => snd (SlidingWindowLog.AllowRequest swl now)
  | opGetCurrentCount => snd (SlidingWindowLog.GetCurrentCount swl now)
  | opGetOldestRequestAge => snd (SlidingWindowLog.GetOldestRequestAge swl now)
  | opGetTimeUntilSlotAvailable => snd (SlidingWindowLog.GetTimeUntilSlotAvailable swl now)
  | opGetWindowInfo => snd (SlidingWindowLog.GetWindowInfo (F:=float) swl now)
  | opGetRequestTimestamps => snd (SlidingWindowLog.GetRequestTimestamps swl now)
  end.

(** [swl_history limit windowSize last swl]: [swl] is the state of a log
    constructed with these parameters after finitely many public operations,
    the latest clock reading being [last]. *)
Inductive swl_history (limit : Z) (windowSize : Duration)
  : Time -> SlidingWindowLog.SlidingWindowLog -> Prop :=
| swl_hist_new : forall t0,
    swl_history limit windowSize t0
      (SlidingWindowLog.NewSlidingWindowLog limit windowSize)
| swl_hist_step : forall op last now swl,
    swl_history limit windowSize last swl ->
    last <= now ->
    swl_history limit windowSize now (swl_step op swl now).

(** The public operations of the fixed window counter that the histories use. *)
Inductive fwc_op : Type :=
| fwcAllowRequest
| fwcGetCurrentCount
| fwcGetTimeUntilReset
| fwcGetWindowInfo.

Definition fwc_step (op : fwc_op) (fwc : FixedWindowCounter.FixedWindowCounter)
  (now : Time) : FixedWindowCounter.FixedWindowCounter :=
  match op with
  | fwcAllowRequest => snd (FixedWindowCounter.AllowRequest fwc now)
  | fwcGetCurrentCount => snd (FixedWindowCounter.GetCurrentCount fwc now)
  | fwcGetTimeUntilReset => snd (FixedWindowCounter.GetTimeUntilReset fwc now)
  | fwcGetWindowInfo => snd (FixedWindowCounter.GetWindowInfo (F:=float) fwc now)
  end.

Inductive fwc_history (limit : Z) (windowSize : Duration)
  : FixedWindowCounter.FixedWindowCounter -> Prop :=
| fwc_hist_new : forall t0,
    fwc_history limit windowSize
      (FixedWindowCounter.NewFixedWindowCounter limit windowSize t0)
| fwc_hist_step : forall op now fwc,
    fwc_history limit windowSize fwc ->
    FixedWindowCounter.startTime fwc <= now ->
    fwc_history limit windowSize (fwc_step op fwc now).

(** The clock readings of the admitted requests of a run, in order. *)
Definition admitted (times : list Time) (oks : list bool) : list Time :=
  map fst (filter snd (combine times oks)).

(** [ts] lies in the window of length [windowSize] that ends at [t]:
    [t - windowSize < ts <= t]. *)
Definition in_window (windowSize : Duration) (t ts : Time) : bool :=
  (t - windowSize <? ts) && (ts <=? t).

(** Classes of binary64 values, on their specification. *)

(** NaN, a zero of either sign, or a value above zero. *)
Definition sf_nonneg (x : spec_float) : Prop :=
  match x with
  | S754_nan | S754_zero _ => True
  | S754_infinity s | S754_finite s _ _ => s = false
  end.

(** NaN, a zero of either sign, or a value below zero. *)
Definition sf_nonpos (x : spec_float) : Prop :=
  match x with
  | S754_nan | S754_zero _ => True
  | S754_infinity s | S754_finite s _ _ => s = true
  end.

(** NaN or a zero. *)
Definition sf_zero_or_nan (x : spec_float) : Prop :=
  match x with
  | S754_nan | S754_zero _ => True
  | _ => False
  end.

(** ** The values of binary64 floats and their rounding *)

Definition bpow (e : Z) : Q := Qpower 2 e.

(** The position of the fraction [f] cut off below a mantissa, as the two
    bits of a [shr_record] describe it. *)
Definition frac_ok (r s : bool) (f : Q) : Prop :=
  match r, s with
  | false, false => (f == 0)%Q
  | false, true => (0 < f /\ f < 1 # 2)%Q
  | true, false => (f == 1 # 2)%Q
  | true, true => ((1 # 2) < f /\ f < 1)%Q
  end.

(** [sem V mrs e]: the record [mrs] at exponent [e] stands for the value [V]. *)
Definition sem (V : Q) (mrs : shr_record) (e : Z) : Prop :=
  0 <= shr_m mrs /\
  exists f, frac_ok (shr_r mrs) (shr_s mrs) f /\
            (V == (inject_Z (shr_m mrs) + f) * bpow e)%Q.

Definition is_rne (y : Q) (M : Z) : Prop :=
  (inject_Z M - (1 # 2) <= y /\ y <= inject_Z M + (1 # 2))%Q /\
  ((y == inject_Z M - (1 # 2))%Q \/ (y == inject_Z M + (1 # 2))%Q -> Z.even M = true).

(** The value of a finite float. *)
Definition SF2Q (x : spec_float) : Q :=
  match x with
  | S754_finite s m e =>
      ((if s then -1 else 1) * (inject_Z (Zpos m) * bpow e))%Q
  | _ => 0%Q
  end.

(** [float_of M E R]: [R] is the float that holds [M * 2^E]. *)
Definition float_of (M E : Z) (R : spec_float) : Prop :=
  (M = 0 /\ exists s, R = S754_zero s) \/
  (0 < M /\ (bpow 1024 <= inject_Z M * bpow E)%Q /\ R = S754_infinity false) \/
  (0 < M /\ exists m e, R = S754_finite false m e /\ bounded prec emax m e = true /\
                        (inject_Z (Zpos m) * bpow e == inject_Z M * bpow E)%Q).

(** [rounded V R]: [R] is the value [V >= 0] rounded to the nearest binary64
    float, ties to even, overflowing to infinity.  [D] bounds the magnitude of
    [V]; it is the magnitude itself wherever the format is not subnormal. *)
Definition rounded (V : Q) (R : spec_float) : Prop :=
  exists D M, (0 <= V /\ V < bpow D)%Q /\
              (-1074 <= D - 53 -> (bpow (D - 1) <= V)%Q) /\
              is_rne (V / bpow (fexp prec emax D)) M /\
              float_of M (fexp prec emax D) R.

(** The second normalisation of [binary_round_aux] and its overflow test. *)
Definition renorm (M E : Z) : spec_float :=
  let '(mrs, e'') := shr_fexp prec emax M E loc_Exact in
  match shr_m mrs with
  | Z0 => S754_zero false
  | Zpos m =>
      if e'' <=? emax - prec then S754_finite false m e'' else S754_infinity false
  | Zneg _ => S754_nan
  end.

(** The floats that are not NaN and not below zero. *)
Definition nonneg_float (x : spec_float) : Prop :=
  match x with
  | S754_zero _ => True
  | S754_infinity s => s = false
  | S754_nan => False
  | S754_finite s m e => s = false /\ bounded prec emax m e = true
  end.

Definition finite_nonneg (x : spec_float) : Prop :=
  match x with
  | S754_zero _ => True
  | S754_finite s m e => s = false /\ bounded prec emax m e = true
  | _ => False
  end.

(** The floats that are not NaN and not above zero. *)
Definition nonpos_float (x : spec_float) : Prop :=
  match x with
  | S754_zero _ => True
  | S754_infinity s => s = true
  | S754_nan => False
  | S754_finite s m e => s = true
  end.

(** * Time *)

Lemma Sub_nonneg (t u : Time) : u <= t -> 0 <= Sub t u.
Proof.
  intros Hle. unfold Sub, minDuration, maxDuration, GoInt.minInt64, GoInt.maxInt64.
  destruct (Z.ltb_spec (t - u) (- 2 ^ 63)); [lia|].
  destruct (Z.ltb_spec (2 ^ 63 - 1) (t - u)); lia.
Qed.

Lemma Sub_is_int (t u : Time) : GoInt.is_int (Sub t u) = true.
Proof.
  unfold Sub, GoInt.is_int, minDuration, maxDuration, GoInt.minInt64, GoInt.maxInt64.
  destruct (Z.ltb_spec (t - u) (- 2 ^ 63)); [reflexivity|].
  destruct (Z.ltb_spec (2 ^ 63 - 1) (t - u)); [reflexivity|].
  apply andb_true_intro; split; apply Z.leb_le; lia.
Qed.

(** Without saturation [Sub] is the difference. *)
Lemma Sub_exact (t u : Time) :
  minDuration <= t - u <= maxDuration -> Sub t u = t - u.
Proof.
  intros [Hlo Hhi]. unfold Sub.
  destruct (Z.ltb_spec (t - u) minDuration); [lia|].
  destruct (Z.ltb_spec maxDuration (t - u)); [lia|reflexivity].
Qed.

Lemma Sub_diag (t : Time) : Sub t t = 0.
Proof. unfold Sub. rewrite Z.sub_diag. reflexivity. Qed.

(** * binary64: signs of the quantities the buckets compute *)

Lemma binary_round_aux_sign (s : bool) (m e : Z) (l : location) :
  match binary_round_aux prec emax s m e l with
  | S754_nan => True
  | S754_zero s' | S754_infinity s' | S754_finite s' _ _ => s' = s
  end.
Proof.
  unfold binary_round_aux.
  destruct (shr_fexp prec emax m e l) as [mrs' e'].
  destruct (shr_fexp prec emax _ e' loc_Exact) as [mrs'' e''].
  destruct (shr_m mrs''); [reflexivity | | exact I].
  destruct (e'' <=? emax - prec); reflexivity.
Qed.

Lemma binary_round_aux_nonneg (m e : Z) (l : location) :
  sf_nonneg (binary_round_aux prec emax false m e l).
Proof.
  pose proof (binary_round_aux_sign false m e l) as Hs.
  destruct (binary_round_aux prec emax false m e l); cbn; auto.
Qed.

Lemma binary_round_nonneg (m : positive) (e : Z) :
  sf_nonneg (binary_round prec emax false m e).
Proof.
  unfold binary_round.
  destruct (shl_align m e _) as [mz ez].
  apply binary_round_aux_nonneg.
Qed.

Lemma of_int_nonneg (z : Z) : 0 <= z -> sf_nonneg (Prim2SF (IEEE.of_int z)).
Proof.
  intros Hz. unfold IEEE.of_int.
  destruct (Z.ltb_spec z 0); [lia|].
  rewrite FloatAxioms.of_uint63_spec.
  pose proof (to_Z_bounded (of_Z z)) as [Hlo _].
  destruct (to_Z (of_Z z)) as [|p|p]; cbn [binary_normalize]; [exact I | | lia].
  apply binary_round_nonneg.
Qed.

Lemma SFadd_nonneg (x y : spec_float) :
  sf_nonneg x -> sf_nonneg y -> sf_nonneg (SF64add x y).
Proof.
  destruct x as [sx|sx| |sx mx ex], y as [sy|sy| |sy my ey]; cbn;
    intros Hx Hy; subst; try exact I; try reflexivity.
  - destruct sx, sy; exact I.
  - cbn [cond_Zopp Z.add binary_normalize]. apply binary_round_nonneg.
Qed.

Lemma SFmul_nonneg (x y : spec_float) :
  sf_nonneg x -> sf_nonneg y -> sf_nonneg (SF64mul x y).
Proof.
  destruct x as [sx|sx| |sx mx ex], y as [sy|sy| |sy my ey]; cbn;
    intros Hx Hy; subst; try exact I; try reflexivity.
  apply binary_round_aux_nonneg.
Qed.

Lemma SFdiv_nonneg (x : spec_float) (my : positive) (ey : Z) :
  sf_nonneg x -> sf_nonneg (SF64div x (S754_finite false my ey)).
Proof.
  destruct x as [sx|sx| |sx mx ex]; cbn; intros Hx; subst;
    try exact I; try reflexivity.
  destruct (SFdiv_core_binary prec emax (Z.pos mx) ex (Z.pos my) ey) as [[mz ez] lz].
  apply binary_round_aux_nonneg.
Qed.

(** ** Reading primitive floats through their specification *)

Lemma SFeqb_refl_or_nan (x : spec_float) :
  SFeqb x x = match x with S754_nan => false | _ => true end.
Proof.
  destruct x as [s|s| |s m e]; cbn; try reflexivity.
  - destruct s; reflexivity.
  - unfold SFeqb; cbn. rewrite Z.compare_refl, Pos.compare_cont_refl.
    destruct s; reflexivity.
Qed.

Lemma is_nan_spec (x : float) :
  is_nan x = match Prim2SF x with S754_nan => true | _ => false end.
Proof.
  unfold is_nan. rewrite FloatAxioms.eqb_spec, SFeqb_refl_or_nan.
  destruct (Prim2SF x); reflexivity.
Qed.

Lemma Seconds_nonneg (d : Duration) :
  0 <= d -> sf_nonneg (Prim2SF (Seconds (F:=float) d)).
Proof.
  intros Hd. unfold Seconds. cbn [f_add f_div f_of_int binary64].
  rewrite FloatAxioms.add_spec, FloatAxioms.div_spec.
  apply SFadd_nonneg.
  - apply of_int_nonneg. apply Z.quot_pos; [exact Hd | reflexivity].
  - change (Prim2SF (IEEE.of_int 1000000000))
      with (S754_finite false 8388608000000000 (-23)).
    apply SFdiv_nonneg.
    apply of_int_nonneg. apply Z.rem_nonneg; [unfold Second; lia | exact Hd].
Qed.

Lemma leb_zero_nonneg (x : float) : (0 <=? x)%float = true -> sf_nonneg (Prim2SF x).
Proof.
  rewrite FloatAxioms.leb_spec. change (Prim2SF 0) with (S754_zero false).
  destruct (Prim2SF x) as [s|s| |s m e]; cbn; try discriminate; auto.
  - destruct s; [discriminate | reflexivity].
  - destruct s; [discriminate | reflexivity].
Qed.

Lemma eqb_zero_spec (x : float) :
  (x =? 0)%float = true -> exists s, Prim2SF x = S754_zero s.
Proof.
  rewrite FloatAxioms.eqb_spec. change (Prim2SF 0) with (S754_zero false).
  destruct (Prim2SF x) as [s|s| |s m e]; cbn; try discriminate.
  - eauto.
  - destruct s; discriminate.
  - destruct s; discriminate.
Qed.

(** Leaking keeps an empty bucket empty (or NaN) when nothing can flow in. *)
Lemma SFsub_zero_nonneg (w x : spec_float) :
  sf_zero_or_nan w -> sf_nonneg x -> sf_nonpos (SF64sub w x).
Proof.
  destruct w as [sw|sw| |sw mw ew], x as [sx|sx| |sx mx ex]; cbn;
    intros Hw Hx; subst; try exact I; try contradiction; try reflexivity.
  destruct sw, sx; exact I.
Qed.

Lemma fmax_zero_nonpos (y : float) :
  sf_nonpos (Prim2SF y) -> sf_zero_or_nan (Prim2SF (IEEE.fmax 0 y)).
Proof.
  intros Hy. unfold IEEE.fmax. rewrite (is_nan_spec y), !FloatAxioms.ltb_spec.
  change (is_nan 0) with false. change (0 =? 0)%float with true.
  change (get_sign 0) with false. change (Prim2SF 0) with (S754_zero false).
  destruct (Prim2SF y) as [s|s| |s m e] eqn:Ey; cbn in Hy |- *; subst; cbn;
    rewrite ?Ey; exact I.
Qed.

(** * binary64: values, order and rounding *)

Lemma bpow_pos (e : Z) : (0 < bpow e)%Q.
Proof. apply Qpower_0_lt. reflexivity. Qed.

Lemma bpow_add (a b : Z) : (bpow (a + b) == bpow a * bpow b)%Q.
Proof. apply Qpower_plus. discriminate. Qed.

Lemma bpow_0 : (bpow 0 == 1)%Q.
Proof. reflexivity. Qed.

Lemma bpow_1 : (bpow 1 == 2)%Q.
Proof. reflexivity. Qed.

Lemma bpow_le (a b : Z) : a <= b -> (bpow a <= bpow b)%Q.
Proof.
  intros H. replace b with (a + (b - a)) by lia. rewrite bpow_add.
  assert (1 <= bpow (b - a))%Q.
  { unfold bpow. apply Qpower_1_le; [discriminate | lia]. }
  pose proof (bpow_pos a). nra.
Qed.

Lemma bpow_lt (a b : Z) : a < b -> (bpow a < bpow b)%Q.
Proof.
  intros H. apply Qlt_le_trans with (bpow (a + 1)).
  - rewrite bpow_add, bpow_1. pose proof (bpow_pos a). lra.
  - apply bpow_le. lia.
Qed.

Lemma bpow_lt_inv (a b : Z) : (bpow a < bpow b)%Q -> a < b.
Proof.
  intros H. destruct (Z.lt_ge_cases a b) as [|Hge]; [assumption|].
  apply bpow_le in Hge. lra.
Qed.

Lemma bpow_le_inv (a b : Z) : (bpow a <= bpow b)%Q -> a <= b.
Proof.
  intros H. destruct (Z.le_gt_cases a b) as [|Hgt]; [assumption|].
  apply bpow_lt in Hgt. lra.
Qed.

Lemma bpow_Z (n : Z) : 0 <= n -> (bpow n == inject_Z (2 ^ n))%Q.
Proof. intros H. unfold bpow. rewrite Zpower_Qpower by assumption. reflexivity. Qed.

Lemma scale_bpow (a b : Z) : b <= a -> (inject_Z (2 ^ (a - b)) * bpow b == bpow a)%Q.
Proof.
  intros H. rewrite <- bpow_Z, <- bpow_add by lia.
  replace (a - b + b) with a by lia. reflexivity.
Qed.

Lemma scale_bpow' (s e : Z) : 0 <= s -> (inject_Z (2 ^ s) * bpow e == bpow (s + e))%Q.
Proof. intros H. rewrite <- bpow_Z, <- bpow_add by lia. reflexivity. Qed.

(** The number of binary digits. *)
Lemma digits2_pos_bounds (p : positive) :
  2 ^ (Zpos (digits2_pos p) - 1) <= Zpos p < 2 ^ Zpos (digits2_pos p).
Proof.
  induction p as [p IH | p IH |]; cbn [digits2_pos].
  - rewrite Pos2Z.inj_succ. replace (Z.succ (Zpos (digits2_pos p)) - 1)
      with (Z.succ (Zpos (digits2_pos p) - 1)) by lia.
    rewrite !Z.pow_succ_r by lia. lia.
  - rewrite Pos2Z.inj_succ. replace (Z.succ (Zpos (digits2_pos p)) - 1)
      with (Z.succ (Zpos (digits2_pos p) - 1)) by lia.
    rewrite !Z.pow_succ_r by lia. lia.
  - cbn. lia.
Qed.

Lemma Zdigits2_bounds (m : Z) :
  0 < m -> 2 ^ (Zdigits2 m - 1) <= m < 2 ^ Zdigits2 m.
Proof.
  destruct m as [|p|p]; try lia. intros _. apply digits2_pos_bounds.
Qed.

Lemma Zdigits2_pos (m : Z) : 0 < m -> 0 < Zdigits2 m.
Proof. destruct m; cbn; lia. Qed.

Lemma Zdigits2_le (m : Z) (k : Z) : 0 < m -> 0 <= k -> m < 2 ^ k -> Zdigits2 m <= k.
Proof.
  intros Hm Hk Hlt. destruct (Zdigits2_bounds m Hm) as [Hlo _].
  destruct (Z.le_gt_cases (Zdigits2 m) k) as [|Hgt]; [assumption|].
  assert (2 ^ k <= 2 ^ (Zdigits2 m - 1)) by (apply Z.pow_le_mono_r; lia). lia.
Qed.

Lemma Zdigits2_ge (m : Z) (k : Z) : 0 < m -> 0 <= k -> 2 ^ k <= m -> k < Zdigits2 m.
Proof.
  intros Hm Hk Hle. destruct (Zdigits2_bounds m Hm) as [_ Hhi].
  pose proof (Zdigits2_pos m Hm).
  destruct (Z.lt_ge_cases k (Zdigits2 m)) as [|Hge]; [assumption|].
  assert (2 ^ Zdigits2 m <= 2 ^ k) by (apply Z.pow_le_mono_r; lia). lia.
Qed.

(** Bounds of a positive integer times a power of two. *)
Lemma mag_bounds (m e : Z) :
  0 < m ->
  (bpow (Zdigits2 m + e - 1) <= inject_Z m * bpow e
   /\ inject_Z m * bpow e < bpow (Zdigits2 m + e))%Q.
Proof.
  intros Hm. destruct (Zdigits2_bounds m Hm) as [Hlo Hhi].
  pose proof (Zdigits2_pos m Hm) as Hd. pose proof (bpow_pos e) as He.
  replace (Zdigits2 m + e - 1) with ((Zdigits2 m - 1) + e) by lia.
  rewrite !bpow_add.
  rewrite (bpow_Z (Zdigits2 m - 1)), (bpow_Z (Zdigits2 m)) by lia.
  rewrite Zle_Qle in Hlo. rewrite Zlt_Qlt in Hhi. split.
  - apply Qmult_le_compat_r; [exact Hlo | lra].
  - apply Qmult_lt_compat_r; [exact He | exact Hhi].
Qed.

(** ** Shifting a mantissa right *)

Lemma sem_ext (V V' : Q) (mrs : shr_record) (e : Z) :
  (V == V')%Q -> sem V mrs e -> sem V' mrs e.
Proof.
  intros E [Hm [f [Hf HV]]]. split; [exact Hm|]. exists f. split; [exact Hf|].
  rewrite <- E. exact HV.
Qed.

Lemma inject_Z_xO (p : positive) : (inject_Z (Zpos p~0) == 2 * inject_Z (Zpos p))%Q.
Proof. rewrite Pos2Z.inj_xO, inject_Z_mult. reflexivity. Qed.

Lemma inject_Z_xI (p : positive) : (inject_Z (Zpos p~1) == 2 * inject_Z (Zpos p) + 1)%Q.
Proof. rewrite Pos2Z.inj_xI, inject_Z_plus, inject_Z_mult. reflexivity. Qed.

Lemma sem_shr_1 (V : Q) (mrs : shr_record) (e : Z) :
  sem V mrs e -> sem V (shr_1 mrs) (e + 1).
Proof.
  destruct mrs as [m r s]. intros [Hm [f [Hf HV]]].
  cbn [shr_m shr_r shr_s] in *.
  assert (forall (m' : Z) (b : bool),
            0 <= m' ->
            (inject_Z m == 2 * inject_Z m' + (if b then 1 else 0))%Q ->
            sem V {| shr_m := m'; shr_r := b; shr_s := r || s |} (e + 1)) as Hstep.
  { intros m' b Hm' Em. split; [exact Hm'|].
    exists (((if b then 1 else 0) + f) * (1 # 2))%Q. cbn [shr_m shr_r shr_s]. split.
    - destruct b, r, s; cbn [orb frac_ok] in *; try lra.
    - rewrite HV, Em, bpow_add, bpow_1. field. }
  unfold shr_1.
  destruct m as [|p|p]; [| |lia].
  - apply (Hstep 0 false); [lia | reflexivity].
  - destruct p as [p|p|].
    + apply (Hstep (Zpos p) true); [lia | apply inject_Z_xI].
    + apply (Hstep (Zpos p) false); [lia | rewrite inject_Z_xO; lra].
    + apply (Hstep 0 true); [lia | reflexivity].
Qed.

Lemma sem_iter_shr_1 (V : Q) (p : positive) :
  forall (mrs : shr_record) (e : Z),
  sem V mrs e -> sem V (iter_pos shr_1 p mrs) (e + Zpos p).
Proof.
  induction p as [p IH | p IH |]; intros mrs e H; cbn [iter_pos].
  - replace (e + Zpos p~1) with (e + 1 + Zpos p + Zpos p) by lia.
    apply IH, IH, sem_shr_1, H.
  - replace (e + Zpos p~0) with (e + Zpos p + Zpos p) by lia.
    apply IH, IH, H.
  - apply sem_shr_1, H.
Qed.

Lemma sem_shr (V : Q) (mrs : shr_record) (e n : Z) :
  sem V mrs e ->
  sem V (fst (shr mrs e n)) (snd (shr mrs e n)) /\
  snd (shr mrs e n) = e + Z.max n 0.
Proof.
  intros H. unfold shr. destruct n as [|p|p]; cbn [fst snd].
  - split; [exact H | lia].
  - split; [apply sem_iter_shr_1, H | lia].
  - split; [exact H | lia].
Qed.

(** ** Rounding to the nearest integer, ties to even *)

Lemma is_rne_ext (y y' : Q) (M : Z) : (y == y')%Q -> is_rne y M -> is_rne y' M.
Proof.
  intros E [[L U] H]. split; [split; rewrite <- E; assumption|].
  intros [H'|H']; apply H; [left | right]; rewrite E; exact H'.
Qed.

Lemma is_rne_mono (y1 y2 : Q) (a b : Z) :
  is_rne y1 a -> is_rne y2 b -> (y1 <= y2)%Q -> a <= b.
Proof.
  intros [[La Ua] Ea] [[Lb Ub] Eb] Hle.
  destruct (Z.le_gt_cases a b) as [|Hgt]; [assumption|exfalso].
  assert (b + 1 <= a) as Hab by lia.
  rewrite Zle_Qle, inject_Z_plus in Hab. change (inject_Z 1) with 1%Q in Hab.
  assert (Z.even a = true) as Ha by (apply Ea; left; lra).
  assert (Z.even b = true) as Hb by (apply Eb; right; lra).
  assert (a = b + 1) as Eab.
  { apply Z.le_antisymm; [|lia]. rewrite Zle_Qle, inject_Z_plus.
    change (inject_Z 1) with 1%Q. lra. }
  subst a. rewrite Z.even_add in Ha. rewrite Hb in Ha. discriminate.
Qed.

Lemma is_rne_le_int (y : Q) (M k : Z) : is_rne y M -> (y <= inject_Z k)%Q -> M <= k.
Proof.
  intros [[L U] E] Hle.
  destruct (Z.le_gt_cases M k) as [|Hgt]; [assumption|exfalso].
  assert (k + 1 <= M) as Hk by lia.
  rewrite Zle_Qle, inject_Z_plus in Hk. change (inject_Z 1) with 1%Q in Hk. lra.
Qed.

Lemma is_rne_ge_int (y : Q) (M k : Z) : is_rne y M -> (inject_Z k <= y)%Q -> k <= M.
Proof.
  intros [[L U] E] Hle.
  destruct (Z.le_gt_cases k M) as [|Hgt]; [assumption|exfalso].
  assert (M + 1 <= k) as Hk by lia.
  rewrite Zle_Qle, inject_Z_plus in Hk. change (inject_Z 1) with 1%Q in Hk. lra.
Qed.

Lemma is_rne_int (k M : Z) : is_rne (inject_Z k) M -> M = k.
Proof.
  intros H. apply Z.le_antisymm.
  - apply (is_rne_le_int _ _ _ H). apply Qle_refl.
  - apply (is_rne_ge_int _ _ _ H). apply Qle_refl.
Qed.

Lemma is_rne_of_int (k : Z) : is_rne (inject_Z k) k.
Proof. split; [lra | intros [H|H]; lra]. Qed.

Lemma round_nearest_even_rne (m : Z) (r s : bool) (f : Q) :
  frac_ok r s f ->
  is_rne (inject_Z m + f)
         (round_nearest_even m
            (loc_of_shr_record {| shr_m := m; shr_r := r; shr_s := s |})).
Proof.
  intros Hf. unfold loc_of_shr_record, round_nearest_even.
  destruct r, s; cbn [frac_ok] in Hf.
  - split; [|intros [H|H]]; rewrite ?inject_Z_plus in *;
      change (inject_Z 1) with 1%Q in *; lra.
  - destruct (Z.even m) eqn:Em.
    + split; [lra | intros _; exact Em].
    + split; [|intros _]; rewrite ?inject_Z_plus; change (inject_Z 1) with 1%Q;
        [lra | rewrite Z.even_add, Em; reflexivity].
  - split; [lra | intros [H|H]; lra].
  - split; [lra | intros [H|H]; lra].
Qed.

(** ** The binary64 format *)

Lemma fexp_64 (e : Z) : fexp prec emax e = Z.max (e - 53) (-1074).
Proof. reflexivity. Qed.

Lemma fexp_mono (a b : Z) : a <= b -> fexp prec emax a <= fexp prec emax b.
Proof. rewrite !fexp_64. lia. Qed.

Lemma shr_nonpos (mrs : shr_record) (e n : Z) : n <= 0 -> shr mrs e n = (mrs, e).
Proof. destruct n; [reflexivity | lia | reflexivity]. Qed.

Lemma sem_exact (K : Z) (mrs : shr_record) (e : Z) :
  sem (inject_Z K * bpow e) mrs e -> shr_m mrs = K.
Proof.
  intros [Hm [f [Hf HV]]].
  assert (inject_Z K == inject_Z (shr_m mrs) + f)%Q as E.
  { pose proof (bpow_pos e) as He.
    apply (Qmult_inj_r _ _ (bpow e)); [lra | exact HV]. }
  assert (0 <= f /\ f < 1)%Q as [F0 F1]
    by (destruct (shr_r mrs), (shr_s mrs); cbn [frac_ok] in Hf; lra).
  apply Z.le_antisymm.
  - rewrite Zle_Qle. lra.
  - assert (K < shr_m mrs + 1); [|lia].
    rewrite Zlt_Qlt, inject_Z_plus. change (inject_Z 1) with 1%Q. lra.
Qed.

Lemma sem_of_int (K e : Z) :
  0 <= K -> sem (inject_Z K * bpow e) (shr_record_of_loc K loc_Exact) e.
Proof.
  intros HK. split; [exact HK|]. exists 0%Q. cbn. split; [reflexivity|]. ring.
Qed.

Lemma renorm_float_of (M D : Z) :
  0 <= M ->
  (D < fexp prec emax D -> M = 0) ->
  (fexp prec emax D <= D -> M <= 2 ^ (D - fexp prec emax D)) ->
  (-1074 <= D - 53 -> 2 ^ 52 <= M) ->
  float_of M (fexp prec emax D) (renorm M (fexp prec emax D)).
Proof.
  intros HM Hsmall Hhi Hlo. unfold renorm, shr_fexp.
  set (E := fexp prec emax D) in *.
  destruct (Z.eq_dec M 0) as [->|HM0].
  - (* a zero mantissa stays zero *)
    left. split; [reflexivity|]. exists false.
    pose proof (sem_shr (inject_Z 0 * bpow E) (shr_record_of_loc 0 loc_Exact) E
                  (fexp prec emax (Zdigits2 0 + E) - E) (sem_of_int 0 E (Z.le_refl 0)))
      as [Hsem Hexp].
    destruct (shr _ _ _) as [mrs e''] eqn:Es. cbn [fst snd] in *.
    assert (inject_Z 0 * bpow E == inject_Z 0 * bpow e'')%Q as EV by ring.
    apply (sem_ext _ _ _ _ EV), sem_exact in Hsem. rewrite Hsem. reflexivity.
  - assert (0 < M) as HMpos by lia.
    destruct (Zdigits2_bounds M HMpos) as [Dlo Dhi].
    pose proof (Zdigits2_pos M HMpos) as Dpos.
    assert (E <= D) as HED by (destruct (Z.le_gt_cases E D); [assumption | lia]).
    specialize (Hhi HED).
    assert (E = Z.max (D - 53) (-1074)) as EE by (unfold E; apply fexp_64).
    destruct (Z.le_gt_cases (-1074) (D - 53)) as [Hnormal|Hsub].
    + (* normal range: 2^52 <= M <= 2^53 *)
      specialize (Hlo Hnormal).
      assert (E = D - 53) as EE' by lia. replace (D - E) with 53 in Hhi by lia.
      destruct (Z.eq_dec M (2 ^ 53)) as [EM|NM].
      * (* the rounding carried into the next binade *)
        assert (Zdigits2 M = 54) as Ed.
        { apply Z.le_antisymm.
          - apply Zdigits2_le; [assumption | lia | rewrite EM; reflexivity].
          - assert (53 < Zdigits2 M); [|lia].
            apply Zdigits2_ge; [assumption | lia | rewrite EM; reflexivity]. }
        rewrite Ed, fexp_64.
        replace (Z.max (54 + E - 53) (-1074) - E) with 1 by lia.
        change (shr (shr_record_of_loc M loc_Exact) E 1)
          with (shr_1 (shr_record_of_loc M loc_Exact), E + 1).
        cbv beta iota.
        pose proof (sem_shr_1 _ _ _ (sem_of_int M E HM)) as Hsem.
        assert (inject_Z M * bpow E == inject_Z (2 ^ 52) * bpow (E + 1))%Q as EV.
        { rewrite EM, bpow_add, bpow_1.
          change (2 ^ 53) with (2 * 2 ^ 52). rewrite inject_Z_mult. ring. }
        apply (sem_ext _ _ _ _ EV), sem_exact in Hsem. rewrite Hsem.
        change (2 ^ 52) with (Zpos (2 ^ 52)).
        change (emax - prec) with 971.
        destruct (Z.leb_spec (E + 1) 971) as [Hfin|Hinf].
        -- right. right. split; [assumption|].
           exists (2 ^ 52)%positive, (E + 1). split; [reflexivity|]. split.
           ++ unfold bounded, canonical_mantissa. rewrite fexp_64.
              change (Zpos (digits2_pos (2 ^ 52))) with 53.
              apply andb_true_intro. split; [apply Z.eqb_eq | apply Z.leb_le];
                change (emax - prec) with 971; lia.
           ++ symmetry. exact EV.
        -- right. left. split; [assumption|]. split; [|reflexivity].
           rewrite EV. replace 1024 with (52 + 972) by lia.
           rewrite bpow_add, (bpow_Z 52) by lia.
           apply Qmult_le_l; [reflexivity|]. apply bpow_le. lia.
      * assert (M < 2 ^ 53) as HM53 by lia.
        assert (Zdigits2 M = 53) as Ed.
        { apply Z.le_antisymm.
          - apply Zdigits2_le; [assumption | lia | assumption].
          - assert (52 < Zdigits2 M); [|lia].
            apply Zdigits2_ge; [assumption | lia | assumption]. }
        rewrite Ed, fexp_64, shr_nonpos by lia.
        cbn [shr_record_of_loc shr_m].
        destruct M as [|m|m]; try lia.
        change (emax - prec) with 971.
        destruct (Z.leb_spec E 971) as [Hfin|Hinf].
        -- right. right. split; [assumption|].
           exists m, E. split; [reflexivity|]. split; [|reflexivity].
           unfold bounded, canonical_mantissa. rewrite fexp_64.
           change (Zpos (digits2_pos m)) with (Zdigits2 (Zpos m)). rewrite Ed.
           apply andb_true_intro. split; [apply Z.eqb_eq | apply Z.leb_le];
             change (emax - prec) with 971; lia.
        -- right. left. split; [assumption|]. split; [|reflexivity].
           apply Qle_trans with (inject_Z (2 ^ 52) * bpow 972)%Q.
           ++ replace 1024 with (52 + 972) by lia.
              rewrite bpow_add, (bpow_Z 52) by lia. apply Qle_refl.
           ++ apply Qle_trans with (inject_Z (2 ^ 52) * bpow E)%Q.
              ** apply Qmult_le_l; [reflexivity|]. apply bpow_le. lia.
              ** apply Qmult_le_compat_r; [rewrite <- Zle_Qle; exact Hlo|].
                 pose proof (bpow_pos E). lra.
    + (* subnormal range: the exponent is the minimum *)
      assert (E = -1074) as EE' by lia.
      assert (Zdigits2 M <= D - E + 1) as Ed.
      { apply Zdigits2_le; [assumption | lia|].
        rewrite Z.pow_add_r by lia. change (2 ^ 1) with 2. lia. }
      rewrite fexp_64, shr_nonpos by lia.
      cbn [shr_record_of_loc shr_m].
      destruct M as [|m|m]; try lia.
      change (emax - prec) with 971.
      destruct (Z.leb_spec E 971) as [Hfin|Hinf]; [|lia].
      right. right. split; [assumption|].
      exists m, E. split; [reflexivity|]. split; [|reflexivity].
      unfold bounded, canonical_mantissa. rewrite fexp_64.
      change (Zpos (digits2_pos m)) with (Zdigits2 (Zpos m)).
      apply andb_true_intro. split; [apply Z.eqb_eq | apply Z.leb_le];
        change (emax - prec) with 971; lia.
Qed.

Lemma div_bpow_lt (V : Q) (D E : Z) :
  (V < bpow D)%Q -> (V / bpow E < bpow (D - E))%Q.
Proof.
  intros H. apply Qlt_shift_div_r; [apply bpow_pos|].
  rewrite <- bpow_add. replace (D - E + E) with D by lia. exact H.
Qed.

Lemma div_bpow_le (V : Q) (D E : Z) :
  (bpow D <= V)%Q -> (bpow (D - E) <= V / bpow E)%Q.
Proof.
  intros H. apply Qle_shift_div_l; [apply bpow_pos|].
  rewrite <- bpow_add. replace (D - E + E) with D by lia. exact H.
Qed.

Lemma div_bpow_nonneg (V : Q) (E : Z) : (0 <= V)%Q -> (0 <= V / bpow E)%Q.
Proof.
  intros H. apply Qle_shift_div_l; [apply bpow_pos|]. lra.
Qed.

Lemma rounded_intro (V : Q) (D M : Z) :
  (0 <= V /\ V < bpow D)%Q ->
  (-1074 <= D - 53 -> (bpow (D - 1) <= V)%Q) ->
  is_rne (V / bpow (fexp prec emax D)) M ->
  rounded V (renorm M (fexp prec emax D)).
Proof.
  intros [V0 VD] Vlo Hrne. exists D, M.
  split; [split; assumption|]. split; [exact Vlo|]. split; [exact Hrne|].
  set (E := fexp prec emax D) in *.
  pose proof (div_bpow_nonneg V E V0) as Y0.
  pose proof (div_bpow_lt V D E VD) as YD.
  apply renorm_float_of; fold E.
  - apply (is_rne_ge_int _ _ 0 Hrne). exact Y0.
  - intros Hlt.
    assert (bpow (D - E) <= bpow (-1))%Q as Hb by (apply bpow_le; lia).
    change (bpow (-1)) with (1 # 2)%Q in Hb.
    apply Z.le_antisymm.
    + destruct Hrne as [[L U] _].
      assert (M < 1); [|lia]. rewrite Zlt_Qlt. change (inject_Z 1) with 1%Q. lra.
    + apply (is_rne_ge_int _ _ 0 Hrne). exact Y0.
  - intros HED. apply (is_rne_le_int _ _ _ Hrne).
    rewrite <- bpow_Z by lia. lra.
  - intros Hnormal. apply (is_rne_ge_int _ _ _ Hrne).
    change (inject_Z (2 ^ 52)) with (bpow 52).
    assert (E = D - 53) as -> by (unfold E; rewrite fexp_64; lia).
    replace 52 with (D - 1 - (D - 53)) by lia.
    apply div_bpow_le, Vlo, Hnormal.
Qed.

Lemma binary_round_aux_renorm (m e : Z) (l : location) :
  binary_round_aux prec emax false m e l
  = renorm (round_nearest_even (shr_m (fst (shr_fexp prec emax m e l)))
              (loc_of_shr_record (fst (shr_fexp prec emax m e l))))
           (snd (shr_fexp prec emax m e l)).
Proof.
  unfold binary_round_aux, renorm. destruct (shr_fexp prec emax m e l) as [mrs' e'].
  reflexivity.
Qed.

(** [binary_round_aux] rounds correctly whenever the exponent it is given is
    not above the exponent of the format at the magnitude of the value. *)
Lemma binary_round_aux_rounded (V : Q) (m e : Z) (l : location) :
  sem V (shr_record_of_loc m l) e ->
  e <= fexp prec emax (Zdigits2 m + e) ->
  rounded V (binary_round_aux prec emax false m e l).
Proof.
  intros Hsem Hpre. rewrite binary_round_aux_renorm. unfold shr_fexp.
  pose proof (sem_shr V _ e (fexp prec emax (Zdigits2 m + e) - e) Hsem) as [Hsem' He'].
  destruct (shr _ _ _) as [mrs' e'] eqn:Es. cbn [fst snd] in *.
  assert (e' = fexp prec emax (Zdigits2 m + e)) as -> by lia.
  set (D := Zdigits2 m + e) in *.
  destruct Hsem as [Hm [f [Hf HV]]].
  assert (shr_m (shr_record_of_loc m l) = m) as Em by (destruct l as [|[]]; reflexivity).
  rewrite Em in Hm, HV.
  assert (0 <= f /\ f < 1)%Q as [F0 F1].
  { destruct (shr_r (shr_record_of_loc m l)), (shr_s (shr_record_of_loc m l));
      cbn [frac_ok] in Hf; lra. }
  pose proof (bpow_pos e) as Be.
  assert (0 <= inject_Z m)%Q as Hm' by (change 0%Q with (inject_Z 0); rewrite <- Zle_Qle; exact Hm).
  assert (0 <= V /\ V < bpow D)%Q as HVb.
  { split.
    - rewrite HV. apply Qmult_le_0_compat; lra.
    - destruct (Z.eq_dec m 0) as [->|Hm0].
      + unfold D. cbn [Zdigits2]. rewrite Z.add_0_l, HV.
        change (inject_Z 0) with 0%Q.
        setoid_replace (bpow e) with (1 * bpow e)%Q at 2 by ring.
        apply Qmult_lt_compat_r; lra.
      + assert (0 < m) as Hmpos by lia.
        destruct (Zdigits2_bounds m Hmpos) as [_ Hhi].
        pose proof (Zdigits2_pos m Hmpos).
        unfold D. rewrite HV, bpow_add, (bpow_Z (Zdigits2 m)) by lia.
        apply Qlt_le_trans with ((inject_Z m + 1) * bpow e)%Q.
        * apply Qmult_lt_compat_r; lra.
        * apply Qmult_le_compat_r; [|lra].
          change 1%Q with (inject_Z 1). rewrite <- inject_Z_plus, <- Zle_Qle. lia. }
  assert (-1074 <= D - 53 -> (bpow (D - 1) <= V)%Q) as HVlo.
  { intros Hnormal.
    destruct (Z.eq_dec m 0) as [->|Hm0].
    - exfalso. unfold D in *. cbn [Zdigits2] in *. rewrite fexp_64 in Hpre. lia.
    - assert (0 < m) as Hmpos by lia.
      destruct (mag_bounds m e Hmpos) as [Hlo _]. fold D in Hlo.
      apply Qle_trans with (inject_Z m * bpow e)%Q; [exact Hlo|].
      rewrite HV. apply Qmult_le_compat_r; lra. }
  apply rounded_intro; [exact HVb | exact HVlo|].
  destruct Hsem' as [Hm1 [f1 [Hf1 HV1]]].
  destruct mrs' as [m1 r1 s1]. cbn [shr_m shr_r shr_s] in *.
  assert (inject_Z m1 + f1 == V / bpow (fexp prec emax D))%Q as EY.
  { rewrite HV1. field. pose proof (bpow_pos (fexp prec emax D)). lra. }
  apply (is_rne_ext _ _ _ EY), round_nearest_even_rne, Hf1.
Qed.

(** ** Canonical floats and their order *)

Lemma bounded_facts (m : positive) (e : Z) :
  bounded prec emax m e = true ->
  Zdigits2 (Zpos m) <= 53 /\ -1074 <= e <= 971 /\
  (-1074 < e -> Zdigits2 (Zpos m) = 53) /\
  fexp prec emax (Zdigits2 (Zpos m) + e) = e.
Proof.
  unfold bounded, canonical_mantissa. intros H.
  apply andb_prop in H as [Hc Hb]. apply Z.eqb_eq in Hc. apply Z.leb_le in Hb.
  change (emax - prec) with 971 in Hb.
  change (Zpos (digits2_pos m)) with (Zdigits2 (Zpos m)) in Hc.
  pose proof Hc as Hc'. rewrite fexp_64 in Hc'. repeat split; try lia; exact Hc.
Qed.

Lemma bounded_value_bounds (m : positive) (e : Z) :
  bounded prec emax m e = true ->
  (0 < inject_Z (Zpos m) * bpow e)%Q /\
  (inject_Z (Zpos m) * bpow e < bpow (53 + e))%Q /\
  (-1074 < e -> (bpow (52 + e) <= inject_Z (Zpos m) * bpow e)%Q).
Proof.
  intros Hb. destruct (bounded_facts m e Hb) as (Hd & He & Hn & _).
  destruct (mag_bounds (Zpos m) e eq_refl) as [Hlo Hhi].
  pose proof (bpow_pos e) as Be.
  split; [|split].
  - apply Qmult_lt_0_compat; [reflexivity | exact Be].
  - apply Qlt_le_trans with (1 := Hhi). apply bpow_le. lia.
  - intros Hne. rewrite (Hn Hne) in Hlo.
    replace (52 + e) with (53 + e - 1) by lia. exact Hlo.
Qed.

Lemma bounded_lt_max (m : positive) (e : Z) :
  bounded prec emax m e = true -> (inject_Z (Zpos m) * bpow e < bpow 1024)%Q.
Proof.
  intros Hb. destruct (bounded_facts m e Hb) as (_ & He & _).
  destruct (bounded_value_bounds m e Hb) as (_ & Hhi & _).
  apply Qlt_le_trans with (1 := Hhi). apply bpow_le. lia.
Qed.

(** On canonical floats the comparison of the code is the comparison of the
    values. *)
Lemma SFcompare_finite_value (m1 : positive) (e1 : Z) (m2 : positive) (e2 : Z) :
  bounded prec emax m1 e1 = true -> bounded prec emax m2 e2 = true ->
  SFcompare (S754_finite false m1 e1) (S754_finite false m2 e2)
  = Some (inject_Z (Zpos m1) * bpow e1 ?= inject_Z (Zpos m2) * bpow e2)%Q.
Proof.
  intros B1 B2. cbn [SFcompare]. f_equal.
  destruct (bounded_facts m1 e1 B1) as (D1 & E1 & N1 & _).
  destruct (bounded_facts m2 e2 B2) as (D2 & E2 & N2 & _).
  destruct (bounded_value_bounds m1 e1 B1) as (P1 & H1 & L1).
  destruct (bounded_value_bounds m2 e2 B2) as (P2 & H2 & L2).
  destruct (Z.compare_spec e1 e2) as [Ee|Hlt|Hgt].
  - subst e2. change (Pos.compare_cont Eq m1 m2) with (Pos.compare m1 m2).
    pose proof (bpow_pos e1) as Be.
    destruct (Pos.compare_spec m1 m2) as [Em|Hm|Hm]; symmetry.
    + subst m2. apply Qeq_alt. reflexivity.
    + apply Qlt_alt. apply Qmult_lt_compat_r; [exact Be|].
      rewrite <- Zlt_Qlt. lia.
    + apply Qgt_alt. apply Qmult_lt_compat_r; [exact Be|].
      rewrite <- Zlt_Qlt. lia.
  - symmetry. apply Qlt_alt.
    apply Qlt_le_trans with (1 := H1).
    apply Qle_trans with (bpow (52 + e2)); [apply bpow_le; lia | apply L2; lia].
  - symmetry. apply Qgt_alt.
    apply Qlt_le_trans with (1 := H2).
    apply Qle_trans with (bpow (52 + e1)); [apply bpow_le; lia | apply L1; lia].
Qed.

Lemma SFleb_finite_value (m1 : positive) (e1 : Z) (m2 : positive) (e2 : Z) :
  bounded prec emax m1 e1 = true -> bounded prec emax m2 e2 = true ->
  SFleb (S754_finite false m1 e1) (S754_finite false m2 e2) = true <->
  (inject_Z (Zpos m1) * bpow e1 <= inject_Z (Zpos m2) * bpow e2)%Q.
Proof.
  intros B1 B2. unfold SFleb. rewrite (SFcompare_finite_value _ _ _ _ B1 B2).
  rewrite Qle_alt. destruct (_ ?= _)%Q; split; congruence.
Qed.

Lemma SFltb_finite_value (m1 : positive) (e1 : Z) (m2 : positive) (e2 : Z) :
  bounded prec emax m1 e1 = true -> bounded prec emax m2 e2 = true ->
  SFltb (S754_finite false m1 e1) (S754_finite false m2 e2) = true <->
  (inject_Z (Zpos m1) * bpow e1 < inject_Z (Zpos m2) * bpow e2)%Q.
Proof.
  intros B1 B2. unfold SFltb. rewrite (SFcompare_finite_value _ _ _ _ B1 B2).
  rewrite Qlt_alt. destruct (_ ?= _)%Q; split; congruence.
Qed.

(** ** Rounding is monotone and keeps floats *)

Lemma rounded_ext (V V' : Q) (R : spec_float) :
  (V == V')%Q -> rounded V R -> rounded V' R.
Proof.
  intros E (D & M & [V0 VD] & Vlo & Hrne & Hf). exists D, M.
  split; [split; rewrite <- E; assumption|].
  split; [intros H; rewrite <- E; apply Vlo, H|].
  split; [|exact Hf].
  apply (is_rne_ext (V / bpow (fexp prec emax D))); [rewrite E; reflexivity | exact Hrne].
Qed.

Lemma float_of_nonneg (M E : Z) (R : spec_float) : float_of M E R -> nonneg_float R.
Proof.
  intros [[_ [s ->]] | [(_ & _ & ->) | (_ & m & e & -> & Hb & _)]]; cbn; auto.
Qed.

Lemma rounded_nonneg (V : Q) (R : spec_float) : rounded V R -> nonneg_float R.
Proof. intros (D & M & _ & _ & _ & Hf). exact (float_of_nonneg _ _ _ Hf). Qed.

(** The rounded value, and that a greater value does not round below. *)
Lemma rounded_mono_value (V1 V2 : Q) (D1 M1 D2 M2 : Z) :
  (0 <= V1 /\ V1 < bpow D1)%Q ->
  (-1074 <= D1 - 53 -> (bpow (D1 - 1) <= V1)%Q) ->
  is_rne (V1 / bpow (fexp prec emax D1)) M1 ->
  (0 <= V2 /\ V2 < bpow D2)%Q ->
  (-1074 <= D2 - 53 -> (bpow (D2 - 1) <= V2)%Q) ->
  is_rne (V2 / bpow (fexp prec emax D2)) M2 ->
  (V1 <= V2)%Q ->
  (inject_Z M1 * bpow (fexp prec emax D1) <= inject_Z M2 * bpow (fexp prec emax D2))%Q.
Proof.
  intros [V10 V1D] V1lo R1 [V20 V2D] V2lo R2 Hle.
  set (E1 := fexp prec emax D1) in *. set (E2 := fexp prec emax D2) in *.
  assert (E1 = Z.max (D1 - 53) (-1074)) as EE1 by apply fexp_64.
  assert (E2 = Z.max (D2 - 53) (-1074)) as EE2 by apply fexp_64.
  pose proof (bpow_pos E1) as B1. pose proof (bpow_pos E2) as B2.
  assert (E1 <= E2) as HE.
  { destruct (Z.le_gt_cases (-1074) (D1 - 53)) as [Hn|Hs]; [|lia].
    specialize (V1lo Hn).
    assert (D1 - 1 < D2) by (apply bpow_lt_inv; lra). lia. }
  destruct (Z.eq_dec E1 E2) as [Eeq|Ene].
  - rewrite <- Eeq in *.
    apply Qmult_le_compat_r; [|lra]. rewrite <- Zle_Qle.
    apply (is_rne_mono _ _ _ _ R1 R2).
    apply Qmult_le_compat_r; [exact Hle|]. apply Qlt_le_weak, Qinv_lt_0_compat, B1.
  - assert (E1 < E2) as Hlt by lia.
    assert (-1074 <= D2 - 53) as Hn2 by lia.
    assert (E2 = D2 - 53) as EE2' by lia.
    specialize (V2lo Hn2).
    assert (D1 <= D2 - 1) as HD by lia.
    apply Qle_trans with (bpow D1).
    + pose proof (div_bpow_lt V1 D1 E1 V1D) as Y1.
      pose proof (div_bpow_nonneg V1 E1 V10) as Y10.
      destruct (Z.le_gt_cases E1 D1) as [HED|HED].
      * assert (M1 <= 2 ^ (D1 - E1)) as HM1.
        { apply (is_rne_le_int _ _ _ R1). rewrite <- bpow_Z by lia. lra. }
        assert (bpow D1 == inject_Z (2 ^ (D1 - E1)) * bpow E1)%Q as ->.
        { rewrite <- bpow_Z, <- bpow_add by lia. replace (D1 - E1 + E1) with D1 by lia.
          reflexivity. }
        apply Qmult_le_compat_r; [rewrite <- Zle_Qle; exact HM1 | lra].
      * assert (M1 <= 0) as HM1.
        { assert (bpow (D1 - E1) <= bpow (-1))%Q as Hb by (apply bpow_le; lia).
          change (bpow (-1)) with (1 # 2)%Q in Hb.
          destruct R1 as [[L U] _].
          assert (M1 < 1); [|lia].
          rewrite Zlt_Qlt. change (inject_Z 1) with 1%Q. lra. }
        apply Qle_trans with 0%Q; [|apply Qlt_le_weak, bpow_pos].
        rewrite Zle_Qle in HM1. change (inject_Z 0) with 0%Q in HM1.
        setoid_replace 0%Q with (0 * bpow E1)%Q by ring.
        apply Qmult_le_compat_r; lra.
    + apply Qle_trans with (bpow (D2 - 1)); [apply bpow_le; lia|].
      assert (2 ^ 52 <= M2) as HM2.
      { apply (is_rne_ge_int _ _ _ R2). change (inject_Z (2 ^ 52)) with (bpow 52).
        replace 52 with (D2 - 1 - E2) by lia. apply div_bpow_le, V2lo. }
      replace (D2 - 1) with (52 + E2) by lia. rewrite bpow_add.
      apply Qmult_le_compat_r; [|lra].
      change (bpow 52) with (inject_Z (2 ^ 52)). rewrite <- Zle_Qle. exact HM2.
Qed.

Lemma float_of_value (M E : Z) (R : spec_float) :
  float_of M E R ->
  match R with
  | S754_zero _ => M = 0
  | S754_infinity _ => (bpow 1024 <= inject_Z M * bpow E)%Q
  | S754_finite _ m e =>
      (inject_Z (Zpos m) * bpow e == inject_Z M * bpow E)%Q /\
      (0 < inject_Z M * bpow E)%Q /\ (inject_Z M * bpow E < bpow 1024)%Q
  | S754_nan => False
  end.
Proof.
  intros [[HM [s ->]] | [(_ & H & ->) | (HM & m & e & -> & Hb & EV)]];
    [exact HM | exact H|].
  split; [exact EV|]. rewrite <- EV.
  split; [apply (bounded_value_bounds m e Hb) | apply bounded_lt_max, Hb].
Qed.

(** Rounding is monotone. *)
Lemma rounded_mono (V1 V2 : Q) (R1 R2 : spec_float) :
  rounded V1 R1 -> rounded V2 R2 -> (V1 <= V2)%Q -> SFleb R1 R2 = true.
Proof.
  intros (D1 & M1 & B1 & L1 & N1 & F1) (D2 & M2 & B2 & L2 & N2 & F2) Hle.
  pose proof (rounded_mono_value V1 V2 D1 M1 D2 M2 B1 L1 N1 B2 L2 N2 Hle) as HW.
  pose proof (float_of_nonneg _ _ _ F1) as C1.
  pose proof (float_of_nonneg _ _ _ F2) as C2.
  pose proof (float_of_value _ _ _ F1) as W1.
  pose proof (float_of_value _ _ _ F2) as W2.
  destruct R1 as [s1|s1| |s1 m1 e1], R2 as [s2|s2| |s2 m2 e2];
    cbn [nonneg_float] in C1, C2; try contradiction;
    repeat match goal with H : _ = false /\ _ |- _ => destruct H end; subst;
    try reflexivity.
  - (* infinity against zero *)
    exfalso. pose proof (bpow_pos 1024). change (inject_Z 0) with 0%Q in HW. lra.
  - (* infinity against a finite float *)
    exfalso. destruct W2 as (_ & _ & W2). lra.
  - (* a finite float against zero *)
    exfalso. destruct W1 as (_ & W1 & _). change (inject_Z 0) with 0%Q in HW. lra.
  - destruct W1 as (W1 & _). destruct W2 as (W2 & _).
    apply SFleb_finite_value; [assumption | assumption|]. rewrite W1, W2. exact HW.
Qed.

(** A canonical float is its own rounding, and so is zero. *)
Lemma rounded_float (m : positive) (e : Z) :
  bounded prec emax m e = true ->
  rounded (inject_Z (Zpos m) * bpow e) (S754_finite false m e).
Proof.
  intros Hb. destruct (bounded_facts m e Hb) as (Hd & He & Hn & Hc).
  destruct (mag_bounds (Zpos m) e eq_refl) as [Hlo Hhi].
  destruct (bounded_value_bounds m e Hb) as (P & _).
  exists (Zdigits2 (Zpos m) + e), (Zpos m). rewrite Hc.
  split; [split; [lra | exact Hhi]|]. split; [intros _; exact Hlo|].
  split.
  - apply (is_rne_ext (inject_Z (Zpos m))); [|apply is_rne_of_int].
    field. pose proof (bpow_pos e). lra.
  - right. right. split; [reflexivity|]. exists m, e.
    split; [reflexivity|]. split; [exact Hb | reflexivity].
Qed.

Lemma rounded_zero (s : bool) : rounded 0 (S754_zero s).
Proof.
  exists (-1074), 0. split; [split; [lra | apply bpow_pos]|].
  split; [lia|]. split.
  - apply (is_rne_ext (inject_Z 0)); [|apply is_rne_of_int].
    change (inject_Z 0) with 0%Q. field. pose proof (bpow_pos (fexp prec emax (-1074))). lra.
  - left. split; [reflexivity | exists s; reflexivity].
Qed.

Lemma rounded_le_float (V : Q) (R : spec_float) (m : positive) (e : Z) :
  rounded V R -> bounded prec emax m e = true ->
  (V <= inject_Z (Zpos m) * bpow e)%Q ->
  SFleb R (S754_finite false m e) = true.
Proof. intros HR Hb Hle. exact (rounded_mono _ _ _ _ HR (rounded_float m e Hb) Hle). Qed.

Lemma rounded_ge_float (V : Q) (R : spec_float) (m : positive) (e : Z) :
  rounded V R -> bounded prec emax m e = true ->
  (inject_Z (Zpos m) * bpow e <= V)%Q ->
  SFleb (S754_finite false m e) R = true.
Proof. intros HR Hb Hle. exact (rounded_mono _ _ _ _ (rounded_float m e Hb) HR Hle). Qed.

(** Among the floats that are not below zero, [SFleb] is transitive. *)
Lemma SFleb_trans_nonneg (x y z : spec_float) :
  nonneg_float x -> nonneg_float y -> nonneg_float z ->
  SFleb x y = true -> SFleb y z = true -> SFleb x z = true.
Proof.
  intros Cx Cy Cz Hxy Hyz.
  destruct x as [sx|sx| |sx mx ex], y as [sy|sy| |sy my ey], z as [sz|sz| |sz mz ez];
    cbn [nonneg_float] in Cx, Cy, Cz; try contradiction;
    repeat match goal with H : _ = false /\ _ |- _ => destruct H end; subst;
    try reflexivity; try discriminate.
  apply SFleb_finite_value in Hxy; [|assumption|assumption].
  apply SFleb_finite_value in Hyz; [|assumption|assumption].
  apply SFleb_finite_value; [assumption|assumption|]. lra.
Qed.

(** The value of a rounding that loses nothing: a multiple of the unit of a
    canonical float that is not above it. *)
Lemma rounded_exact (V : Q) (R : spec_float) (N : Z) (m : positive) (e : Z) :
  rounded V R -> bounded prec emax m e = true ->
  (V <= inject_Z (Zpos m) * bpow e)%Q ->
  (V == inject_Z N * bpow e)%Q ->
  (SF2Q R == V)%Q /\
  match R with S754_zero _ | S754_finite _ _ _ => True | _ => False end.
Proof.
  intros (D & M & [V0 VD] & Vlo & Hrne & Hf) Hb Hle HN.
  destruct (bounded_facts m e Hb) as (Hd & He & Hn & Hc).
  destruct (mag_bounds (Zpos m) e eq_refl) as [_ Hhi].
  set (E := fexp prec emax D) in *.
  assert (E = Z.max (D - 53) (-1074)) as EE by apply fexp_64.
  assert (E <= e) as HEe.
  { destruct (Z.le_gt_cases (-1074) (D - 53)) as [Hnormal|Hsub]; [|lia].
    specialize (Vlo Hnormal).
    assert (D - 1 < Zdigits2 (Zpos m) + e) by (apply bpow_lt_inv; lra).
    rewrite fexp_64 in Hc. lia. }
  assert (V / bpow E == inject_Z (N * 2 ^ (e - E)))%Q as EY.
  { rewrite HN, inject_Z_mult, <- bpow_Z by lia.
    replace e with (e - E + E) at 1 by lia. rewrite bpow_add. field.
    pose proof (bpow_pos E). lra. }
  apply (is_rne_ext _ _ _ EY), is_rne_int in Hrne.
  assert (inject_Z M * bpow E == V)%Q as EW.
  { rewrite Hrne, HN, inject_Z_mult, <- bpow_Z by lia.
    replace e with (e - E + E) at 2 by lia. rewrite bpow_add. ring. }
  pose proof (float_of_value _ _ _ Hf) as W.
  pose proof (bounded_lt_max m e Hb) as Hmax.
  destruct R as [s|s| |s m' e']; cbn [SF2Q].
  - split; [|exact I]. rewrite <- EW, W. ring.
  - exfalso. lra.
  - contradiction.
  - destruct W as (W & _). split; [|exact I].
    pose proof (float_of_nonneg _ _ _ Hf) as [-> _]. rewrite W, EW. ring.
Qed.

(** ** The operations *)

Lemma iter_xO (m d : positive) : Zpos (Pos.iter xO m d) = Zpos m * 2 ^ Zpos d.
Proof.
  induction d as [|d IH] using Pos.peano_ind.
  - cbn [Pos.iter]. rewrite Pos2Z.inj_xO. change (2 ^ 1) with 2. lia.
  - rewrite Pos.iter_succ, Pos2Z.inj_xO, IH, Pos2Z.inj_succ, Z.pow_succ_r by lia. lia.
Qed.

Lemma shl_align_spec (m : positive) (e t : Z) :
  snd (shl_align m e t) = Z.min e t /\
  Zpos (fst (shl_align m e t)) = Zpos m * 2 ^ (e - Z.min e t).
Proof.
  unfold shl_align. destruct (t - e) as [|d|d] eqn:Ed; cbn [fst snd].
  - replace (Z.min e t) with e by lia. rewrite Z.sub_diag. split; lia.
  - replace (Z.min e t) with e by lia. rewrite Z.sub_diag. split; lia.
  - replace (Z.min e t) with t by lia. split; [reflexivity|].
    rewrite iter_xO. f_equal. f_equal. lia.
Qed.

Lemma Zdigits2_shift (m k : Z) : 0 < m -> 0 <= k -> Zdigits2 (m * 2 ^ k) = Zdigits2 m + k.
Proof.
  intros Hm Hk. destruct (Zdigits2_bounds m Hm) as [Hlo Hhi].
  pose proof (Zdigits2_pos m Hm) as Hd.
  assert (0 < 2 ^ k) as Hp by (apply Z.pow_pos_nonneg; lia).
  assert (0 < m * 2 ^ k) as Hmk by lia.
  apply Z.le_antisymm.
  - apply Zdigits2_le; [exact Hmk | lia|]. rewrite Z.pow_add_r by lia. nia.
  - assert (Zdigits2 m + k - 1 < Zdigits2 (m * 2 ^ k)); [|lia].
    apply Zdigits2_ge; [exact Hmk | lia|].
    replace (Zdigits2 m + k - 1) with (Zdigits2 m - 1 + k) by lia.
    rewrite Z.pow_add_r by lia. nia.
Qed.

Lemma binary_round_rounded (m : positive) (e : Z) :
  rounded (inject_Z (Zpos m) * bpow e) (binary_round prec emax false m e).
Proof.
  unfold binary_round.
  destruct (shl_align_spec m e (fexp prec emax (Zpos (digits2_pos m) + e))) as [Es Em].
  destruct (shl_align _ _ _) as [mz ez]. cbn [fst snd] in *.
  change (Zpos (digits2_pos m)) with (Zdigits2 (Zpos m)) in *.
  set (t := fexp prec emax (Zdigits2 (Zpos m) + e)) in *.
  fold t in Em. rewrite <- Es in Em.
  assert (0 <= e - ez) as Hk by lia.
  apply binary_round_aux_rounded.
  - apply (sem_ext (inject_Z (Zpos mz) * bpow ez)); [|apply sem_of_int; lia].
    rewrite Em, inject_Z_mult, <- Qmult_assoc, scale_bpow by lia. reflexivity.
  - rewrite Em, Zdigits2_shift by lia.
    replace (Zdigits2 (Zpos m) + (e - ez) + ez) with (Zdigits2 (Zpos m) + e) by lia.
    fold t. lia.
Qed.

Lemma binary_normalize_rounded (z e : Z) :
  0 <= z -> rounded (inject_Z z * bpow e) (binary_normalize prec emax z e false).
Proof.
  intros Hz. destruct z as [|p|p]; [| |lia]; cbn [binary_normalize].
  - apply (rounded_ext 0); [ring | apply rounded_zero].
  - apply binary_round_rounded.
Qed.

(** A rounding to a negative float is the opposite of the rounding of the
    opposite value. *)
Lemma binary_round_aux_opp (m e : Z) (l : location) :
  binary_round_aux prec emax true m e l = SFopp (binary_round_aux prec emax false m e l).
Proof.
  unfold binary_round_aux.
  destruct (shr_fexp prec emax m e l) as [mrs' e'].
  destruct (shr_fexp prec emax _ e' loc_Exact) as [mrs'' e''].
  destruct (shr_m mrs''); [reflexivity| |reflexivity].
  destruct (e'' <=? emax - prec); reflexivity.
Qed.

Lemma binary_normalize_neg (p : positive) (e : Z) :
  binary_normalize prec emax (Zneg p) e false
  = SFopp (binary_normalize prec emax (Zpos p) e false).
Proof.
  cbn [binary_normalize]. unfold binary_round.
  destruct (shl_align _ _ _) as [mz ez]. apply binary_round_aux_opp.
Qed.

(** The aligned mantissas of an addition or a subtraction. *)
Lemma aligned_value (m : positive) (e e' : Z) :
  (inject_Z (Zpos (fst (shl_align m e (Z.min e e')))) * bpow (Z.min e e')
   == inject_Z (Zpos m) * bpow e)%Q.
Proof.
  destruct (shl_align_spec m e (Z.min e e')) as [_ Em].
  replace (Z.min e (Z.min e e')) with (Z.min e e') in Em by lia.
  rewrite Em, inject_Z_mult, <- Qmult_assoc, scale_bpow by lia. reflexivity.
Qed.

Lemma aligned_value_r (m : positive) (e e' : Z) :
  (inject_Z (Zpos (fst (shl_align m e (Z.min e' e)))) * bpow (Z.min e' e)
   == inject_Z (Zpos m) * bpow e)%Q.
Proof. rewrite Z.min_comm. apply aligned_value. Qed.

Lemma SFadd_finite_rounded (mx : positive) (ex : Z) (my : positive) (ey : Z) :
  rounded (inject_Z (Zpos mx) * bpow ex + inject_Z (Zpos my) * bpow ey)
          (SFadd prec emax (S754_finite false mx ex) (S754_finite false my ey)).
Proof.
  cbn [SFadd cond_Zopp].
  set (ax := fst (shl_align mx ex (Z.min ex ey))).
  set (ay := fst (shl_align my ey (Z.min ex ey))).
  apply (rounded_ext (inject_Z (Zpos ax + Zpos ay) * bpow (Z.min ex ey))).
  - rewrite inject_Z_plus, <- (aligned_value mx ex ey), <- (aligned_value_r my ey ex).
    fold ax ay. ring.
  - apply binary_normalize_rounded. lia.
Qed.

Lemma SFsub_finite_rounded (mx : positive) (ex : Z) (my : positive) (ey : Z) :
  (inject_Z (Zpos my) * bpow ey <= inject_Z (Zpos mx) * bpow ex)%Q ->
  rounded (inject_Z (Zpos mx) * bpow ex - inject_Z (Zpos my) * bpow ey)
          (SFsub prec emax (S754_finite false mx ex) (S754_finite false my ey)).
Proof.
  intros Hle. cbn [SFsub cond_Zopp].
  set (ax := fst (shl_align mx ex (Z.min ex ey))).
  set (ay := fst (shl_align my ey (Z.min ex ey))).
  pose proof (aligned_value mx ex ey) as Ex. pose proof (aligned_value_r my ey ex) as Ey.
  fold ax in Ex. fold ay in Ey.
  pose proof (bpow_pos (Z.min ex ey)) as Bz.
  apply (rounded_ext (inject_Z (Zpos ax - Zpos ay) * bpow (Z.min ex ey))).
  - unfold Z.sub at 1. rewrite inject_Z_plus, inject_Z_opp, <- Ex, <- Ey. ring.
  - apply binary_normalize_rounded.
    assert (inject_Z (Zpos ay) <= inject_Z (Zpos ax))%Q as H.
    { apply Qmult_le_r with (z := bpow (Z.min ex ey)); [exact Bz|].
      rewrite Ex, Ey. exact Hle. }
    rewrite <- Zle_Qle in H. lia.
Qed.

(** A subtraction below zero gives the opposite of the rounded distance. *)
Lemma SFsub_finite_below (mx : positive) (ex : Z) (my : positive) (ey : Z) :
  (inject_Z (Zpos mx) * bpow ex < inject_Z (Zpos my) * bpow ey)%Q ->
  exists R,
    SFsub prec emax (S754_finite false mx ex) (S754_finite false my ey) = SFopp R /\
    rounded (inject_Z (Zpos my) * bpow ey - inject_Z (Zpos mx) * bpow ex) R.
Proof.
  intros Hlt. cbn [SFsub cond_Zopp].
  set (ax := fst (shl_align mx ex (Z.min ex ey))).
  set (ay := fst (shl_align my ey (Z.min ex ey))).
  pose proof (aligned_value mx ex ey) as Ex. pose proof (aligned_value_r my ey ex) as Ey.
  fold ax in Ex. fold ay in Ey.
  pose proof (bpow_pos (Z.min ex ey)) as Bz.
  assert (Zpos ax < Zpos ay) as Hz.
  { rewrite Zlt_Qlt. apply Qmult_lt_r with (z := bpow (Z.min ex ey)); [exact Bz|].
    rewrite Ex, Ey. exact Hlt. }
  destruct (Zpos ax - Zpos ay) as [|p|p] eqn:Ed; [lia | lia|].
  exists (binary_normalize prec emax (Zpos p) (Z.min ex ey) false).
  split; [apply binary_normalize_neg|].
  apply (rounded_ext (inject_Z (Zpos p) * bpow (Z.min ex ey))).
  - assert (Zpos p = Zpos ay - Zpos ax) as -> by lia.
    unfold Z.sub at 1. rewrite inject_Z_plus, inject_Z_opp, <- Ex, <- Ey. ring.
  - apply binary_normalize_rounded. lia.
Qed.

Lemma Zdigits2_mul_ge (a b : Z) :
  0 < a -> 0 < b -> Zdigits2 a + Zdigits2 b - 1 <= Zdigits2 (a * b).
Proof.
  intros Ha Hb.
  destruct (Zdigits2_bounds a Ha) as [La _]. destruct (Zdigits2_bounds b Hb) as [Lb _].
  pose proof (Zdigits2_pos a Ha). pose proof (Zdigits2_pos b Hb).
  assert (Zdigits2 a + Zdigits2 b - 2 < Zdigits2 (a * b)); [|lia].
  apply Zdigits2_ge; [nia | lia|].
  replace (Zdigits2 a + Zdigits2 b - 2) with ((Zdigits2 a - 1) + (Zdigits2 b - 1)) by lia.
  rewrite Z.pow_add_r by lia.
  assert (0 < 2 ^ (Zdigits2 a - 1)) by (apply Z.pow_pos_nonneg; lia).
  assert (0 < 2 ^ (Zdigits2 b - 1)) by (apply Z.pow_pos_nonneg; lia).
  nia.
Qed.

Lemma SFmul_finite_rounded (mx : positive) (ex : Z) (my : positive) (ey : Z) :
  bounded prec emax mx ex = true -> bounded prec emax my ey = true ->
  rounded ((inject_Z (Zpos mx) * bpow ex) * (inject_Z (Zpos my) * bpow ey))
          (SFmul prec emax (S754_finite false mx ex) (S754_finite false my ey)).
Proof.
  intros Bx By. cbn [SFmul xorb].
  destruct (bounded_facts mx ex Bx) as (Dx & Ex & Nx & _).
  destruct (bounded_facts my ey By) as (Dy & Ey & Ny & _).
  apply binary_round_aux_rounded.
  - apply (sem_ext (inject_Z (Zpos (mx * my)) * bpow (ex + ey))); [|apply sem_of_int; lia].
    rewrite Pos2Z.inj_mul, inject_Z_mult, bpow_add. ring.
  - rewrite Pos2Z.inj_mul.
    pose proof (Zdigits2_mul_ge (Zpos mx) (Zpos my) eq_refl eq_refl) as Hd.
    pose proof (Zdigits2_pos (Zpos mx) eq_refl) as Px.
    pose proof (Zdigits2_pos (Zpos my) eq_refl) as Py.
    rewrite fexp_64.
    destruct (Z.eq_dec ex (-1074)) as [Hx|Hx];
      destruct (Z.eq_dec ey (-1074)) as [Hy|Hy];
      try rewrite Nx in Hd by lia; try rewrite Ny in Hd by lia; lia.
Qed.

(** The quotient, remainder and location that [SFdiv_core_binary] computes. *)
Lemma new_location_frac (nb k : Z) :
  0 < nb -> 0 <= k < nb ->
  frac_ok (shr_r (shr_record_of_loc 0 (new_location nb k)))
          (shr_s (shr_record_of_loc 0 (new_location nb k)))
          (inject_Z k / inject_Z nb).
Proof.
  intros Hnb [Hk0 Hk].
  assert (0 < inject_Z nb)%Q as Qnb by (change 0%Q with (inject_Z 0); rewrite <- Zlt_Qlt; exact Hnb).
  assert (forall c : comparison,
            (c = Lt -> 0 < k /\ 2 * k < nb) ->
            (c = Eq -> 2 * k = nb) ->
            (c = Gt -> nb < 2 * k) ->
            frac_ok (shr_r (shr_record_of_loc 0 (loc_Inexact c)))
                    (shr_s (shr_record_of_loc 0 (loc_Inexact c)))
                    (inject_Z k / inject_Z nb)) as Hc.
  { intros c HLt HEq HGt. destruct c; cbn [shr_record_of_loc shr_r shr_s frac_ok].
    - specialize (HEq eq_refl). rewrite <- HEq, inject_Z_mult.
      change (inject_Z 2) with 2%Q. field.
      assert (0 < inject_Z k)%Q; [|lra].
      change 0%Q with (inject_Z 0). rewrite <- Zlt_Qlt. lia.
    - destruct (HLt eq_refl) as [Hk1 Hk2]. split.
      + apply Qlt_shift_div_l; [exact Qnb|]. rewrite Qmult_0_l.
        change 0%Q with (inject_Z 0). rewrite <- Zlt_Qlt. exact Hk1.
      + apply Qlt_shift_div_r; [exact Qnb|].
        rewrite Zlt_Qlt, inject_Z_mult in Hk2. change (inject_Z 2) with 2%Q in Hk2. lra.
    - specialize (HGt eq_refl). split.
      + apply Qlt_shift_div_l; [exact Qnb|].
        rewrite Zlt_Qlt, inject_Z_mult in HGt. change (inject_Z 2) with 2%Q in HGt. lra.
      + apply Qlt_shift_div_r; [exact Qnb|]. rewrite Qmult_1_l, <- Zlt_Qlt. exact Hk. }
  unfold new_location.
  destruct (Z.even nb) eqn:Even.
  - unfold new_location_even.
    destruct (Z.eqb_spec k 0) as [->|Hk0'].
    + cbn. unfold Qdiv. rewrite Qmult_0_l. reflexivity.
    + apply Hc; intros Hcmp;
        destruct (Z.compare_spec (2 * k) nb); try discriminate; lia.
  - unfold new_location_odd.
    destruct (Z.eqb_spec k 0) as [->|Hk0'].
    + cbn. unfold Qdiv. rewrite Qmult_0_l. reflexivity.
    + assert (2 * k <> nb) as Hodd.
      { intros E. rewrite <- E, Z.even_mul in Even. discriminate. }
      apply Hc; intros Hcmp;
        destruct (Z.compare_spec (2 * k + 1) nb); try discriminate; lia.
Qed.

Lemma shr_record_of_loc_m (m : Z) (l : location) :
  shr_record_of_loc m l
  = {| shr_m := m; shr_r := shr_r (shr_record_of_loc 0 l);
       shr_s := shr_s (shr_record_of_loc 0 l) |}.
Proof. destruct l as [|[]]; reflexivity. Qed.

Lemma Zdigits2_div_ge (a b q r : Z) :
  0 < a -> 0 < b -> 0 < q -> a = b * q + r -> 0 <= r < b ->
  Zdigits2 a - Zdigits2 b <= Zdigits2 q.
Proof.
  intros Ha Hb Hq E Hr.
  destruct (Zdigits2_bounds a Ha) as [La _]. destruct (Zdigits2_bounds b Hb) as [_ Ub].
  destruct (Zdigits2_bounds q Hq) as [_ Uq].
  pose proof (Zdigits2_pos a Ha). pose proof (Zdigits2_pos b Hb).
  pose proof (Zdigits2_pos q Hq).
  assert (a < 2 ^ (Zdigits2 b + Zdigits2 q)) as Hlt.
  { rewrite Z.pow_add_r by lia. nia. }
  assert (Zdigits2 a - 1 < Zdigits2 b + Zdigits2 q); [|lia].
  apply (Z.pow_lt_mono_r_iff 2); lia.
Qed.

Lemma SFdiv_finite_rounded (mx : positive) (ex : Z) (my : positive) (ey : Z) :
  rounded ((inject_Z (Zpos mx) * bpow ex) / (inject_Z (Zpos my) * bpow ey))
          (SFdiv prec emax (S754_finite false mx ex) (S754_finite false my ey)).
Proof.
  cbn [SFdiv xorb]. unfold SFdiv_core_binary.
  set (d1 := Zdigits2 (Zpos mx)). set (d2 := Zdigits2 (Zpos my)).
  set (delta := d1 + ex - (d2 + ey)).
  set (e' := Z.min (fexp prec emax delta) (ex - ey)).
  set (s := ex - ey - e').
  assert (0 <= s) as Hs by (unfold s, e'; lia).
  set (m' := match s with Zpos _ => Z.shiftl (Zpos mx) s | Z0 => Zpos mx | Zneg _ => 0 end).
  assert (m' = Zpos mx * 2 ^ s) as Em'.
  { unfold m'. destruct s as [|p|p]; [lia | apply Z.shiftl_mul_pow2; lia | lia]. }
  assert (0 < m') as Hm' by (rewrite Em'; assert (0 < 2 ^ s) by (apply Z.pow_pos_nonneg; lia); lia).
  pose proof (Z_div_mod m' (Zpos my) eq_refl) as Hdm.
  destruct (Z.div_eucl m' (Zpos my)) as [q r]. destruct Hdm as [Edm Hr].
  assert (0 <= q) as Hq by nia.
  pose proof (bpow_pos ex) as Bex. pose proof (bpow_pos ey) as Bey.
  pose proof (bpow_pos e') as Be'.
  assert (0 < inject_Z (Zpos my))%Q as Qmy by reflexivity.
  apply binary_round_aux_rounded.
  - rewrite shr_record_of_loc_m. split; [exact Hq|].
    exists (inject_Z r / inject_Z (Zpos my))%Q. cbn [shr_m shr_r shr_s]. split.
    + apply new_location_frac; [reflexivity | lia].
    + assert (inject_Z (Zpos mx) * bpow ex
              == inject_Z m' * bpow e' * bpow ey)%Q as EV.
      { rewrite Em', inject_Z_mult, <- Qmult_assoc, <- Qmult_assoc.
        rewrite (Qmult_assoc (inject_Z (2 ^ s))), scale_bpow'.
        - rewrite <- bpow_add. replace (s + e' + ey) with ex by (unfold s; lia). reflexivity.
        - exact Hs. }
      rewrite EV, Edm, inject_Z_plus, inject_Z_mult. field. lra.
  - fold d1 d2. destruct (Z.eq_dec q 0) as [->|Hq0].
    + (* the quotient vanishes only deep in the subnormal range *)
      cbn [Zdigits2]. rewrite Z.add_0_l, fexp_64.
      assert (m' < Zpos my) as Hlt by lia.
      assert (Zdigits2 m' <= d2) as Hd.
      { apply Zdigits2_le; [exact Hm' | unfold d2; cbn; lia|].
        destruct (Zdigits2_bounds (Zpos my) eq_refl) as [_ U]. fold d2 in U. lia. }
      rewrite Em', Zdigits2_shift in Hd by lia. fold d1 in Hd.
      assert (e' <= fexp prec emax delta) as He' by (unfold e'; lia).
      rewrite fexp_64 in He'. unfold delta, s in *. lia.
    + assert (0 < q) as Hqpos by lia.
      pose proof (Zdigits2_div_ge m' (Zpos my) q r Hm' eq_refl Hqpos Edm Hr) as Hd.
      rewrite Em', Zdigits2_shift in Hd by lia. fold d1 d2 in Hd.
      assert (e' <= fexp prec emax delta) as He' by (unfold e'; lia).
      apply Z.le_trans with (1 := He'). apply fexp_mono. unfold delta, s in *. lia.
Qed.

(** The value of a rounding that loses nothing: a multiple of a unit [2^e0]
    below [2^(e0+53)]. *)
Lemma rounded_exact_unit (V : Q) (R : spec_float) (N e0 : Z) :
  rounded V R -> -1074 <= e0 -> e0 + 53 <= 1024 ->
  (V == inject_Z N * bpow e0)%Q -> (V < bpow (e0 + 53))%Q ->
  (SF2Q R == V)%Q /\
  match R with S754_zero _ | S754_finite _ _ _ => True | _ => False end.
Proof.
  intros (D & M & [V0 VD] & Vlo & Hrne & Hf) He0 Hmax HN Hlt.
  set (E := fexp prec emax D) in *.
  assert (E = Z.max (D - 53) (-1074)) as EE by apply fexp_64.
  assert (E <= e0) as HEe.
  { destruct (Z.le_gt_cases (-1074) (D - 53)) as [Hnormal|Hsub]; [|lia].
    specialize (Vlo Hnormal).
    assert (D - 1 < e0 + 53) by (apply bpow_lt_inv; lra). lia. }
  assert (V / bpow E == inject_Z (N * 2 ^ (e0 - E)))%Q as EY.
  { rewrite HN, inject_Z_mult, <- (scale_bpow e0 E) by lia. field.
    pose proof (bpow_pos E). lra. }
  apply (is_rne_ext _ _ _ EY), is_rne_int in Hrne.
  assert (inject_Z M * bpow E == V)%Q as EW.
  { rewrite Hrne, HN, inject_Z_mult, <- Qmult_assoc, scale_bpow by lia. reflexivity. }
  pose proof (float_of_value _ _ _ Hf) as W.
  assert (bpow (e0 + 53) <= bpow 1024)%Q as Hb by (apply bpow_le; lia).
  destruct R as [s|s| |s m' e']; cbn [SF2Q].
  - split; [|exact I]. rewrite <- EW, W. ring.
  - exfalso. lra.
  - contradiction.
  - destruct W as (W & _). split; [|exact I].
    pose proof (float_of_nonneg _ _ _ Hf) as [-> _]. rewrite W, EW. ring.
Qed.

(** ** Floats that are finite and not below zero *)

Lemma finite_nonneg_nonneg (x : spec_float) : finite_nonneg x -> nonneg_float x.
Proof. destruct x; cbn; tauto. Qed.

Lemma finite_nonneg_value (x : spec_float) : finite_nonneg x -> (0 <= SF2Q x)%Q.
Proof.
  destruct x as [s|s| |s m e]; cbn; try lra; try contradiction.
  intros [-> Hb]. destruct (bounded_value_bounds m e Hb) as (P & _). lra.
Qed.

Lemma finite_nonneg_rounded (x : spec_float) : finite_nonneg x -> rounded (SF2Q x) x.
Proof.
  destruct x as [s|s| |s m e]; cbn; try contradiction.
  - intros _. apply rounded_zero.
  - intros [-> Hb]. apply (rounded_ext (inject_Z (Zpos m) * bpow e)); [ring|].
    apply rounded_float, Hb.
Qed.

(** The order of the code on these floats is the order of their values. *)
Lemma SFleb_value (x y : spec_float) :
  finite_nonneg x -> finite_nonneg y ->
  (SFleb x y = true <-> (SF2Q x <= SF2Q y)%Q).
Proof.
  intros Hx Hy.
  destruct x as [sx|sx| |sx mx ex], y as [sy|sy| |sy my ey];
    cbn [finite_nonneg] in Hx, Hy; try contradiction;
    repeat match goal with H : _ = false /\ _ |- _ => destruct H end; subst;
    cbn [SF2Q].
  - split; [intros _; lra | reflexivity].
  - destruct (bounded_value_bounds my ey H0) as (P & _).
    split; [intros _; lra | reflexivity].
  - destruct (bounded_value_bounds mx ex H0) as (P & _).
    split; [discriminate | intros H; lra].
  - rewrite (SFleb_finite_value _ _ _ _ H2 H0).
    split; intros H; lra.
Qed.

Lemma SFltb_value (x y : spec_float) :
  finite_nonneg x -> finite_nonneg y ->
  (SFltb x y = true <-> (SF2Q x < SF2Q y)%Q).
Proof.
  intros Hx Hy.
  destruct x as [sx|sx| |sx mx ex], y as [sy|sy| |sy my ey];
    cbn [finite_nonneg] in Hx, Hy; try contradiction;
    repeat match goal with H : _ = false /\ _ |- _ => destruct H end; subst;
    cbn [SF2Q].
  - split; [discriminate | intros H; lra].
  - destruct (bounded_value_bounds my ey H0) as (P & _).
    split; [intros _; lra | reflexivity].
  - destruct (bounded_value_bounds mx ex H0) as (P & _).
    split; [discriminate | intros H; lra].
  - rewrite (SFltb_finite_value _ _ _ _ H2 H0).
    split; intros H; lra.
Qed.

Lemma SFleb_refl_nonneg (x : spec_float) : nonneg_float x -> SFleb x x = true.
Proof.
  destruct x as [s|s| |s m e]; cbn [nonneg_float]; try contradiction.
  - intros _. reflexivity.
  - intros ->. reflexivity.
  - intros [-> Hb]. apply SFleb_finite_value; [assumption | assumption | apply Qle_refl].
Qed.

Lemma SFltb_leb (x y : spec_float) : SFltb x y = true -> SFleb x y = true.
Proof. unfold SFltb, SFleb. destruct (SFcompare x y) as [[]|]; congruence. Qed.

(** A rounding that is not above a float is finite. *)
Lemma rounded_le_finite (V : Q) (R x : spec_float) :
  rounded V R -> finite_nonneg x -> (V <= SF2Q x)%Q ->
  finite_nonneg R /\ (SF2Q R <= SF2Q x)%Q /\ SFleb R x = true.
Proof.
  intros HR Hx Hle.
  pose proof (rounded_mono _ _ _ _ HR (finite_nonneg_rounded x Hx) Hle) as Hleb.
  pose proof (rounded_nonneg _ _ HR) as Hn.
  assert (finite_nonneg R) as Hf.
  { destruct R as [s|s| |s m e]; cbn in Hn |- *; auto. subst s.
    destruct x as [sx|sx| |sx mx ex]; cbn in Hx; try contradiction.
    - discriminate.
    - destruct Hx as [-> _]. discriminate. }
  split; [exact Hf|]. split; [|exact Hleb].
  apply SFleb_value; assumption.
Qed.

Lemma rounded_ge_value (V : Q) (R x : spec_float) :
  rounded V R -> finite_nonneg x -> (SF2Q x <= V)%Q -> SFleb x R = true.
Proof.
  intros HR Hx Hle.
  exact (rounded_mono _ _ _ _ (finite_nonneg_rounded x Hx) HR Hle).
Qed.

(** The operations on floats that are finite and not below zero. *)
Lemma SFadd_finite_nonneg (x y : spec_float) :
  finite_nonneg x -> finite_nonneg y ->
  rounded (SF2Q x + SF2Q y) (SFadd prec emax x y).
Proof.
  intros Hx Hy.
  destruct x as [sx|sx| |sx mx ex], y as [sy|sy| |sy my ey];
    cbn [finite_nonneg] in Hx, Hy; try contradiction;
    repeat match goal with H : _ = false /\ _ |- _ => destruct H end; subst.
  - apply (rounded_ext 0); [cbn; ring|].
    cbn [SFadd]. destruct sx, sy; apply rounded_zero.
  - apply (rounded_ext (SF2Q (S754_finite false my ey))); [cbn; ring|].
    apply (finite_nonneg_rounded (S754_finite false my ey)). cbn. auto.
  - apply (rounded_ext (SF2Q (S754_finite false mx ex))); [cbn; ring|].
    apply (finite_nonneg_rounded (S754_finite false mx ex)). cbn. auto.
  - apply (rounded_ext (inject_Z (Zpos mx) * bpow ex + inject_Z (Zpos my) * bpow ey));
      [cbn; ring|].
    apply SFadd_finite_rounded.
Qed.

Lemma SFmul_finite_nonneg (x y : spec_float) :
  finite_nonneg x -> finite_nonneg y ->
  rounded (SF2Q x * SF2Q y) (SFmul prec emax x y).
Proof.
  intros Hx Hy.
  destruct x as [sx|sx| |sx mx ex], y as [sy|sy| |sy my ey];
    cbn [finite_nonneg] in Hx, Hy; try contradiction;
    repeat match goal with H : _ = false /\ _ |- _ => destruct H end; subst;
    try (apply (rounded_ext 0); [cbn; ring | cbn [SFmul]; apply rounded_zero]).
  apply (rounded_ext ((inject_Z (Zpos mx) * bpow ex) * (inject_Z (Zpos my) * bpow ey)));
    [cbn; ring|].
  apply SFmul_finite_rounded; assumption.
Qed.

Lemma SFdiv_finite_nonneg (x : spec_float) (my : positive) (ey : Z) :
  finite_nonneg x ->
  rounded (SF2Q x / SF2Q (S754_finite false my ey))
          (SFdiv prec emax x (S754_finite false my ey)).
Proof.
  intros Hx.
  destruct x as [sx|sx| |sx mx ex]; cbn [finite_nonneg] in Hx; try contradiction.
  - apply (rounded_ext 0); [cbn; unfold Qdiv; ring | cbn [SFdiv]; apply rounded_zero].
  - destruct Hx as [-> _].
    apply (rounded_ext ((inject_Z (Zpos mx) * bpow ex) / (inject_Z (Zpos my) * bpow ey))).
    + cbn [SF2Q]. rewrite !Qmult_1_l. reflexivity.
    + apply SFdiv_finite_rounded.
Qed.

(** A subtraction that stays at or above zero, and one that goes below. *)
Lemma SFsub_finite_nonneg (x y : spec_float) :
  finite_nonneg x -> finite_nonneg y -> (SF2Q y <= SF2Q x)%Q ->
  rounded (SF2Q x - SF2Q y) (SFsub prec emax x y).
Proof.
  intros Hx Hy Hle.
  destruct x as [sx|sx| |sx mx ex], y as [sy|sy| |sy my ey];
    cbn [finite_nonneg] in Hx, Hy; try contradiction;
    repeat match goal with H : _ = false /\ _ |- _ => destruct H end; subst.
  - apply (rounded_ext 0); [cbn; ring|].
    cbn [SFsub]. destruct sx, sy; apply rounded_zero.
  - exfalso. cbn [SF2Q] in Hle.
    destruct (bounded_value_bounds my ey H0) as (P & _). lra.
  - apply (rounded_ext (SF2Q (S754_finite false mx ex))); [cbn; ring|].
    apply (finite_nonneg_rounded (S754_finite false mx ex)). cbn. auto.
  - cbn [SF2Q] in Hle. rewrite !Qmult_1_l in Hle.
    apply (rounded_ext (inject_Z (Zpos mx) * bpow ex - inject_Z (Zpos my) * bpow ey));
      [cbn; ring|].
    apply SFsub_finite_rounded. exact Hle.
Qed.

Lemma SFopp_nonneg (R : spec_float) : nonneg_float R -> nonpos_float (SFopp R).
Proof.
  destruct R as [s|s| |s m e]; cbn.
  - auto.
  - intros ->. reflexivity.
  - auto.
  - intros [-> _]. reflexivity.
Qed.

Lemma SFsub_below (x y : spec_float) :
  finite_nonneg x -> nonneg_float y ->
  (match y with S754_infinity _ => True | _ => (SF2Q x < SF2Q y)%Q end) ->
  nonpos_float (SFsub prec emax x y).
Proof.
  intros Hx Hy Hlt.
  destruct x as [sx|sx| |sx mx ex], y as [sy|sy| |sy my ey];
    cbn [finite_nonneg nonneg_float] in Hx, Hy; try contradiction;
    repeat match goal with H : _ = false /\ _ |- _ => destruct H end; subst;
    cbn [SF2Q] in Hlt; try lra; try reflexivity.
  - destruct (bounded_value_bounds mx ex H0) as (P & _). lra.
  - rewrite !Qmult_1_l in Hlt.
    destruct (SFsub_finite_below mx ex my ey Hlt) as (R & -> & HR).
    apply SFopp_nonneg, (rounded_nonneg _ _ HR).
Qed.

(** ** Primitive floats through their values *)

Lemma Prim2SF_bounded (x : float) (s : bool) (m : positive) (e : Z) :
  Prim2SF x = S754_finite s m e -> bounded prec emax m e = true.
Proof. intros E. pose proof (Prim2SF_valid x) as H. rewrite E in H. exact H. Qed.

Lemma nonneg_float_cases (x : spec_float) :
  nonneg_float x -> finite_nonneg x \/ x = S754_infinity false.
Proof.
  destruct x as [s|s| |s m e]; cbn; try tauto. intros ->. right. reflexivity.
Qed.

Lemma leb_zero_nonneg_float (x : float) :
  (0 <=? x)%float = true <-> nonneg_float (Prim2SF x).
Proof.
  rewrite FloatAxioms.leb_spec. change (Prim2SF 0) with (S754_zero false).
  pose proof (Prim2SF_bounded x) as Hb.
  destruct (Prim2SF x) as [s|s| |s m e]; cbn.
  - tauto.
  - destruct s; split; congruence.
  - split; [discriminate | contradiction].
  - specialize (Hb s m e eq_refl). destruct s; split; try congruence; try tauto.
    intros [H _]. discriminate.
Qed.

Lemma ltb_infinity_finite (x : float) :
  (0 <=? x)%float = true -> (x <? infinity)%float = true ->
  finite_nonneg (Prim2SF x).
Proof.
  intros H0 Hinf. apply leb_zero_nonneg_float in H0.
  rewrite FloatAxioms.ltb_spec in Hinf.
  change (Prim2SF infinity) with (S754_infinity false) in Hinf.
  destruct (Prim2SF x) as [s|s| |s m e]; cbn in *; try tauto.
  subst s. discriminate.
Qed.

Lemma finite_nonneg_ltb_infinity (x : float) :
  finite_nonneg (Prim2SF x) -> (x <? infinity)%float = true.
Proof.
  intros H. rewrite FloatAxioms.ltb_spec.
  change (Prim2SF infinity) with (S754_infinity false).
  destruct (Prim2SF x) as [s|s| |s m e]; cbn in *; try tauto.
Qed.

(** The float [2^k]. *)
Lemma pow2_float (k : Z) :
  -1022 <= k <= 1023 ->
  bounded prec emax 4503599627370496 (k - 52) = true /\
  (SF2Q (S754_finite false 4503599627370496 (k - 52)) == bpow k)%Q.
Proof.
  intros Hk. split.
  - unfold bounded, canonical_mantissa. rewrite fexp_64.
    change (Zpos (digits2_pos 4503599627370496)) with 53.
    change (emax - prec) with 971.
    apply andb_true_intro. split; [apply Z.eqb_eq | apply Z.leb_le]; lia.
  - cbn [SF2Q]. rewrite Qmult_1_l.
    change (Zpos 4503599627370496) with (2 ^ 52).
    rewrite scale_bpow' by lia. replace (52 + (k - 52)) with k by lia. reflexivity.
Qed.

Lemma rounded_le_bpow (V : Q) (R : spec_float) (k : Z) :
  rounded V R -> -1022 <= k <= 1023 -> (V <= bpow k)%Q ->
  finite_nonneg R /\ (SF2Q R <= bpow k)%Q.
Proof.
  intros HR Hk Hle. destruct (pow2_float k Hk) as [Hb Ev].
  assert (finite_nonneg (S754_finite false 4503599627370496 (k - 52))) as Hx
    by (cbn; auto).
  destruct (rounded_le_finite V R _ HR Hx) as (Hf & Hv & _); [rewrite Ev; exact Hle|].
  split; [exact Hf | rewrite <- Ev; exact Hv].
Qed.

(** [float64(n)] of an [int] that is not negative. *)
Lemma of_int_rounded (z : Z) :
  0 <= z <= GoInt.maxInt64 -> rounded (inject_Z z) (Prim2SF (IEEE.of_int z)).
Proof.
  intros [Hlo Hhi]. unfold IEEE.of_int.
  destruct (Z.ltb_spec z 0); [lia|].
  rewrite FloatAxioms.of_uint63_spec, Uint63.of_Z_spec.
  rewrite Z.mod_small by (unfold GoInt.maxInt64 in Hhi; change wB with (2 ^ 63); lia).
  apply (rounded_ext (inject_Z z * bpow 0)); [rewrite bpow_0; ring|].
  apply binary_normalize_rounded, Hlo.
Qed.

Lemma of_int_finite (z : Z) :
  0 <= z <= GoInt.maxInt64 ->
  finite_nonneg (Prim2SF (IEEE.of_int z)) /\ (SF2Q (Prim2SF (IEEE.of_int z)) <= bpow 63)%Q.
Proof.
  intros Hz. apply (rounded_le_bpow (inject_Z z)); [apply of_int_rounded, Hz | lia|].
  rewrite bpow_Z by lia. rewrite <- Zle_Qle. unfold GoInt.maxInt64 in Hz. lia.
Qed.

(** [d.Seconds()] of a duration that is not negative is finite and not
    negative. *)
Lemma Seconds_finite (d : Duration) :
  0 <= d <= maxDuration -> finite_nonneg (Prim2SF (Seconds (F:=float) d)).
Proof.
  intros [Hlo Hhi]. unfold Seconds. cbn [f_add f_div f_of_int binary64].
  rewrite FloatAxioms.add_spec, FloatAxioms.div_spec.
  change (Prim2SF (IEEE.of_int 1000000000))
    with (S754_finite false 8388608000000000 (-23)).
  assert (0 <= Z.quot d Second <= GoInt.maxInt64) as Hq.
  { unfold maxDuration, Second in *. split; [apply Z.quot_pos; lia|].
    apply Z.le_trans with d; [|exact Hhi]. apply Z.quot_le_upper_bound; lia. }
  assert (0 <= Z.rem d Second <= GoInt.maxInt64) as Hr.
  { unfold Second, GoInt.maxInt64.
    pose proof (Z.rem_bound_pos d 1000000000 Hlo eq_refl). lia. }
  destruct (of_int_finite _ Hq) as [Fa Va]. destruct (of_int_finite _ Hr) as [Fn Vn].
  set (a := Prim2SF (IEEE.of_int (Z.quot d Second))) in *.
  set (n := Prim2SF (IEEE.of_int (Z.rem d Second))) in *.
  pose proof (SFdiv_finite_nonneg n 8388608000000000 (-23) Fn) as Hdiv.
  pose proof (finite_nonneg_value n Fn) as Vn0.
  assert (SF2Q (S754_finite false 8388608000000000 (-23)) == 1000000000)%Q as Ed
    by (vm_compute; reflexivity).
  destruct (rounded_le_bpow _ _ 63 Hdiv) as [Fb Vb]; [lia| |].
  { rewrite Ed. apply Qle_shift_div_r; [reflexivity|]. nra. }
  destruct (rounded_le_bpow _ _ 64 (SFadd_finite_nonneg a _ Fa Fb)) as [Fs _]; [lia| |].
  { replace 64 with (1 + 63) by lia. rewrite bpow_add, bpow_1. lra. }
  exact Fs.
Qed.

(** The builtin [min] of two floats that are not NaN and not below zero is
    one of them, and not above the first. *)
Lemma fmin_nonneg (x y : float) :
  nonneg_float (Prim2SF x) -> nonneg_float (Prim2SF y) ->
  nonneg_float (Prim2SF (IEEE.fmin x y)) /\ (IEEE.fmin x y <=? x)%float = true.
Proof.
  intros Hx Hy. unfold IEEE.fmin.
  rewrite (is_nan_spec x), (is_nan_spec y).
  assert (SFleb (Prim2SF x) (Prim2SF x) = true) as Hrefl by (apply SFleb_refl_nonneg, Hx).
  destruct (y <? x)%float eqn:Hyx.
  - replace (match Prim2SF y with S754_nan => true | _ => false end || true) with true
      by (destruct (Prim2SF y); reflexivity).
    split; [exact Hy|]. rewrite FloatAxioms.leb_spec.
    rewrite FloatAxioms.ltb_spec in Hyx. apply SFltb_leb, Hyx.
  - replace (match Prim2SF y with S754_nan => true | _ => false end || false) with false
      by (destruct (Prim2SF y); cbn in Hy; [reflexivity | reflexivity | contradiction | reflexivity]).
    replace (match Prim2SF x with S754_nan => true | _ => false end) with false
      by (destruct (Prim2SF x); cbn in Hx; [reflexivity | reflexivity | contradiction | reflexivity]).
    cbn [orb].
    destruct ((x <? y)%float || negb (x =? 0)%float) eqn:Hc.
    + split; [exact Hx | rewrite FloatAxioms.leb_spec; exact Hrefl].
    + apply orb_false_elim in Hc as [Hxy Hx0]. apply negb_false_iff in Hx0.
      destruct (get_sign x);
        [split; [exact Hx | rewrite FloatAxioms.leb_spec; exact Hrefl]|].
      split; [exact Hy|]. rewrite FloatAxioms.leb_spec.
      destruct (eqb_zero_spec x Hx0) as [s Ex].
      rewrite FloatAxioms.ltb_spec in Hxy. rewrite Ex in *.
      destruct (Prim2SF y) as [sy|sy| |sy my ey]; cbn in Hy; try contradiction.
      * reflexivity.
      * subst sy. discriminate.
      * destruct Hy as [-> _]. discriminate.
Qed.

(** The builtin [max] of zero and a float. *)
Lemma fmax_zero_of_nonpos (y : float) :
  nonpos_float (Prim2SF y) -> IEEE.fmax 0 y = 0%float.
Proof.
  intros Hy. unfold IEEE.fmax. rewrite (is_nan_spec y), !FloatAxioms.ltb_spec.
  change (is_nan 0) with false. change (0 =? 0)%float with true.
  change (get_sign 0) with false. change (Prim2SF 0) with (S754_zero false).
  destruct (Prim2SF y) as [s|s| |s m e]; cbn in Hy |- *; subst; try contradiction;
    reflexivity.
Qed.

Lemma fmax_zero_of_nonneg (y : float) :
  nonneg_float (Prim2SF y) ->
  IEEE.fmax 0 y = y \/
  (IEEE.fmax 0 y = 0%float /\ exists s, Prim2SF y = S754_zero s).
Proof.
  intros Hy. unfold IEEE.fmax. rewrite (is_nan_spec y), !FloatAxioms.ltb_spec.
  change (is_nan 0) with false. change (0 =? 0)%float with true.
  change (get_sign 0) with false. change (Prim2SF 0) with (S754_zero false).
  destruct (Prim2SF y) as [s|s| |s m e]; cbn in Hy |- *; try contradiction.
  - right. split; [reflexivity | exists s; reflexivity].
  - subst s. left. reflexivity.
  - destruct Hy as [-> _]. left. reflexivity.
Qed.

(** Whatever the float, the maximum of zero and it is NaN or not negative. *)
Lemma fmax_zero_class (y : float) :
  Prim2SF (IEEE.fmax 0 y) = S754_nan \/ nonneg_float (Prim2SF (IEEE.fmax 0 y)).
Proof.
  pose proof (Prim2SF_bounded y) as Hb.
  destruct (Prim2SF y) as [s|s| |s m e] eqn:Ey.
  - right. destruct (fmax_zero_of_nonneg y) as [-> | [-> _]];
      [rewrite Ey; exact I | rewrite Ey; exact I | exact I].
  - destruct s.
    + right. rewrite fmax_zero_of_nonpos; [exact I | rewrite Ey; reflexivity].
    + right. destruct (fmax_zero_of_nonneg y) as [-> | [-> _]];
        [rewrite Ey; reflexivity | rewrite Ey; reflexivity | exact I].
  - left. unfold IEEE.fmax. rewrite (is_nan_spec y), Ey. exact Ey.
  - destruct s.
    + right. rewrite fmax_zero_of_nonpos; [exact I | rewrite Ey; reflexivity].
    + assert (nonneg_float (Prim2SF y)) as Hn
        by (rewrite Ey; split; [reflexivity | exact (Hb _ _ _ eq_refl)]).
      right. destruct (fmax_zero_of_nonneg y Hn) as [-> | [-> _]]; [exact Hn | exact I].
Qed.

Lemma Prim2SF_zero : Prim2SF 0 = S754_zero false.
Proof. reflexivity. Qed.

(** What [leak] leaves of a finite level: the level less the leak, or zero;
    never more than the level. *)
Lemma leak_level (w p : float) :
  finite_nonneg (Prim2SF w) -> nonneg_float (Prim2SF p) ->
  finite_nonneg (Prim2SF (IEEE.fmax 0 (w - p))) /\
  (IEEE.fmax 0 (w - p) <=? w)%float = true.
Proof.
  intros Hw Hp.
  assert (finite_nonneg (Prim2SF 0) /\ (0 <=? w)%float = true) as Hzero.
  { split; [exact I|]. apply leb_zero_nonneg_float, finite_nonneg_nonneg, Hw. }
  assert (nonpos_float (Prim2SF (w - p)) ->
          finite_nonneg (Prim2SF (IEEE.fmax 0 (w - p))) /\
          (IEEE.fmax 0 (w - p) <=? w)%float = true) as Hbelow.
  { intros H. rewrite (fmax_zero_of_nonpos _ H). exact Hzero. }
  destruct (nonneg_float_cases _ Hp) as [Fp|Ep].
  - destruct (Qlt_le_dec (SF2Q (Prim2SF w)) (SF2Q (Prim2SF p))) as [Hlt|Hle].
    + apply Hbelow. rewrite FloatAxioms.sub_spec.
      apply SFsub_below; [exact Hw | exact Hp|].
      destruct (Prim2SF p); try exact Hlt. exact I.
    + pose proof (SFsub_finite_nonneg _ _ Hw Fp Hle) as HR.
      rewrite <- FloatAxioms.sub_spec in HR.
      pose proof (finite_nonneg_value _ Fp) as Vp.
      destruct (rounded_le_finite _ _ _ HR Hw) as (Fx & _ & Hleb); [lra|].
      destruct (fmax_zero_of_nonneg (w - p) (finite_nonneg_nonneg _ Fx)) as [-> | [-> _]].
      * split; [exact Fx | rewrite FloatAxioms.leb_spec; exact Hleb].
      * exact Hzero.
  - apply Hbelow. rewrite FloatAxioms.sub_spec, Ep.
    apply SFsub_below; [exact Hw | reflexivity | exact I].
Qed.

Lemma Prim2SF_one : Prim2SF 1 = S754_finite false 4503599627370496 (-52).
Proof. reflexivity. Qed.

Lemma one_float :
  finite_nonneg (Prim2SF 1) /\ (SF2Q (Prim2SF 1) == 1)%Q.
Proof.
  rewrite Prim2SF_one. destruct (pow2_float 0) as [Hb Ev]; [lia|].
  split; [cbn; auto | exact Ev].
Qed.

Lemma SFadd_nonneg_float (x y : spec_float) :
  nonneg_float x -> nonneg_float y -> nonneg_float (SFadd prec emax x y).
Proof.
  intros Hx Hy.
  destruct (nonneg_float_cases x Hx) as [Fx| ->], (nonneg_float_cases y Hy) as [Fy| ->].
  - exact (rounded_nonneg _ _ (SFadd_finite_nonneg x y Fx Fy)).
  - destruct x; cbn in Fx |- *; tauto.
  - destruct y; cbn in Fy |- *; tauto.
  - reflexivity.
Qed.

(** A level of at least one is not NaN, and taking one token from it leaves a
    level that is not negative and not above it. *)
Lemma leb_one_level (l : float) :
  (1 <=? l)%float = true ->
  nonneg_float (Prim2SF l) /\ (finite_nonneg (Prim2SF l) -> (1 <= SF2Q (Prim2SF l))%Q).
Proof.
  intros H1. rewrite FloatAxioms.leb_spec in H1.
  destruct one_float as [F1 V1].
  pose proof (Prim2SF_bounded l) as Hb.
  assert (nonneg_float (Prim2SF l)) as Hn.
  { rewrite Prim2SF_one in H1.
    destruct (Prim2SF l) as [s|s| |s m e]; cbn in H1 |- *; try discriminate.
    - destruct s; [discriminate | reflexivity].
    - destruct s; [discriminate|]. split; [reflexivity | exact (Hb _ _ _ eq_refl)]. }
  split; [exact Hn|]. intros Fl.
  rewrite <- V1. apply SFleb_value; assumption.
Qed.

Lemma sub_one_level (l : float) :
  (1 <=? l)%float = true ->
  nonneg_float (Prim2SF (l - 1)) /\ (l - 1 <=? l)%float = true.
Proof.
  intros H1. destruct (leb_one_level l H1) as [Hn Hv].
  destruct one_float as [F1 V1].
  rewrite FloatAxioms.leb_spec, FloatAxioms.sub_spec.
  destruct (nonneg_float_cases _ Hn) as [Fl|El].
  - specialize (Hv Fl).
    assert (SF2Q (Prim2SF 1) <= SF2Q (Prim2SF l))%Q as Hle by (rewrite V1; exact Hv).
    pose proof (SFsub_finite_nonneg _ _ Fl F1 Hle) as HR.
    destruct (rounded_le_finite _ _ _ HR Fl) as (Fx & _ & Hleb); [lra|].
    split; [apply finite_nonneg_nonneg, Fx | exact Hleb].
  - rewrite El, Prim2SF_one. split; reflexivity.
Qed.

(** Below [2^53] taking one token costs exactly one. *)
Lemma sub_one_exact (l : float) :
  (1 <=? l)%float = true -> (l <? 9007199254740992)%float = true ->
  (SF2Q (Prim2SF (l - 1)) == SF2Q (Prim2SF l) - 1)%Q.
Proof.
  intros H1 H53. destruct (leb_one_level l H1) as [Hn Hv].
  destruct one_float as [F1 V1].
  rewrite FloatAxioms.ltb_spec in H53.
  change (Prim2SF 9007199254740992) with (S754_finite false 4503599627370496 (53 - 52)) in H53.
  destruct (pow2_float 53) as [Hb53 Ev53]; [lia|].
  assert (finite_nonneg (Prim2SF l)) as Fl.
  { destruct (nonneg_float_cases _ Hn) as [Fl|El]; [exact Fl|].
    rewrite El in H53. discriminate. }
  specialize (Hv Fl).
  apply SFltb_value in H53; [|exact Fl | cbn; auto]. rewrite Ev53 in H53.
  assert (SF2Q (Prim2SF 1) <= SF2Q (Prim2SF l))%Q as Hle by (rewrite V1; exact Hv).
  pose proof (SFsub_finite_nonneg _ _ Fl F1 Hle) as HR.
  rewrite <- FloatAxioms.sub_spec in HR.
  assert (SF2Q (Prim2SF l) - SF2Q (Prim2SF 1) == SF2Q (Prim2SF l) - 1)%Q as EV
    by (rewrite V1; reflexivity).
  apply (rounded_ext _ _ _ EV) in HR. clear EV.
  destruct (Prim2SF l) as [s|s| |s m e] eqn:El; cbn [finite_nonneg] in Fl;
    try contradiction; try (exfalso; cbn [SF2Q] in Hv; lra).
  destruct Fl as [-> Hb].
  assert (SF2Q (S754_finite false m e) == inject_Z (Zpos m) * bpow e)%Q as Ev
    by (cbn [SF2Q]; ring).
  rewrite Ev in Hv, H53.
  destruct (bounded_facts m e Hb) as (_ & He & _).
  destruct (bounded_value_bounds m e Hb) as (_ & _ & Hlo).
  assert (e <= 0) as He0.
  { destruct (Z.le_gt_cases e 0) as [|Hgt]; [assumption|exfalso].
    assert (bpow 53 <= bpow (52 + e))%Q by (apply bpow_le; lia).
    specialize (Hlo ltac:(lia)). lra. }
  assert (inject_Z (2 ^ (0 - e)) * bpow e == 1)%Q as E1
    by (rewrite scale_bpow by lia; apply bpow_0).
  apply (rounded_exact _ _ (Zpos m - 2 ^ (0 - e)) m e HR Hb).
  - rewrite Ev. lra.
  - rewrite Ev. unfold Z.sub at 1.
    rewrite inject_Z_plus, inject_Z_opp, Qmult_plus_distr_l.
    setoid_replace (- inject_Z (2 ^ (0 - e)) * bpow e)%Q
      with (- (inject_Z (2 ^ (0 - e)) * bpow e))%Q by ring.
    rewrite E1. ring.
Qed.

(** * Token bucket *)

Lemma tb_refill_keeps_parameters {F : Type} `{Float64 F}
  (capacity refillRate : F) (tb : TokenBucket.TokenBucket F) :
  tb_reachable capacity refillRate tb ->
  TokenBucket.capacity tb = capacity /\ TokenBucket.refillRate tb = refillRate.
Proof.
  induction 1 as [t0 | tb now _ [IHc IHr] _ | tb now _ [IHc IHr] _].
  - split; reflexivity.
  - unfold TokenBucket.AllowRequest. destruct (f_le _ _); cbn; auto.
  - cbn. auto.
Qed.

(** The time [refill] and [leak] multiply the rate with. *)
Lemma elapsed_finite (now last : Time) :
  last <= now -> finite_nonneg (Prim2SF (Seconds (F:=float) (Sub now last))).
Proof.
  intros Hnow. apply Seconds_finite. split; [apply Sub_nonneg, Hnow|].
  pose proof (Sub_is_int now last) as Hi. unfold GoInt.is_int in Hi.
  apply andb_prop in Hi as [_ Hi]. apply Z.leb_le in Hi. exact Hi.
Qed.

(** [Sub] is the difference of the clock readings, kept within the range of a
    [Duration]. *)
Lemma Sub_saturates (t u : Time) :
  Sub t u = Z.max minDuration (Z.min maxDuration (t - u)).
Proof.
  unfold Sub. cbv zeta.
  assert (minDuration < maxDuration) by reflexivity.
  destruct (Z.ltb_spec (t - u) minDuration); [lia|].
  destruct (Z.ltb_spec maxDuration (t - u)); lia.
Qed.

(** The elapsed time in seconds: the difference split into whole seconds and
    nanoseconds, both converted, the nanoseconds divided by [1e9]. *)
Lemma Seconds_Sub_exact (now last : Time) :
  Seconds (F:=float) (Sub now last)
  = (IEEE.of_int (Z.quot (Z.max minDuration (Z.min maxDuration (now - last))) 1000000000)
     + IEEE.of_int (Z.rem (Z.max minDuration (Z.min maxDuration (now - last))) 1000000000)
       / 1000000000)%float.
Proof. rewrite Sub_saturates. reflexivity. Qed.

(** The level after a refill is not negative and not above the capacity. *)
Lemma tb_refill_level (tb : TokenBucket.TokenBucket float) (now : Time) :
  (0 <=? TokenBucket.capacity tb)%float = true ->
  (0 <=? TokenBucket.refillRate tb)%float = true ->
  (TokenBucket.refillRate tb <? infinity)%float = true ->
  TokenBucket.lastRefillTime tb <= now ->
  (0 <=? TokenBucket.tokens tb)%float = true ->
  (0 <=? TokenBucket.tokens (TokenBucket.refill tb now))%float = true /\
  (TokenBucket.tokens (TokenBucket.refill tb now) <=? TokenBucket.capacity tb)%float = true.
Proof.
  intros Hc Hr Hfin Hnow Ht.
  cbn [TokenBucket.refill TokenBucket.tokens f_min f_add f_mul binary64].
  apply leb_zero_nonneg_float in Hc, Ht.
  pose proof (ltb_infinity_finite _ Hr Hfin) as Fr.
  pose proof (elapsed_finite now (TokenBucket.lastRefillTime tb) Hnow) as Fe.
  set (e := Seconds (Sub now (TokenBucket.lastRefillTime tb))) in *.
  assert (nonneg_float (Prim2SF (e * TokenBucket.refillRate tb))) as Hp.
  { rewrite FloatAxioms.mul_spec.
    exact (rounded_nonneg _ _ (SFmul_finite_nonneg _ _ Fe Fr)). }
  assert (nonneg_float (Prim2SF (TokenBucket.tokens tb + e * TokenBucket.refillRate tb)))
    as Hs by (rewrite FloatAxioms.add_spec; apply SFadd_nonneg_float; assumption).
  destruct (fmin_nonneg _ _ Hc Hs) as [Hn Hle].
  split; [apply leb_zero_nonneg_float, Hn | exact Hle].
Qed.

Lemma SFleb_nonneg_r (x y : spec_float) :
  nonneg_float x -> valid_binary y = true -> SFleb x y = true ->
  nonneg_float y.
Proof.
  intros Hx Hv Hle.
  destruct y as [sy|sy| |sy my ey]; cbn [nonneg_float]; [exact I | | |].
  - destruct sy; [|reflexivity]. exfalso.
    destruct x as [sx|sx| |sx mx ex]; cbn in Hx; try contradiction;
      [ | subst sx | destruct Hx as [-> _]]; cbn in Hle; discriminate.
  - destruct x; cbn in Hle; discriminate.
  - destruct sy; [exfalso | split; [reflexivity | exact Hv]].
    destruct x as [sx|sx| |sx mx ex]; cbn in Hx; try contradiction;
      [ | subst sx | destruct Hx as [-> _]]; cbn in Hle; discriminate.
Qed.

Lemma leb_trans_nonneg (x y z : float) :
  (0 <=? x)%float = true -> (x <=? y)%float = true -> (y <=? z)%float = true ->
  (x <=? z)%float = true.
Proof.
  intros Hx Hxy Hyz. apply leb_zero_nonneg_float in Hx.
  rewrite FloatAxioms.leb_spec in *.
  pose proof (SFleb_nonneg_r _ _ Hx (Prim2SF_valid y) Hxy) as Hy.
  pose proof (SFleb_nonneg_r _ _ Hy (Prim2SF_valid z) Hyz) as Hz.
  exact (SFleb_trans_nonneg _ _ _ Hx Hy Hz Hxy Hyz).
Qed.

(** C1, as the code has it.  [AllowRequest] on binary64 first refills: the
    level becomes [min(capacity, tokens + elapsed * refillRate)], where
    [elapsed] is the difference [now - lastRefillTime], kept within the range
    of a [Duration], in seconds ([float64] of the whole seconds plus
    [float64] of the remaining nanoseconds over [1e9]), and [lastRefillTime]
    becomes [now].  It then returns [true] and stores the float64 difference
    [level - 1] exactly when [1 <= level]; otherwise it returns [false] and
    the refilled level stays.  The stored difference is never negative and
    never above the level, and it is exactly one less than the level whenever
    the level is below [2^53]. *)
Theorem tb_AllowRequest_refills_then_consumes
  (tb : TokenBucket.TokenBucket float) (now : Time) :
  let d := Z.max minDuration (Z.min maxDuration (now - TokenBucket.lastRefillTime tb)) in
  let elapsed :=
    (IEEE.of_int (Z.quot d 1000000000)
     + IEEE.of_int (Z.rem d 1000000000) / 1000000000)%float in
  let level :=
    IEEE.fmin (TokenBucket.capacity tb)
      (TokenBucket.tokens tb + elapsed * TokenBucket.refillRate tb)%float in
  TokenBucket.AllowRequest tb now
  = (if (1 <=? level)%float
     then (true, {| TokenBucket.capacity := TokenBucket.capacity tb;
                    TokenBucket.tokens := (level - 1)%float;
                    TokenBucket.refillRate := TokenBucket.refillRate tb;
                    TokenBucket.lastRefillTime := now |})
     else (false, {| TokenBucket.capacity := TokenBucket.capacity tb;
                     TokenBucket.tokens := level;
                     TokenBucket.refillRate := TokenBucket.refillRate tb;
                     TokenBucket.lastRefillTime := now |})) /\
  ((1 <=? level)%float = true ->
   (0 <=? level - 1)%float = true /\
   (level - 1 <=? level)%float = true /\
   ((level <? 9007199254740992)%float = true ->
    (SF2Q (Prim2SF (level - 1)) == SF2Q (Prim2SF level) - 1)%Q)).
Proof.
  intros d elapsed level. split.
  - unfold TokenBucket.AllowRequest, TokenBucket.refill. cbv zeta.
    cbn [TokenBucket.tokens TokenBucket.capacity TokenBucket.refillRate
         TokenBucket.lastRefillTime f_le f_sub f_min f_add f_mul f_of_int binary64].
    rewrite Seconds_Sub_exact.
    change (IEEE.of_int 1) with 1%float. reflexivity.
  - intros H1. destruct (sub_one_level _ H1) as [Hn Hle].
    split; [apply leb_zero_nonneg_float, Hn|]. split; [exact Hle|].
    intros H53. apply sub_one_exact; assumption.
Qed.

(** Reachable levels, for a capacity that is not negative and a refill rate
    that is not negative and not infinite. *)
Lemma tb_tokens_invariant (capacity refillRate : float) (tb : TokenBucket.TokenBucket float) :
  (0 <=? capacity)%float = true ->
  (0 <=? refillRate)%float = true ->
  (refillRate <? infinity)%float = true ->
  tb_reachable capacity refillRate tb ->
  (0 <=? TokenBucket.tokens tb)%float = true /\
  (TokenBucket.tokens tb <=? capacity)%float = true.
Proof.
  intros Hc Hr Hfin Hreach.
  induction Hreach as [t0 | tb now Hreach [IH0 IHc] Hnow | tb now Hreach [IH0 IHc] Hnow].
  - cbn. split; [exact Hc|].
    rewrite FloatAxioms.leb_spec. apply SFleb_refl_nonneg, leb_zero_nonneg_float, Hc.
  - destruct (tb_refill_keeps_parameters _ _ _ Hreach) as [Ec Er].
    destruct (tb_refill_level tb now) as [R0 Rc]; rewrite ?Ec, ?Er; auto.
    rewrite Ec in Rc.
    unfold TokenBucket.AllowRequest. cbn [f_le f_sub f_of_int binary64].
    change (IEEE.of_int 1) with 1%float.
    destruct (1 <=? TokenBucket.tokens (TokenBucket.refill tb now))%float eqn:H1;
      cbn [snd TokenBucket.tokens]; [|auto].
    destruct (sub_one_level _ H1) as [Hn Hle].
    apply leb_zero_nonneg_float in Hn. split; [exact Hn|].
    exact (leb_trans_nonneg _ _ _ Hn Hle Rc).
  - destruct (tb_refill_keeps_parameters _ _ _ Hreach) as [Ec Er].
    destruct (tb_refill_level tb now) as [R0 Rc]; rewrite ?Ec, ?Er; auto.
    rewrite Ec in Rc. cbn [TokenBucket.GetTokens snd]. auto.
Qed.

(** C8, as the code has it.  On binary64, for a capacity that is not negative and a refill rate
    that is not negative and not infinite: a new bucket is full, and every
    state reachable by [AllowRequest] and [GetTokens] under the monotonic
    clock has [0 <= tokens <= capacity], whatever the elapsed times. *)
Theorem tb_tokens_within_capacity (capacity refillRate : float) :
  (0 <=? capacity)%float = true ->
  (0 <=? refillRate)%float = true ->
  (refillRate <? infinity)%float = true ->
  (forall t0,
     TokenBucket.tokens (TokenBucket.NewTokenBucket capacity refillRate t0) = capacity) /\
  (forall tb, tb_reachable capacity refillRate tb ->
     (0 <=? TokenBucket.tokens tb)%float = true /\
     (TokenBucket.tokens tb <=? capacity)%float = true).
Proof.
  intros Hc Hr Hfin. split; [reflexivity|].
  intros tb Hreach. exact (tb_tokens_invariant capacity refillRate tb Hc Hr Hfin Hreach).
Qed.

(** With an infinite refill rate the level is NaN after the first call: zero
    elapsed seconds times infinity is NaN. *)
Lemma tb_infinite_rate_level_nan :
  let tb := snd (TokenBucket.GetTokens
                   (TokenBucket.NewTokenBucket (F:=float) 5%float infinity 0) 0) in
  (0 <=? 5)%float = true /\ (0 <=? infinity)%float = true /\
  is_nan (TokenBucket.tokens tb) = true /\
  (0 <=? TokenBucket.tokens tb)%float = false /\
  (TokenBucket.tokens tb <=? 5)%float = false.
Proof. vm_compute. repeat split. Qed.

(** A level of [2^54] is admitted and stays [2^54]: the difference
    [2^54 - 1] rounds back to [2^54]. *)
Lemma tb_decrement_lost_to_rounding :
  let tb := TokenBucket.NewTokenBucket (F:=float) 18014398509481984%float 0%float 0 in
  fst (TokenBucket.AllowRequest tb 0) = true /\
  TokenBucket.tokens (TokenBucket.refill tb 0) = 18014398509481984%float /\
  TokenBucket.tokens (snd (TokenBucket.AllowRequest tb 0)) = 18014398509481984%float.
Proof. vm_compute. repeat split. Qed.

(** * Leaky bucket *)

Lemma lb_leak_keeps_parameters {F : Type} `{Float64 F}
  (capacity leakRate : F) (lb : LeakyBucket.LeakyBucket F) :
  lb_reachable capacity leakRate lb ->
  LeakyBucket.capacity lb = capacity /\ LeakyBucket.leakRate lb = leakRate.
Proof.
  induction 1 as [t0 | lb now _ [IHc IHr] _ | lb now _ [IHc IHr] _ | lb now _ [IHc IHr] _].
  - split; reflexivity.
  - unfold LeakyBucket.AllowRequest. destruct (f_lt _ _); cbn; auto.
  - cbn. auto.
  - cbn. auto.
Qed.

Lemma lb_burst_reachable {F : Type} `{Float64 F} (capacity leakRate : F) (now : Time) (n : nat) :
  forall lb, lb_reachable capacity leakRate lb -> LeakyBucket.lastTime lb <= now ->
  lb_reachable capacity leakRate (lb_burst lb now n).
Proof.
  induction n as [|n IH]; intros lb Hreach Hnow; [exact Hreach|].
  cbn [lb_burst]. apply IH.
  - apply lb_reach_AllowRequest; assumption.
  - unfold LeakyBucket.AllowRequest. destruct (f_lt _ _); cbn; lia.
Qed.

(** The largest finite float. *)
Lemma max_float_value (x : spec_float) :
  finite_nonneg x ->
  (SF2Q x <= SF2Q (S754_finite false 9007199254740991 971))%Q.
Proof.
  destruct x as [s|s| |s m e]; cbn [finite_nonneg]; try contradiction.
  - intros _. cbn [SF2Q]. rewrite Qmult_1_l.
    apply Qlt_le_weak, Qmult_lt_0_compat; [reflexivity | apply bpow_pos].
  - intros [-> Hb]. cbn [SF2Q]. rewrite !Qmult_1_l.
    destruct (bounded_facts m e Hb) as (Hd & He & _).
    destruct (Zdigits2_bounds (Zpos m) eq_refl) as [_ Hhi].
    assert (Zpos m <= 9007199254740991) as Hm.
    { assert (2 ^ Zdigits2 (Zpos m) <= 2 ^ 53) by (apply Z.pow_le_mono_r; lia).
      change (2 ^ 53) with 9007199254740992 in *. lia. }
    pose proof (bpow_pos e) as Be.
    apply Qle_trans with (inject_Z 9007199254740991 * bpow e)%Q.
    + apply Qmult_le_compat_r; [rewrite <- Zle_Qle; exact Hm | lra].
    + apply Qmult_le_l; [reflexivity | apply bpow_le; lia].
Qed.

(** Adding one unit to a finite level: the sum is finite, at least one and
    not below the level. *)
Lemma add_one_level (w : float) :
  finite_nonneg (Prim2SF w) ->
  finite_nonneg (Prim2SF (w + 1)) /\
  rounded (SF2Q (Prim2SF w) + 1) (Prim2SF (w + 1)) /\
  (1 <=? w + 1)%float = true /\ (w <=? w + 1)%float = true.
Proof.
  intros Fw. destruct one_float as [F1 V1].
  pose proof (SFadd_finite_nonneg _ _ Fw F1) as HR.
  rewrite <- FloatAxioms.add_spec in HR.
  assert (SF2Q (Prim2SF w) + SF2Q (Prim2SF 1) == SF2Q (Prim2SF w) + 1)%Q as EV
    by (rewrite V1; reflexivity).
  apply (rounded_ext _ _ _ EV) in HR. clear EV.
  pose proof (finite_nonneg_value _ Fw) as Vw.
  assert (finite_nonneg (Prim2SF (w + 1))) as Fs.
  { assert (finite_nonneg (Prim2SF 0x1.fffffffffffffp1023)) as Fm
      by (change (Prim2SF 0x1.fffffffffffffp1023)
            with (S754_finite false 9007199254740991 971); cbn; auto).
    pose proof (SFadd_finite_nonneg _ _ Fm F1) as HM.
    rewrite <- FloatAxioms.add_spec in HM.
    change (0x1.fffffffffffffp1023 + 1)%float with 0x1.fffffffffffffp1023%float in HM.
    pose proof (max_float_value _ Fw) as Hmax.
    change (S754_finite false 9007199254740991 971)
      with (Prim2SF 0x1.fffffffffffffp1023) in Hmax.
    assert (SFleb (Prim2SF (w + 1)) (Prim2SF 0x1.fffffffffffffp1023) = true) as Hle
      by (apply (rounded_mono _ _ _ _ HR HM); lra).
    pose proof (rounded_nonneg _ _ HR) as Hn.
    destruct (nonneg_float_cases _ Hn) as [Ff|Einf]; [exact Ff|].
    rewrite Einf in Hle. discriminate. }
  split; [exact Fs|]. split; [exact HR|].
  rewrite !FloatAxioms.leb_spec. split.
  - apply (rounded_ge_value _ _ _ HR F1). lra.
  - apply (rounded_ge_value _ _ _ HR Fw). lra.
Qed.

(** The level after a leak is finite, not negative and not above the level
    before. *)
Lemma lb_leak_level (lb : LeakyBucket.LeakyBucket float) (now : Time) :
  (0 <=? LeakyBucket.leakRate lb)%float = true ->
  (LeakyBucket.leakRate lb <? infinity)%float = true ->
  LeakyBucket.lastTime lb <= now ->
  finite_nonneg (Prim2SF (LeakyBucket.water lb)) ->
  finite_nonneg (Prim2SF (LeakyBucket.water (LeakyBucket.leak lb now))) /\
  (LeakyBucket.water (LeakyBucket.leak lb now) <=? LeakyBucket.water lb)%float = true.
Proof.
  intros Hr Hfin Hnow Fw.
  cbn [LeakyBucket.leak LeakyBucket.water f_max f_sub f_mul f_of_int binary64].
  change (IEEE.of_int 0) with 0%float.
  pose proof (ltb_infinity_finite _ Hr Hfin) as Fr.
  pose proof (elapsed_finite now (LeakyBucket.lastTime lb) Hnow) as Fe.
  apply leak_level; [exact Fw|].
  rewrite FloatAxioms.mul_spec.
  exact (rounded_nonneg _ _ (SFmul_finite_nonneg _ _ Fe Fr)).
Qed.

Lemma lb_water_invariant (capacity leakRate : float) (lb : LeakyBucket.LeakyBucket float) :
  (0 <=? capacity)%float = true ->
  (0 <=? leakRate)%float = true ->
  (leakRate <? infinity)%float = true ->
  lb_reachable capacity leakRate lb ->
  finite_nonneg (Prim2SF (LeakyBucket.water lb)) /\
  (LeakyBucket.water lb <=? capacity + 1)%float = true.
Proof.
  intros Hc Hr Hfin Hreach.
  destruct one_float as [F1 V1].
  assert (nonneg_float (Prim2SF (capacity + 1))) as HB.
  { rewrite FloatAxioms.add_spec. apply SFadd_nonneg_float.
    - apply leb_zero_nonneg_float, Hc.
    - apply finite_nonneg_nonneg, F1. }
  assert (forall lb' now,
            lb_reachable capacity leakRate lb' ->
            LeakyBucket.lastTime lb' <= now ->
            finite_nonneg (Prim2SF (LeakyBucket.water lb')) /\
            (LeakyBucket.water lb' <=? capacity + 1)%float = true ->
            finite_nonneg (Prim2SF (LeakyBucket.water (LeakyBucket.leak lb' now))) /\
            (LeakyBucket.water (LeakyBucket.leak lb' now) <=? capacity + 1)%float = true)
    as Hleak.
  { intros lb' now Hreach' Hnow [Fw Hle].
    destruct (lb_leak_keeps_parameters _ _ _ Hreach') as [Ec Er].
    destruct (lb_leak_level lb' now) as [Fl Hl]; rewrite ?Er; auto.
    split; [exact Fl|].
    apply (leb_trans_nonneg _ (LeakyBucket.water lb')); [|exact Hl | exact Hle].
    apply leb_zero_nonneg_float, finite_nonneg_nonneg, Fl. }
  induction Hreach as [t0 | lb now Hreach IH Hnow
                          | lb now Hreach IH Hnow
                          | lb now Hreach IH Hnow].
  - cbn [LeakyBucket.NewLeakyBucket LeakyBucket.water f_of_int binary64].
    change (IEEE.of_int 0) with 0%float. split; [exact I|].
    apply leb_zero_nonneg_float, HB.
  - destruct (lb_leak_keeps_parameters _ _ _ Hreach) as [Ec Er].
    destruct (Hleak lb now Hreach Hnow IH) as [Fl Hl].
    unfold LeakyBucket.AllowRequest. cbn [f_lt f_add f_of_int binary64].
    change (IEEE.of_int 1) with 1%float.
    change (LeakyBucket.capacity (LeakyBucket.leak lb now))
      with (LeakyBucket.capacity lb). rewrite Ec.
    destruct (LeakyBucket.water (LeakyBucket.leak lb now) <? capacity)%float eqn:Hlt;
      cbn [snd LeakyBucket.water]; [|split; assumption].
    destruct (add_one_level _ Fl) as (Fs & HR & _ & _).
    split; [exact Fs|].
    rewrite FloatAxioms.leb_spec, (FloatAxioms.add_spec capacity).
    apply leb_zero_nonneg_float in Hc.
    destruct (nonneg_float_cases _ Hc) as [Fc|Ec'].
    + rewrite FloatAxioms.ltb_spec in Hlt. apply SFltb_value in Hlt; [|exact Fl|exact Fc].
      apply (rounded_mono _ _ _ _ HR (SFadd_finite_nonneg _ _ Fc F1)). lra.
    + rewrite Ec', Prim2SF_one.
      destruct (Prim2SF (LeakyBucket.water (LeakyBucket.leak lb now) + 1))
        as [s|s| |s m e]; cbn in Fs |- *; try contradiction; reflexivity.
  - cbn [LeakyBucket.GetWaterLevel snd]. exact (Hleak lb now Hreach Hnow IH).
  - cbn [LeakyBucket.GetCapacityUsed snd]. exact (Hleak lb now Hreach Hnow IH).
Qed.

(** Floats with the same value compare equal. *)
Lemma SFeqb_value (x y : spec_float) :
  finite_nonneg x -> finite_nonneg y -> (SF2Q x == SF2Q y)%Q -> SFeqb x y = true.
Proof.
  intros Hx Hy E.
  destruct x as [sx|sx| |sx mx ex], y as [sy|sy| |sy my ey];
    cbn [finite_nonneg] in Hx, Hy; try contradiction;
    repeat match goal with H : _ = false /\ _ |- _ => destruct H end; subst;
    cbn [SF2Q] in E.
  - reflexivity.
  - exfalso. destruct (bounded_value_bounds my ey H0) as (P & _). lra.
  - exfalso. destruct (bounded_value_bounds mx ex H0) as (P & _). lra.
  - unfold SFeqb. rewrite (SFcompare_finite_value _ _ _ _ H2 H0).
    rewrite !Qmult_1_l in E. apply Qeq_alt in E. rewrite E. reflexivity.
Qed.

(** A whole number below [2^53] is a float. *)
Lemma of_int_exact (z : Z) :
  0 <= z < 2 ^ 53 ->
  finite_nonneg (Prim2SF (IEEE.of_int z)) /\
  (SF2Q (Prim2SF (IEEE.of_int z)) == inject_Z z)%Q.
Proof.
  intros Hz.
  assert (0 <= z <= GoInt.maxInt64) as Hz'
    by (unfold GoInt.maxInt64; change (2 ^ 53) with 9007199254740992 in Hz;
        change (2 ^ 63 - 1) with 9223372036854775807; lia).
  pose proof (of_int_rounded z Hz') as HR.
  destruct (of_int_finite z Hz') as [Ff _]. split; [exact Ff|].
  apply (rounded_exact_unit _ _ z 0 HR); [lia | lia | rewrite bpow_0; ring|].
  rewrite (bpow_Z (0 + 53)) by lia. rewrite <- Zlt_Qlt. exact (proj2 Hz).
Qed.

(** A request at the clock reading the bucket stored last leaks nothing. *)
Lemma lb_leak_nothing (lb : LeakyBucket.LeakyBucket float) :
  (0 <=? LeakyBucket.leakRate lb)%float = true ->
  (LeakyBucket.leakRate lb <? infinity)%float = true ->
  finite_nonneg (Prim2SF (LeakyBucket.water lb)) ->
  let level := LeakyBucket.water (LeakyBucket.leak lb (LeakyBucket.lastTime lb)) in
  finite_nonneg (Prim2SF level) /\
  (SF2Q (Prim2SF level) == SF2Q (Prim2SF (LeakyBucket.water lb)))%Q.
Proof.
  intros Hr Hfin Fw. cbv zeta.
  cbn [LeakyBucket.leak LeakyBucket.water f_max f_sub f_mul f_of_int binary64].
  rewrite Sub_diag. change (Seconds (F:=float) 0) with 0%float.
  change (IEEE.of_int 0) with 0%float.
  pose proof (ltb_infinity_finite _ Hr Hfin) as Fr.
  assert (exists s, Prim2SF (0 * LeakyBucket.leakRate lb) = S754_zero s) as [s Ep].
  { rewrite FloatAxioms.mul_spec. change (Prim2SF 0) with (S754_zero false).
    destruct (Prim2SF (LeakyBucket.leakRate lb)) as [sr|sr| |sr mr er];
      cbn in Fr |- *; try contradiction; eauto. }
  set (p := (0 * LeakyBucket.leakRate lb)%float) in *.
  assert (finite_nonneg (Prim2SF (LeakyBucket.water lb - p)) /\
          (SF2Q (Prim2SF (LeakyBucket.water lb - p))
           == SF2Q (Prim2SF (LeakyBucket.water lb)))%Q) as [Fx Ex].
  { rewrite FloatAxioms.sub_spec, Ep.
    destruct (Prim2SF (LeakyBucket.water lb)) as [sw|sw| |sw mw ew];
      cbn in Fw |- *; try contradiction.
    - destruct sw, s; split; try exact I; reflexivity.
    - split; [exact Fw | reflexivity]. }
  destruct (fmax_zero_of_nonneg _ (finite_nonneg_nonneg _ Fx)) as [-> | [-> [s' Ez]]].
  - split; [exact Fx | exact Ex].
  - split; [exact I|]. rewrite <- Ex, Ez. reflexivity.
Qed.

(** For a whole-number capacity [n] below [2^53], the first [k <= n] requests
    of a burst at the construction time are admitted and bring the level to
    [k]. *)
Lemma lb_burst_level (n : Z) (leakRate : float) (t0 : Time) (k : nat) :
  0 <= n < 2 ^ 53 ->
  (0 <=? leakRate)%float = true ->
  (leakRate <? infinity)%float = true ->
  Z.of_nat k <= n ->
  let lb := lb_burst (LeakyBucket.NewLeakyBucket (IEEE.of_int n) leakRate t0) t0 k in
  LeakyBucket.capacity lb = IEEE.of_int n /\
  LeakyBucket.leakRate lb = leakRate /\
  LeakyBucket.lastTime lb = t0 /\
  finite_nonneg (Prim2SF (LeakyBucket.water lb)) /\
  (SF2Q (Prim2SF (LeakyBucket.water lb)) == inject_Z (Z.of_nat k))%Q.
Proof.
  intros Hn Hr Hfin. cbv zeta.
  destruct (of_int_exact n Hn) as [Fc Vc].
  assert (forall (j : nat) (lb : LeakyBucket.LeakyBucket float) (i : Z),
            LeakyBucket.capacity lb = IEEE.of_int n ->
            LeakyBucket.leakRate lb = leakRate ->
            LeakyBucket.lastTime lb = t0 ->
            finite_nonneg (Prim2SF (LeakyBucket.water lb)) ->
            (SF2Q (Prim2SF (LeakyBucket.water lb)) == inject_Z i)%Q ->
            0 <= i -> i + Z.of_nat j <= n ->
            let lb' := lb_burst lb t0 j in
            LeakyBucket.capacity lb' = IEEE.of_int n /\
            LeakyBucket.leakRate lb' = leakRate /\
            LeakyBucket.lastTime lb' = t0 /\
            finite_nonneg (Prim2SF (LeakyBucket.water lb')) /\
            (SF2Q (Prim2SF (LeakyBucket.water lb')) == inject_Z (i + Z.of_nat j))%Q) as Hgen.
  { induction j as [|j IH]; intros lb i Ec Er Et Fw Vw Hi Hij; cbv zeta.
    - cbn [lb_burst]. rewrite Z.add_0_r. auto.
    - cbn [lb_burst].
      replace (i + Z.of_nat (S j)) with ((i + 1) + Z.of_nat j) by lia.
      destruct (lb_leak_nothing lb) as [Fl Vl]; rewrite ?Er; auto.
      rewrite Et in Fl, Vl.
      assert ((LeakyBucket.water (LeakyBucket.leak lb t0) <? IEEE.of_int n)%float = true)
        as Hlt.
      { rewrite FloatAxioms.ltb_spec. apply SFltb_value; [exact Fl | exact Fc|].
        rewrite Vl, Vw, Vc, <- Zlt_Qlt. lia. }
      destruct (add_one_level _ Fl) as (Fs & HR & _ & _).
      assert (snd (LeakyBucket.AllowRequest lb t0)
              = {| LeakyBucket.capacity := IEEE.of_int n;
                   LeakyBucket.water := (LeakyBucket.water (LeakyBucket.leak lb t0) + 1)%float;
                   LeakyBucket.leakRate := leakRate;
                   LeakyBucket.lastTime := t0 |}) as Estep.
      { unfold LeakyBucket.AllowRequest. cbn [f_lt f_add f_of_int binary64].
        change (LeakyBucket.capacity (LeakyBucket.leak lb t0))
          with (LeakyBucket.capacity lb).
        change (LeakyBucket.leakRate (LeakyBucket.leak lb t0))
          with (LeakyBucket.leakRate lb).
        change (LeakyBucket.lastTime (LeakyBucket.leak lb t0)) with t0.
        rewrite Ec, Er, Hlt. reflexivity. }
      rewrite Estep. apply IH; cbn [LeakyBucket.capacity LeakyBucket.leakRate
                                    LeakyBucket.lastTime LeakyBucket.water];
        try reflexivity; try lia; [exact Fs|].
      destruct (rounded_exact_unit _ _ (i + 1) 0 HR) as [E _]; [lia | lia| | |].
      + rewrite Vl, Vw, inject_Z_plus, bpow_0. ring.
      + rewrite Vl, Vw, (bpow_Z (0 + 53)) by lia.
        change 1%Q with (inject_Z 1). rewrite <- inject_Z_plus, <- Zlt_Qlt. lia.
      + rewrite E, Vl, Vw, inject_Z_plus. reflexivity. }
  intros Hk.
  apply (Hgen k (LeakyBucket.NewLeakyBucket (IEEE.of_int n) leakRate t0) 0);
    try reflexivity; try lia; exact I.
Qed.

(** C2, as the code has it.  A new bucket is empty.  [AllowRequest] on
    binary64 first leaks: the level becomes
    [max(0, water - elapsed * leakRate)], where [elapsed] is the difference
    [now - lastTime], kept within the range of a [Duration], in seconds, and
    [lastTime] becomes [now].  It then returns [true] and stores the float64
    sum [level + 1] exactly when the leaked level is strictly below the
    capacity; otherwise it returns [false] and the leaked level stays.  An
    admitted level is not negative; the stored sum is at least 1 and not
    below the level, and it is exactly [level + 1] whenever the level is a
    whole number below [2^53 - 1]. *)
Theorem lb_AllowRequest_leaks_then_fills
  (lb : LeakyBucket.LeakyBucket float) (now : Time) :
  let d := Z.max minDuration (Z.min maxDuration (now - LeakyBucket.lastTime lb)) in
  let elapsed :=
    (IEEE.of_int (Z.quot d 1000000000)
     + IEEE.of_int (Z.rem d 1000000000) / 1000000000)%float in
  let level :=
    IEEE.fmax 0 (LeakyBucket.water lb - elapsed * LeakyBucket.leakRate lb)%float in
  (forall capacity leakRate t0,
     LeakyBucket.water (LeakyBucket.NewLeakyBucket capacity leakRate t0) = 0%float) /\
  LeakyBucket.AllowRequest lb now
  = (if (level <? LeakyBucket.capacity lb)%float
     then (true, {| LeakyBucket.capacity := LeakyBucket.capacity lb;
                    LeakyBucket.water := (level + 1)%float;
                    LeakyBucket.leakRate := LeakyBucket.leakRate lb;
                    LeakyBucket.lastTime := now |})
     else (false, {| LeakyBucket.capacity := LeakyBucket.capacity lb;
                     LeakyBucket.water := level;
                     LeakyBucket.leakRate := LeakyBucket.leakRate lb;
                     LeakyBucket.lastTime := now |})) /\
  ((level <? LeakyBucket.capacity lb)%float = true ->
   (0 <=? level)%float = true /\
   (1 <=? level + 1)%float = true /\
   (level <=? level + 1)%float = true /\
   (forall n : Z, 0 <= n < 2 ^ 53 - 1 ->
      (SF2Q (Prim2SF level) == inject_Z n)%Q ->
      (SF2Q (Prim2SF (level + 1)) == inject_Z (n + 1))%Q)).
Proof.
  intros d elapsed level. split; [reflexivity|]. split.
  - unfold LeakyBucket.AllowRequest, LeakyBucket.leak. cbv zeta.
    cbn [LeakyBucket.water LeakyBucket.capacity LeakyBucket.leakRate
         LeakyBucket.lastTime f_lt f_add f_max f_sub f_mul f_of_int binary64].
    rewrite Seconds_Sub_exact.
    change (IEEE.of_int 1) with 1%float. change (IEEE.of_int 0) with 0%float.
    reflexivity.
  - intros Hlt.
    assert (finite_nonneg (Prim2SF level)) as Fl.
    { rewrite FloatAxioms.ltb_spec in Hlt.
      destruct (fmax_zero_class
                  (LeakyBucket.water lb - elapsed * LeakyBucket.leakRate lb)) as [En|Hn];
        fold level in En || fold level in Hn.
      - rewrite En in Hlt. discriminate.
      - destruct (nonneg_float_cases _ Hn) as [Ff|Einf]; [exact Ff|].
        rewrite Einf in Hlt.
        destruct (Prim2SF (LeakyBucket.capacity lb)) as [s|[]| |[] m e]; discriminate. }
    destruct (add_one_level _ Fl) as (Fs & HR & H1 & Hle).
    split; [apply leb_zero_nonneg_float, finite_nonneg_nonneg, Fl|].
    split; [exact H1|]. split; [exact Hle|].
    intros n Hn Vn.
    assert (SF2Q (Prim2SF level) + 1 == inject_Z (n + 1) * bpow 0)%Q as EV
      by (rewrite Vn, inject_Z_plus, bpow_0; ring).
    destruct (rounded_exact_unit _ _ (n + 1) 0 HR) as [E _]; [lia | lia | exact EV | |].
    + rewrite EV, bpow_0, Qmult_1_r, (bpow_Z (0 + 53)) by lia.
      rewrite <- Zlt_Qlt. change (0 + 53) with 53. lia.
    + rewrite E, EV, bpow_0. ring.
Qed.

(** C3, as the code has it.  On binary64, for a capacity that is not negative and a leak rate
    that is not negative and not infinite: every state reachable by
    [AllowRequest], [GetWaterLevel] and [GetCapacityUsed] under the monotonic
    clock has [0 <= water <= capacity + 1], the bound being the float64 sum;
    and for a whole-number capacity [n] below [2^53], [n] requests at the
    construction time reach [water = capacity]. *)
Theorem lb_water_between_zero_and_capacity_plus_one (capacity leakRate : float) :
  (0 <=? capacity)%float = true ->
  (0 <=? leakRate)%float = true ->
  (leakRate <? infinity)%float = true ->
  (forall lb, lb_reachable capacity leakRate lb ->
     (0 <=? LeakyBucket.water lb)%float = true /\
     (LeakyBucket.water lb <=? capacity + 1)%float = true) /\
  (forall (n : nat) (t0 : Time),
     Z.of_nat n < 2 ^ 53 -> capacity = IEEE.of_int (Z.of_nat n) ->
     let lb := lb_burst (LeakyBucket.NewLeakyBucket capacity leakRate t0) t0 n in
     lb_reachable capacity leakRate lb /\
     (LeakyBucket.water lb =? capacity)%float = true).
Proof.
  intros Hc Hr Hfin. split.
  - intros lb Hreach.
    destruct (lb_water_invariant capacity leakRate lb Hc Hr Hfin Hreach) as [Fw Hle].
    split; [apply leb_zero_nonneg_float, finite_nonneg_nonneg, Fw | exact Hle].
  - intros n t0 Hn Ec. cbv zeta. split.
    + apply lb_burst_reachable; [apply lb_reach_new | cbn; lia].
    + subst capacity.
      destruct (lb_burst_level (Z.of_nat n) leakRate t0 n) as (_ & _ & _ & Fw & Vw);
        try assumption; try lia.
      destruct (of_int_exact (Z.of_nat n)) as [Fc Vc]; [lia|].
      rewrite FloatAxioms.eqb_spec. apply SFeqb_value; [exact Fw | exact Fc|].
      rewrite Vw, Vc. reflexivity.
Qed.

(** The leaked level [1 - 2^-53] plus one is [2]: the sum is a tie and rounds
    to even, so the request adds more than one unit, and the level reaches
    [capacity + 1]. *)
Lemma lb_increment_rounds_up :
  let lb := snd (lb_run (LeakyBucket.NewLeakyBucket (F:=float) 1%float 1%float 0)
                        [0; 100000000]) in
  LeakyBucket.water (LeakyBucket.leak lb 1000000000) = 0x1.fffffffffffffp-1%float /\
  LeakyBucket.AllowRequest lb 1000000000
  = (true, {| LeakyBucket.capacity := 1%float; LeakyBucket.water := 2%float;
              LeakyBucket.leakRate := 1%float; LeakyBucket.lastTime := 1000000000 |}) /\
  (SF2Q (Prim2SF 2) - SF2Q (Prim2SF 0x1.fffffffffffffp-1)
   == 1 + (1 # 9007199254740992))%Q.
Proof. vm_compute. repeat split. Qed.

(** Capacity 1, leaking one unit per second, requests at 0, 100ms and 1s: the
    level is [2 = capacity + 1], not strictly below it.  And with an infinite
    leak rate the level is NaN after the first call. *)
Lemma lb_water_reaches_capacity_plus_one :
  let lb := snd (lb_run (LeakyBucket.NewLeakyBucket (F:=float) 1%float 1%float 0)
                        [0; 100000000; 1000000000]) in
  let lb' := snd (LeakyBucket.GetWaterLevel
                    (LeakyBucket.NewLeakyBucket (F:=float) 1%float infinity 0) 0) in
  LeakyBucket.water lb = 2%float /\
  (LeakyBucket.water lb <? LeakyBucket.capacity lb + 1)%float = false /\
  (0 <=? infinity)%float = true /\
  is_nan (LeakyBucket.water lb') = true /\
  (0 <=? LeakyBucket.water lb')%float = false.
Proof. vm_compute. repeat split. Qed.

(** * Fixed window counter *)

(** [count++] does not wrap when the counter is below an [int] limit. *)
Lemma incr_below_limit (count limit : Z) :
  GoInt.is_int count = true -> GoInt.is_int limit = true -> count < limit ->
  GoInt.incr count = count + 1.
Proof.
  unfold GoInt.is_int, GoInt.incr, GoInt.wrap, GoInt.minInt64, GoInt.maxInt64.
  intros Hc Hl Hlt.
  apply andb_prop in Hc as [Hc1 Hc2]. apply andb_prop in Hl as [Hl1 Hl2].
  apply Z.leb_le in Hc1, Hc2, Hl1, Hl2.
  rewrite Z.mod_small; lia.
Qed.

(** Under the monotonic clock the saturating [Sub] decides expiry as the exact
    difference does. *)
Lemma fwc_expired_exact (windowSize : Duration) (startTime now : Time) :
  GoInt.is_int windowSize = true -> startTime <= now ->
  (windowSize <=? Sub now startTime) = (windowSize <=? now - startTime).
Proof.
  unfold GoInt.is_int, Sub, minDuration, maxDuration, GoInt.minInt64, GoInt.maxInt64.
  intros Hw Hnow. apply andb_prop in Hw as [Hw1 Hw2]. apply Z.leb_le in Hw1, Hw2.
  destruct (Z.ltb_spec (now - startTime) (- 2 ^ 63)); [lia|].
  destruct (Z.ltb_spec (2 ^ 63 - 1) (now - startTime)); [|reflexivity].
  transitivity true; [|symmetry]; apply Z.leb_le; lia.
Qed.

(** A request inside the current window leaves the window alone. *)
Lemma fwc_AllowRequest_in_window
  (fwc : FixedWindowCounter.FixedWindowCounter) (now : Time) :
  Sub now (FixedWindowCounter.startTime fwc) < FixedWindowCounter.windowSize fwc ->
  FixedWindowCounter.AllowRequest fwc now =
    if FixedWindowCounter.count fwc <? FixedWindowCounter.limit fwc then
      (true, {| FixedWindowCounter.limit := FixedWindowCounter.limit fwc;
                FixedWindowCounter.windowSize := FixedWindowCounter.windowSize fwc;
                FixedWindowCounter.count := GoInt.incr (FixedWindowCounter.count fwc);
                FixedWindowCounter.startTime := FixedWindowCounter.startTime fwc |})
    else (false, fwc).
Proof.
  intros Hin. unfold FixedWindowCounter.AllowRequest.
  destruct (Z.leb_spec (FixedWindowCounter.windowSize fwc)
                       (Sub now (FixedWindowCounter.startTime fwc))); [lia|reflexivity].
Qed.

(** C4.  For a counter whose fields are [int]s and a clock reading not before
    [startTime]: when [now - startTime >= windowSize] the window is reset
    ([startTime] becomes [now], [count] becomes 0) and the reset is stored; then
    the request is allowed, with [count] one higher, exactly when the count
    after any reset is below [limit], and denied with [count] unchanged
    otherwise.  With [limit = 5], six requests inside a fresh window give five
    admissions and then a denial. *)
Theorem fwc_AllowRequest_resets_then_counts :
  (forall (fwc : FixedWindowCounter.FixedWindowCounter) (now : Time),
     GoInt.is_int (FixedWindowCounter.limit fwc) = true ->
     GoInt.is_int (FixedWindowCounter.count fwc) = true ->
     GoInt.is_int (FixedWindowCounter.windowSize fwc) = true ->
     FixedWindowCounter.startTime fwc <= now ->
     let expired :=
       FixedWindowCounter.windowSize fwc <=? now - FixedWindowCounter.startTime fwc in
     let start1 := if expired then now else FixedWindowCounter.startTime fwc in
     let count1 := if expired then 0 else FixedWindowCounter.count fwc in
     let allowed := count1 <? FixedWindowCounter.limit fwc in
     FixedWindowCounter.AllowRequest fwc now =
       (allowed,
        {| FixedWindowCounter.limit := FixedWindowCounter.limit fwc;
           FixedWindowCounter.windowSize := FixedWindowCounter.windowSize fwc;
           FixedWindowCounter.count := if allowed then count1 + 1 else count1;
           FixedWindowCounter.startTime := start1 |})) /\
  (forall (windowSize : Duration) (t0 t1 t2 t3 t4 t5 t6 : Time),
     Forall (fun t => Sub t t0 < windowSize) [t1; t2; t3; t4; t5; t6] ->
     fst (fwc_run (FixedWindowCounter.NewFixedWindowCounter 5 windowSize t0)
                  [t1; t2; t3; t4; t5; t6])
     = [true; true; true; true; true; false]).
Proof.
  split.
  - intros fwc now Hl Hc Hw Hnow. cbv zeta.
    unfold FixedWindowCounter.AllowRequest.
    rewrite (fwc_expired_exact _ _ _ Hw Hnow).
    destruct (FixedWindowCounter.windowSize fwc <=? now - FixedWindowCounter.startTime fwc);
      cbn [FixedWindowCounter.count FixedWindowCounter.limit
           FixedWindowCounter.windowSize FixedWindowCounter.startTime].
    + destruct (Z.ltb_spec 0 (FixedWindowCounter.limit fwc)) as [Hlt|Hge].
      * rewrite (incr_below_limit 0 _ eq_refl Hl Hlt). reflexivity.
      * reflexivity.
    + destruct (Z.ltb_spec (FixedWindowCounter.count fwc) (FixedWindowCounter.limit fwc))
        as [Hlt|Hge].
      * rewrite (incr_below_limit _ _ Hc Hl Hlt). reflexivity.
      * destruct fwc; reflexivity.
  - intros w t0 t1 t2 t3 t4 t5 t6 Hin.
    repeat match goal with
           | Hf : Forall _ (_ :: _) |- _ => inversion_clear Hf
           end.
    cbn [fwc_run].
    repeat (rewrite fwc_AllowRequest_in_window by assumption;
            cbn [FixedWindowCounter.NewFixedWindowCounter FixedWindowCounter.count
                 FixedWindowCounter.limit FixedWindowCounter.windowSize
                 FixedWindowCounter.startTime Z.ltb Z.compare Pos.compare
                 Pos.compare_cont];
            change (GoInt.incr 0) with 1; change (GoInt.incr 1) with 2;
            change (GoInt.incr 2) with 3; change (GoInt.incr 3) with 4;
            change (GoInt.incr 4) with 5).
    reflexivity.
Qed.

(** C5.  [GetCurrentCount] and [GetTimeUntilReset] return the counter as they
    found it, whatever the clock reads.  When the window has expired
    ([elapsed >= windowSize]) they report 0 and 0, while [AllowRequest] at the
    same clock reading stores the reset: [startTime] becomes [now] and [count]
    restarts from 0 (it is 1 after the call when the request is admitted). *)
Theorem fwc_accessors_do_not_reset
  (fwc : FixedWindowCounter.FixedWindowCounter) (now : Time) :
  snd (FixedWindowCounter.GetCurrentCount fwc now) = fwc /\
  snd (FixedWindowCounter.GetTimeUntilReset fwc now) = fwc /\
  (FixedWindowCounter.windowSize fwc <= Sub now (FixedWindowCounter.startTime fwc) ->
     fst (FixedWindowCounter.GetCurrentCount fwc now) = 0 /\
     fst (FixedWindowCounter.GetTimeUntilReset fwc now) = 0 /\
     FixedWindowCounter.startTime (snd (FixedWindowCounter.AllowRequest fwc now)) = now /\
     FixedWindowCounter.count (snd (FixedWindowCounter.AllowRequest fwc now)) =
       (if 0 <? FixedWindowCounter.limit fwc then 1 else 0)).
Proof.
  unfold FixedWindowCounter.GetCurrentCount, FixedWindowCounter.GetTimeUntilReset,
    FixedWindowCounter.AllowRequest.
  destruct (Z.leb_spec (FixedWindowCounter.windowSize fwc)
                       (Sub now (FixedWindowCounter.startTime fwc))) as [Hexp|Hin].
  - cbn [fst snd FixedWindowCounter.count FixedWindowCounter.limit].
    split; [reflexivity | split; [reflexivity | intros _]].
    repeat split; destruct (0 <? FixedWindowCounter.limit fwc); reflexivity.
  - split; [reflexivity | split; [reflexivity | intros Hexp; lia]].
Qed.

(** * Sliding window log *)

(** The cleanup loop splits the log into the entries it removed, all at or
    before the cutoff, and the rest, which it returns untouched and whose
    first entry (if any) is after the cutoff. *)
Lemma cleanupLoop_split (cutoff : Time) (l : list Time) :
  exists removed,
    l = removed ++ SlidingWindowLog.cleanupLoop cutoff l /\
    Forall (fun ts => ts <= cutoff) removed /\
    match SlidingWindowLog.cleanupLoop cutoff l with
    | [] => True
    | ts :: _ => cutoff < ts
    end.
Proof.
  induction l as [|ts l IH]; cbn [SlidingWindowLog.cleanupLoop].
  - exists []. repeat split. constructor.
  - unfold After. destruct (Z.ltb_spec cutoff ts) as [Hafter|Hold].
    + exists []. repeat split; [constructor | exact Hafter].
    + destruct IH as [removed [Heq [Hold' Hfront]]].
      exists (ts :: removed). repeat split.
      * cbn. f_equal. exact Heq.
      * constructor; assumption.
      * exact Hfront.
Qed.

(** What the loop returns is a suffix of the log. *)
Lemma cleanupLoop_length (cutoff : Time) (l : list Time) :
  (length (SlidingWindowLog.cleanupLoop cutoff l) <= length l)%nat.
Proof.
  destruct (cleanupLoop_split cutoff l) as [removed [Heq _]].
  rewrite Heq at 2. rewrite length_app. lia.
Qed.

Lemma StronglySorted_app_inv_r (l1 l2 : list Time) :
  StronglySorted Z.le (l1 ++ l2) -> StronglySorted Z.le l2.
Proof.
  induction l1 as [|a l1 IH]; cbn; [auto|].
  intros Hs. inversion_clear Hs. auto.
Qed.

Lemma StronglySorted_snoc (l : list Time) (x : Time) :
  StronglySorted Z.le l -> Forall (fun ts => ts <= x) l ->
  StronglySorted Z.le (l ++ [x]).
Proof.
  induction l as [|a l IH]; cbn; intros Hs Hle.
  - repeat constructor.
  - inversion_clear Hs. inversion_clear Hle. constructor; [auto|].
    apply Forall_app. split; [assumption | repeat constructor; assumption].
Qed.

(** On a sorted log everything the loop keeps is after the cutoff. *)
Lemma cleanupLoop_sorted_after (cutoff : Time) (l : list Time) :
  Sorted Z.le l -> Forall (fun ts => cutoff < ts) (SlidingWindowLog.cleanupLoop cutoff l).
Proof.
  intros Hs. apply Sorted_StronglySorted in Hs; [|exact Z.le_trans].
  destruct (cleanupLoop_split cutoff l) as [removed [Heq [_ Hfront]]].
  rewrite Heq in Hs. apply StronglySorted_app_inv_r in Hs.
  destruct (SlidingWindowLog.cleanupLoop cutoff l) as [|ts kept]; [constructor|].
  inversion_clear Hs. constructor; [exact Hfront|].
  eapply Forall_impl; [|eassumption]. cbn. intros; lia.
Qed.

(** Every operation leaves the cleaned log, with [now] appended by an admitted
    [AllowRequest]. *)
Lemma swl_step_requests (op : swl_op) (swl : SlidingWindowLog.SlidingWindowLog) (now : Time) :
  let cleaned := SlidingWindowLog.requests (SlidingWindowLog.cleanupOldRequests swl now) in
  SlidingWindowLog.limit (swl_step op swl now) = SlidingWindowLog.limit swl /\
  SlidingWindowLog.windowSize (swl_step op swl now) = SlidingWindowLog.windowSize swl /\
  SlidingWindowLog.requests (swl_step op swl now) =
    match op with
    | opAllowRequest =>
        if SlidingWindowLog.Len cleaned <? SlidingWindowLog.limit swl
        then cleaned ++ [now] else cleaned
    | _ => cleaned
    end.
Proof.
  cbv zeta. destruct op; cbn [swl_step];
    unfold SlidingWindowLog.AllowRequest, SlidingWindowLog.GetCurrentCount,
      SlidingWindowLog.GetOldestRequestAge, SlidingWindowLog.GetTimeUntilSlotAvailable,
      SlidingWindowLog.GetWindowInfo, SlidingWindowLog.GetRequestTimestamps;
    cbn [SlidingWindowLog.limit SlidingWindowLog.cleanupOldRequests
         SlidingWindowLog.requests SlidingWindowLog.windowSize].
  - destruct (_ <? _); cbn; auto.
  - cbn; auto.
  - destruct (SlidingWindowLog.cleanupLoop _ _) eqn:E; cbn; rewrite ?E; auto.
  - destruct (_ <? _); [cbn; auto|].
    destruct (SlidingWindowLog.cleanupLoop _ _) eqn:E; [cbn; rewrite ?E; auto|].
    destruct (After _ _); cbn; rewrite ?E; auto.
  - cbn; auto.
  - cbn; auto.
Qed.

Lemma swl_history_parameters (limit : Z) (windowSize : Duration) (last : Time)
  (swl : SlidingWindowLog.SlidingWindowLog) :
  swl_history limit windowSize last swl ->
  SlidingWindowLog.limit swl = limit /\ SlidingWindowLog.windowSize swl = windowSize.
Proof.
  induction 1 as [t0 | op last now swl _ [IHl IHw] _].
  - split; reflexivity.
  - destruct (swl_step_requests op swl now) as [El [Ew _]]. split; congruence.
Qed.

(** Under the monotonic clock the log is sorted and holds no time after the
    latest clock reading. *)
Lemma swl_history_sorted (limit : Z) (windowSize : Duration) (last : Time)
  (swl : SlidingWindowLog.SlidingWindowLog) :
  swl_history limit windowSize last swl ->
  StronglySorted Z.le (SlidingWindowLog.requests swl) /\
  Forall (fun ts => ts <= last) (SlidingWindowLog.requests swl).
Proof.
  induction 1 as [t0 | op last now swl _ [IHs IHle] Hnow].
  - cbn. split; constructor.
  - destruct (swl_step_requests op swl now) as [_ [_ Ereq]].
    cbn [SlidingWindowLog.cleanupOldRequests SlidingWindowLog.requests] in Ereq.
    set (cutoff := SlidingWindowLog.cutoffTime swl now) in *.
    destruct (cleanupLoop_split cutoff (SlidingWindowLog.requests swl))
      as [removed [Heq _]].
    assert (StronglySorted Z.le
              (SlidingWindowLog.cleanupLoop cutoff (SlidingWindowLog.requests swl))) as Hs.
    { rewrite Heq in IHs. eapply StronglySorted_app_inv_r; eassumption. }
    assert (Forall (fun ts => ts <= now)
              (SlidingWindowLog.cleanupLoop cutoff (SlidingWindowLog.requests swl))) as Hle.
    { rewrite Heq in IHle. apply Forall_app in IHle as [_ IHle].
      eapply Forall_impl; [|eassumption]. cbn. intros; lia. }
    rewrite Ereq.
    destruct op; try (split; assumption).
    destruct (_ <? _); [|split; assumption].
    split; [apply StronglySorted_snoc; assumption|].
    apply Forall_app. split; [assumption | repeat constructor; lia].
Qed.

(** The cutoff is [now - windowSize] unless negating the window size wraps. *)
Lemma cutoffTime_exact (swl : SlidingWindowLog.SlidingWindowLog) (now : Time) :
  minDuration < SlidingWindowLog.windowSize swl <= maxDuration ->
  SlidingWindowLog.cutoffTime swl now = now - SlidingWindowLog.windowSize swl.
Proof.
  unfold SlidingWindowLog.cutoffTime, Add, GoInt.neg, GoInt.wrap, minDuration,
    maxDuration, GoInt.minInt64, GoInt.maxInt64.
  intros [Hlo Hhi]. rewrite Z.mod_small; lia.
Qed.

(** Every public operation of the log first runs the cleanup at its clock
    reading, with the cutoff [now.Add(-windowSize)]: whatever the operation,
    the log it leaves is the cleaned log (with [now] appended by an admitted
    [AllowRequest]), and what it returns is read off the cleaned log.  The
    cleanup removes entries from the front exactly while they are at or before
    the cutoff. *)
Lemma swl_cleanup_at_cutoff
  (swl : SlidingWindowLog.SlidingWindowLog) (now : Time) :
  let cutoff := SlidingWindowLog.cutoffTime swl now in
  let cleaned := SlidingWindowLog.requests (SlidingWindowLog.cleanupOldRequests swl now) in
  (forall op : swl_op,
     SlidingWindowLog.requests (swl_step op swl now) =
       match op with
       | opAllowRequest =>
           if SlidingWindowLog.Len cleaned <? SlidingWindowLog.limit swl
           then cleaned ++ [now] else cleaned
       | _ => cleaned
       end) /\
  fst (SlidingWindowLog.AllowRequest swl now) =
    (SlidingWindowLog.Len cleaned <? SlidingWindowLog.limit swl) /\
  fst (SlidingWindowLog.GetCurrentCount swl now) = SlidingWindowLog.Len cleaned /\
  fst (SlidingWindowLog.GetRequestTimestamps swl now) = cleaned /\
  (exists removed,
     SlidingWindowLog.requests swl = removed ++ cleaned /\
     Forall (fun ts => ts <= cutoff) removed /\
     match cleaned with
     | [] => True
     | ts :: _ => cutoff < ts
     end) /\
  (forall ts rest, cutoff < ts ->
     SlidingWindowLog.cleanupLoop cutoff (ts :: rest) = ts :: rest) /\
  (Sorted Z.le (SlidingWindowLog.requests swl) ->
     Forall (fun ts => cutoff < ts) cleaned) /\
  (forall last,
     swl_history (SlidingWindowLog.limit swl) (SlidingWindowLog.windowSize swl) last swl ->
     Forall (fun ts => cutoff < ts) cleaned).
Proof.
  cbv zeta. repeat apply conj.
  - intros op. apply (swl_step_requests op swl now).
  - unfold SlidingWindowLog.AllowRequest. destruct (_ <? _); reflexivity.
  - reflexivity.
  - reflexivity.
  - apply cleanupLoop_split.
  - intros ts rest Hafter. cbn [SlidingWindowLog.cleanupLoop]. unfold After.
    apply Z.ltb_lt in Hafter. rewrite Hafter. reflexivity.
  - apply cleanupLoop_sorted_after.
  - intros last Hhist. apply cleanupLoop_sorted_after.
    apply StronglySorted_Sorted. eapply swl_history_sorted. eassumption.
Qed.

(** C6, as the code has it.  For a log whose window size is a [Duration] other
    than the minimum int64 (whose negation wraps), every public operation first
    runs the cleanup at its clock reading: whatever the operation, the log it
    leaves is the cleaned log (with [now] appended by an admitted
    [AllowRequest]), and what it returns is read off the cleaned log.  The
    cleanup removes entries from the front exactly while they are at or before
    [now - windowSize]: the log is the removed entries, all
    [<= now - windowSize], followed by the cleaned log, whose first entry is
    [> now - windowSize]; an entry behind a front entry that is inside the
    window is kept whatever its value.  On a sorted log, and so in every state
    reached under the monotonic clock, every retained entry is
    [> now - windowSize]. *)
Theorem swl_cleanup_removes_expired_front
  (swl : SlidingWindowLog.SlidingWindowLog) (now : Time) :
  minDuration < SlidingWindowLog.windowSize swl <= maxDuration ->
  let cutoff := now - SlidingWindowLog.windowSize swl in
  let cleaned := SlidingWindowLog.requests (SlidingWindowLog.cleanupOldRequests swl now) in
  (forall op : swl_op,
     SlidingWindowLog.requests (swl_step op swl now) =
       match op with
       | opAllowRequest =>
           if SlidingWindowLog.Len cleaned <? SlidingWindowLog.limit swl
           then cleaned ++ [now] else cleaned
       | _ => cleaned
       end) /\
  fst (SlidingWindowLog.AllowRequest swl now) =
    (SlidingWindowLog.Len cleaned <? SlidingWindowLog.limit swl) /\
  fst (SlidingWindowLog.GetCurrentCount swl now) = SlidingWindowLog.Len cleaned /\
  fst (SlidingWindowLog.GetRequestTimestamps swl now) = cleaned /\
  (exists removed,
     SlidingWindowLog.requests swl = removed ++ cleaned /\
     Forall (fun ts => ts <= cutoff) removed /\
     match cleaned with
     | [] => True
     | ts :: _ => cutoff < ts
     end) /\
  (forall ts rest, cutoff < ts ->
     SlidingWindowLog.requests
       (SlidingWindowLog.cleanupOldRequests
          {| SlidingWindowLog.limit := SlidingWindowLog.limit swl;
             SlidingWindowLog.windowSize := SlidingWindowLog.windowSize swl;
             SlidingWindowLog.requests := ts :: rest |} now) = ts :: rest) /\
  (Sorted Z.le (SlidingWindowLog.requests swl) ->
     Forall (fun ts => cutoff < ts) cleaned) /\
  (forall last,
     swl_history (SlidingWindowLog.limit swl) (SlidingWindowLog.windowSize swl) last swl ->
     Forall (fun ts => cutoff < ts) cleaned).
Proof.
  intros Hw. cbv zeta.
  rewrite <- (cutoffTime_exact swl now Hw).
  destruct (swl_cleanup_at_cutoff swl now)
    as (Hops & Hallow & Hcount & Hstamps & Hsplit & Hkeep & Hsorted & Hhist).
  repeat apply conj; assumption.
Qed.

(** The claim of C6 fails where negating the window size wraps: with the
    minimum int64 as window size the cutoff is [now - 2^63], so the timestamp 5
    stays in the log at clock reading 10 although [5 <= now - windowSize]. *)
Lemma swl_cleanup_minimum_window_keeps_old :
  let swl := swl_step opAllowRequest
               (SlidingWindowLog.NewSlidingWindowLog 5 minDuration) 5 in
  SlidingWindowLog.requests swl = [5] /\
  (5 <=? 10 - SlidingWindowLog.windowSize swl) = true /\
  SlidingWindowLog.requests (SlidingWindowLog.cleanupOldRequests swl 10) = [5] /\
  fst (SlidingWindowLog.GetCurrentCount swl 10) = 1.
Proof. vm_compute. repeat split. Qed.

(** With a limit that is not negative the log never outgrows it. *)
Lemma swl_history_size (limit : Z) (windowSize : Duration) (last : Time)
  (swl : SlidingWindowLog.SlidingWindowLog) :
  0 <= limit ->
  swl_history limit windowSize last swl ->
  SlidingWindowLog.Len (SlidingWindowLog.requests swl) <= limit.
Proof.
  intros Hlimit Hhist.
  induction Hhist as [t0 | op last now swl Hhist IH Hnow].
  - cbn. exact Hlimit.
  - destruct (swl_history_parameters _ _ _ _ Hhist) as [El _].
    destruct (swl_step_requests op swl now) as [_ [_ Ereq]].
    cbn [SlidingWindowLog.cleanupOldRequests SlidingWindowLog.requests] in Ereq.
    pose proof (cleanupLoop_length (SlidingWindowLog.cutoffTime swl now)
                  (SlidingWindowLog.requests swl)) as Hlen.
    rewrite Ereq. unfold SlidingWindowLog.Len in *.
    destruct op; try lia.
    rewrite El.
    destruct (Z.ltb_spec
                (Z.of_nat (length (SlidingWindowLog.cleanupLoop
                                     (SlidingWindowLog.cutoffTime swl now)
                                     (SlidingWindowLog.requests swl)))) limit);
      [rewrite length_app; cbn [length]; lia | lia].
Qed.

(** C7, as the code has it.  For a limit that is not negative, the log of every
    state of a history holds at most [limit] timestamps.  [AllowRequest] returns
    [true] and appends the clock reading exactly when the cleaned log is
    strictly shorter than the limit; otherwise it returns [false] and leaves
    the cleaned log. *)
Theorem swl_log_size_at_most_limit (limit : Z) (windowSize : Duration) :
  0 <= limit ->
  (forall last swl,
     swl_history limit windowSize last swl ->
     SlidingWindowLog.Len (SlidingWindowLog.requests swl) <= limit) /\
  (forall swl now,
     let cleaned :=
       SlidingWindowLog.requests (SlidingWindowLog.cleanupOldRequests swl now) in
     let allowed := SlidingWindowLog.Len cleaned <? SlidingWindowLog.limit swl in
     SlidingWindowLog.AllowRequest swl now =
       (allowed,
        {| SlidingWindowLog.limit := SlidingWindowLog.limit swl;
           SlidingWindowLog.windowSize := SlidingWindowLog.windowSize swl;
           SlidingWindowLog.requests := if allowed then cleaned ++ [now] else cleaned |})).
Proof.
  intros Hlimit. split.
  - intros last swl Hhist. eapply swl_history_size; eassumption.
  - intros swl now. cbv zeta. unfold SlidingWindowLog.AllowRequest.
    destruct (_ <? _); reflexivity.
Qed.

(** The size bound of C7 fails for a negative limit: the new log is empty, and
    0 is above the limit. *)
Lemma swl_negative_limit_exceeded :
  swl_history (-1) (10 * Second) 0
    (SlidingWindowLog.NewSlidingWindowLog (-1) (10 * Second)) /\
  (SlidingWindowLog.Len
     (SlidingWindowLog.requests (SlidingWindowLog.NewSlidingWindowLog (-1) (10 * Second)))
   <=? -1) = false.
Proof. split; [apply swl_hist_new | reflexivity]. Qed.

(** * Utilization with a zero ceiling (binary64) *)

(** With capacity zero and a leak rate that is not negative, the level after a
    leak is a zero or NaN whenever it was one before. *)
Lemma lb_leak_zero_or_nan (lb : LeakyBucket.LeakyBucket float) (now : Time) :
  (0 <=? LeakyBucket.leakRate lb)%float = true ->
  LeakyBucket.lastTime lb <= now ->
  sf_zero_or_nan (Prim2SF (LeakyBucket.water lb)) ->
  sf_zero_or_nan (Prim2SF (LeakyBucket.water (LeakyBucket.leak lb now))).
Proof.
  intros Hr Hnow Hw.
  cbn [LeakyBucket.leak LeakyBucket.water f_max f_sub f_mul f_of_int binary64].
  change (IEEE.of_int 0) with 0%float.
  apply fmax_zero_nonpos.
  rewrite FloatAxioms.sub_spec, FloatAxioms.mul_spec.
  apply SFsub_zero_nonneg; [exact Hw|].
  apply SFmul_nonneg.
  - apply Seconds_nonneg, Sub_nonneg, Hnow.
  - apply leb_zero_nonneg, Hr.
Qed.

(** Nothing is below a zero capacity when the level is a zero or NaN. *)
Lemma ltb_zero_or_nan_zero (w c : float) :
  sf_zero_or_nan (Prim2SF w) -> (c =? 0)%float = true -> (w <? c)%float = false.
Proof.
  intros Hw Hc. apply eqb_zero_spec in Hc as [s Hc].
  rewrite FloatAxioms.ltb_spec, Hc.
  destruct (Prim2SF w); cbn in Hw |- *; try contradiction; reflexivity.
Qed.

Lemma lb_zero_capacity_level (capacity leakRate : float)
  (lb : LeakyBucket.LeakyBucket float) :
  (capacity =? 0)%float = true -> (0 <=? leakRate)%float = true ->
  lb_reachable capacity leakRate lb ->
  sf_zero_or_nan (Prim2SF (LeakyBucket.water lb)).
Proof.
  intros Hc Hr Hreach.
  induction Hreach as [t0 | lb now Hreach IH Hnow
                          | lb now Hreach IH Hnow
                          | lb now Hreach IH Hnow];
    try (destruct (lb_leak_keeps_parameters _ _ _ Hreach) as [Ec Er];
         assert (sf_zero_or_nan (Prim2SF (LeakyBucket.water (LeakyBucket.leak lb now))))
           as Hleak by (apply lb_leak_zero_or_nan; [rewrite Er| |]; assumption)).
  - exact I.
  - unfold LeakyBucket.AllowRequest. cbn [f_lt binary64].
    rewrite (ltb_zero_or_nan_zero _ _ Hleak); [exact Hleak|].
    cbn [LeakyBucket.leak LeakyBucket.capacity]. rewrite Ec. exact Hc.
  - exact Hleak.
  - exact Hleak.
Qed.

Lemma lb_zero_capacity_used_nan (capacity leakRate : float)
  (lb : LeakyBucket.LeakyBucket float) (now : Time) :
  (capacity =? 0)%float = true -> (0 <=? leakRate)%float = true ->
  lb_reachable capacity leakRate lb ->
  LeakyBucket.lastTime lb <= now ->
  is_nan (fst (LeakyBucket.GetCapacityUsed lb now)) = true.
Proof.
  intros Hc Hr Hreach Hnow.
  destruct (lb_leak_keeps_parameters _ _ _ Hreach) as [Ec Er].
  assert (sf_zero_or_nan (Prim2SF (LeakyBucket.water (LeakyBucket.leak lb now))))
    as Hleak.
  { apply lb_leak_zero_or_nan; [rewrite Er; exact Hr | exact Hnow |].
    eapply lb_zero_capacity_level; eassumption. }
  cbn [LeakyBucket.GetCapacityUsed fst f_mul f_div f_of_int binary64].
  rewrite is_nan_spec, FloatAxioms.mul_spec, FloatAxioms.div_spec.
  cbn [LeakyBucket.leak LeakyBucket.capacity]. rewrite Ec.
  apply eqb_zero_spec in Hc as [s Hc]. rewrite Hc.
  destruct (Prim2SF (LeakyBucket.water (LeakyBucket.leak lb now)));
    cbn in Hleak |- *; try contradiction; reflexivity.
Qed.

(** A fixed window counter with limit 0 never counts a request. *)
Lemma fwc_zero_limit_count (windowSize : Duration)
  (fwc : FixedWindowCounter.FixedWindowCounter) :
  fwc_history 0 windowSize fwc ->
  FixedWindowCounter.limit fwc = 0 /\ FixedWindowCounter.count fwc = 0.
Proof.
  induction 1 as [t0 | op now fwc _ [IHl IHc] _].
  - split; reflexivity.
  - destruct op; cbn [fwc_step].
    + unfold FixedWindowCounter.AllowRequest.
      destruct (_ <=? _);
        cbn [FixedWindowCounter.count FixedWindowCounter.limit]; rewrite IHl.
      * cbn. auto.
      * rewrite IHc. cbn. auto.
    + unfold FixedWindowCounter.GetCurrentCount. destruct (_ <=? _); cbn; auto.
    + unfold FixedWindowCounter.GetTimeUntilReset. destruct (_ <=? _); cbn; auto.
    + unfold FixedWindowCounter.GetWindowInfo. destruct (_ <=? _); cbn; auto.
Qed.

(** A sliding window log with limit 0 stays empty. *)
Lemma swl_zero_limit_empty (windowSize : Duration) (last : Time)
  (swl : SlidingWindowLog.SlidingWindowLog) :
  swl_history 0 windowSize last swl ->
  SlidingWindowLog.limit swl = 0 /\ SlidingWindowLog.requests swl = [].
Proof.
  intros Hhist. split; [eapply swl_history_parameters; eassumption|].
  pose proof (swl_history_size 0 windowSize last swl (Z.le_refl 0) Hhist) as Hsize.
  unfold SlidingWindowLog.Len in Hsize.
  destruct (SlidingWindowLog.requests swl); [reflexivity | cbn in Hsize; lia].
Qed.

(** C10, as the code has it.  The utilization reads divide by the configured
    ceiling without a guard against zero.  A leaky bucket constructed with
    capacity 0 and a leak rate that is not negative returns NaN from
    [GetCapacityUsed] in every reachable state, and a sliding window log
    constructed with limit 0 returns a NaN utilization from [GetWindowInfo].
    A fixed window counter constructed with limit 0 returns a NaN utilization
    from [GetWindowInfo] while the window has not expired; once it has expired
    ([elapsed >= windowSize]) the guard returns utilization 0 without
    dividing. *)
Theorem utilization_with_zero_ceiling :
  (forall (capacity leakRate : float) (lb : LeakyBucket.LeakyBucket float) (now : Time),
     (capacity =? 0)%float = true -> (0 <=? leakRate)%float = true ->
     lb_reachable capacity leakRate lb ->
     LeakyBucket.lastTime lb <= now ->
     fst (LeakyBucket.GetCapacityUsed lb now) =
       ((LeakyBucket.water (LeakyBucket.leak lb now) / capacity) * 100)%float /\
     is_nan (fst (LeakyBucket.GetCapacityUsed lb now)) = true) /\
  (forall (windowSize : Duration) (fwc : FixedWindowCounter.FixedWindowCounter)
          (now : Time),
     fwc_history 0 windowSize fwc ->
     let info := fst (FixedWindowCounter.GetWindowInfo (F:=float) fwc now) in
     (Sub now (FixedWindowCounter.startTime fwc) < windowSize ->
        is_nan (FixedWindowCounter.utilizationPercent info) = true) /\
     (windowSize <= Sub now (FixedWindowCounter.startTime fwc) ->
        FixedWindowCounter.utilizationPercent info = 0%float)) /\
  (forall (windowSize : Duration) (last : Time)
          (swl : SlidingWindowLog.SlidingWindowLog) (now : Time),
     swl_history 0 windowSize last swl ->
     is_nan (SlidingWindowLog.utilizationPercent
               (fst (SlidingWindowLog.GetWindowInfo (F:=float) swl now))) = true).
Proof.
  repeat apply conj.
  - intros capacity leakRate lb now Hc Hr Hreach Hnow. split.
    + destruct (lb_leak_keeps_parameters _ _ _ Hreach) as [Ec _].
      cbn [LeakyBucket.GetCapacityUsed fst f_mul f_div f_of_int binary64
           LeakyBucket.leak LeakyBucket.capacity LeakyBucket.water].
      rewrite Ec. reflexivity.
    + eapply lb_zero_capacity_used_nan; eassumption.
  - intros windowSize fwc now Hhist. cbv zeta.
    destruct (fwc_zero_limit_count _ _ Hhist) as [El Ec].
    assert (FixedWindowCounter.windowSize fwc = windowSize) as Ew.
    { clear El Ec. induction Hhist as [t0 | op now' fwc Hhist IH _]; [reflexivity|].
      destruct op; cbn [fwc_step];
        unfold FixedWindowCounter.AllowRequest, FixedWindowCounter.GetCurrentCount,
          FixedWindowCounter.GetTimeUntilReset, FixedWindowCounter.GetWindowInfo;
        repeat destruct (_ <=? _); repeat destruct (_ <? _); cbn; exact IH. }
    unfold FixedWindowCounter.GetWindowInfo. rewrite Ew, El, Ec.
    destruct (Z.leb_spec windowSize (Sub now (FixedWindowCounter.startTime fwc)));
      cbn [fst FixedWindowCounter.utilizationPercent].
    + split; [intros; lia | intros; reflexivity].
    + split; [intros; vm_compute; reflexivity | intros; lia].
  - intros windowSize last swl now Hhist.
    destruct (swl_zero_limit_empty _ _ _ Hhist) as [El Er].
    unfold SlidingWindowLog.GetWindowInfo.
    cbn [SlidingWindowLog.cleanupOldRequests SlidingWindowLog.requests
         SlidingWindowLog.limit fst SlidingWindowLog.utilizationPercent].
    rewrite El, Er. vm_compute. reflexivity.
Qed.

(** The claim of C10 fails where the code guards or where water can flow in:
    a fixed window counter with limit 0 reports utilization 0, not NaN, once
    its window has expired; and a leaky bucket with capacity 0 and a negative
    leak rate gains water and reports an infinite usage. *)
Lemma utilization_zero_ceiling_not_nan :
  is_nan (FixedWindowCounter.utilizationPercent
            (fst (FixedWindowCounter.GetWindowInfo (F:=float)
                    (FixedWindowCounter.NewFixedWindowCounter 0 (10 * Second) 0)
                    (10 * Second)))) = false /\
  FixedWindowCounter.utilizationPercent
    (fst (FixedWindowCounter.GetWindowInfo (F:=float)
            (FixedWindowCounter.NewFixedWindowCounter 0 (10 * Second) 0)
            (10 * Second))) = 0%float /\
  fst (LeakyBucket.GetCapacityUsed
         (LeakyBucket.NewLeakyBucket (F:=float) 0%float (-1)%float 0) Second)
  = infinity.
Proof. vm_compute. repeat split. Qed.

(** * The limiters at work

    Runs of the four limiters on concrete schedules, in binary64 where levels
    are floats. *)

(** Capacity 5, one token per second: a burst of six at the construction time
    admits five; a second later exactly one more request is admitted. *)
Example tb_burst_then_refill :
  fst (tb_run (TokenBucket.NewTokenBucket (F:=float) 5%float 1%float 0)
         [0; 0; 0; 0; 0; 0; Second; Second])
  = [true; true; true; true; true; false; true; false].
Proof. vm_compute. reflexivity. Qed.

(** The schedule of the demo ([main] runs capacity 5 at one token per second,
    a request every 500ms): nine admissions, then a denial at level 0.5. *)
Example tb_demo_schedule :
  tb_run (TokenBucket.NewTokenBucket (F:=float) 5%float 1%float 0)
    [0; 500000000; 1000000000; 1500000000; 2000000000;
     2500000000; 3000000000; 3500000000; 4000000000; 4500000000]
  = ([true; true; true; true; true; true; true; true; true; false],
     {| TokenBucket.capacity := 5%float; TokenBucket.tokens := 0.5%float;
        TokenBucket.refillRate := 1%float;
        TokenBucket.lastRefillTime := 4500000000 |}).
Proof. vm_compute. reflexivity. Qed.

(** Capacity 5, leaking one unit per second: five requests fill the bucket,
    the sixth is denied, and a second later exactly one more is admitted. *)
Example lb_burst_then_leak :
  fst (lb_run (LeakyBucket.NewLeakyBucket (F:=float) 5%float 1%float 0)
         [0; 0; 0; 0; 0; 0; Second; Second])
  = [true; true; true; true; true; false; true; false].
Proof. vm_compute. reflexivity. Qed.

(** The leaky bucket demo (capacity 5, leaking 0.25 per second, a request every
    500ms): the level passes the capacity by less than one unit. *)
Example lb_demo_schedule :
  lb_run (LeakyBucket.NewLeakyBucket (F:=float) 5%float 0.25%float 0)
    [0; 500000000; 1000000000; 1500000000; 2000000000;
     2500000000; 3000000000; 3500000000; 4000000000; 4500000000]
  = ([true; true; true; true; true; true; false; false; false; true],
     {| LeakyBucket.capacity := 5%float; LeakyBucket.water := 5.875%float;
        LeakyBucket.leakRate := 0.25%float;
        LeakyBucket.lastTime := 4500000000 |}).
Proof. vm_compute. reflexivity. Qed.

(** Limit 5 per 10 seconds: the sixth request of a window is denied, and the
    window that opens at 10 seconds admits five again. *)
Example fwc_two_windows :
  fst (fwc_run (FixedWindowCounter.NewFixedWindowCounter 5 (10 * Second) 0)
         [0; 1; 2; 3; 4; 5; 10 * Second; 10 * Second + 1; 10 * Second + 2;
          10 * Second + 3; 10 * Second + 4; 10 * Second + 5])
  = [true; true; true; true; true; false; true; true; true; true; true; false].
Proof. vm_compute. reflexivity. Qed.

(** Limit 5 per 10 seconds: when the oldest of five requests leaves the window
    exactly one new request is admitted. *)
Example swl_one_slot_frees :
  fst (swl_run (SlidingWindowLog.NewSlidingWindowLog 5 (10 * Second))
         [0; Second; 2 * Second; 3 * Second; 4 * Second; 5 * Second;
          10 * Second; 10 * Second + 1])
  = [true; true; true; true; true; false; true; false].
Proof. vm_compute. reflexivity. Qed.

(** With limit 0 the log is empty and at the limit: [GetTimeUntilSlotAvailable]
    dereferences the front of an empty deque. *)
Example swl_zero_limit_slot_query :
  fst (SlidingWindowLog.GetTimeUntilSlotAvailable
         (SlidingWindowLog.NewSlidingWindowLog 0 (10 * Second)) 0) = None.
Proof. reflexivity. Qed.

(** * The theorems on concrete limiters *)

Lemma tb_AllowRequest_refills_then_consumes_witness :
  TokenBucket.AllowRequest (TokenBucket.NewTokenBucket (F:=float) 5%float 1%float 0)
                           (Second / 2)
  = (true, {| TokenBucket.capacity := 5%float; TokenBucket.tokens := 4%float;
              TokenBucket.refillRate := 1%float;
              TokenBucket.lastRefillTime := Second / 2 |}) /\
  (SF2Q (Prim2SF 4) == SF2Q (Prim2SF 5) - 1)%Q.
Proof.
  destruct (tb_AllowRequest_refills_then_consumes
              (TokenBucket.NewTokenBucket (F:=float) 5%float 1%float 0) (Second / 2))
    as [E H].
  split; [exact E|].
  exact (proj2 (proj2 (H eq_refl)) eq_refl).
Defined.

Lemma tb_tokens_within_capacity_witness :
  let tb := snd (TokenBucket.AllowRequest
                   (TokenBucket.NewTokenBucket (F:=float) 5%float 1%float 0)
                   (Second / 2)) in
  (0 <=? TokenBucket.tokens tb)%float = true /\
  (TokenBucket.tokens tb <=? 5)%float = true.
Proof.
  apply (proj2 (tb_tokens_within_capacity 5%float 1%float eq_refl eq_refl eq_refl)).
  apply tb_reach_AllowRequest; [apply tb_reach_new | vm_compute; discriminate].
Defined.

Lemma lb_AllowRequest_leaks_then_fills_witness :
  LeakyBucket.AllowRequest (LeakyBucket.NewLeakyBucket (F:=float) 5%float 1%float 0)
                           (Second / 2)
  = (true, {| LeakyBucket.capacity := 5%float; LeakyBucket.water := 1%float;
              LeakyBucket.leakRate := 1%float;
              LeakyBucket.lastTime := Second / 2 |}) /\
  (1 <=? 0 + 1)%float = true.
Proof.
  destruct (lb_AllowRequest_leaks_then_fills
              (LeakyBucket.NewLeakyBucket (F:=float) 5%float 1%float 0) (Second / 2))
    as (_ & E & H).
  split; [exact E|].
  exact (proj1 (proj2 (H eq_refl))).
Defined.

Lemma lb_water_bounds_witness :
  let lb := snd (LeakyBucket.AllowRequest
                   (LeakyBucket.NewLeakyBucket (F:=float) 5%float 1%float 0)
                   (Second / 2)) in
  (0 <=? LeakyBucket.water lb)%float = true /\
  (LeakyBucket.water lb <=? 5 + 1)%float = true.
Proof.
  apply (proj1 (lb_water_between_zero_and_capacity_plus_one
                  5%float 1%float eq_refl eq_refl eq_refl)).
  apply lb_reach_AllowRequest; [apply lb_reach_new | vm_compute; discriminate].
Defined.

Lemma fwc_AllowRequest_witness :
  FixedWindowCounter.AllowRequest
    {| FixedWindowCounter.limit := 5; FixedWindowCounter.windowSize := 10 * Second;
       FixedWindowCounter.count := 5; FixedWindowCounter.startTime := 0 |}
    (12 * Second)
  = (true,
     {| FixedWindowCounter.limit := 5; FixedWindowCounter.windowSize := 10 * Second;
        FixedWindowCounter.count := 1; FixedWindowCounter.startTime := 12 * Second |}).
Proof.
  assert (0 <= 12 * Second) as Hnow by (vm_compute; discriminate).
  exact (proj1 fwc_AllowRequest_resets_then_counts
           {| FixedWindowCounter.limit := 5; FixedWindowCounter.windowSize := 10 * Second;
              FixedWindowCounter.count := 5; FixedWindowCounter.startTime := 0 |}
           (12 * Second) eq_refl eq_refl eq_refl Hnow).
Defined.

Lemma fwc_accessors_witness :
  let fwc :=
    {| FixedWindowCounter.limit := 5; FixedWindowCounter.windowSize := 10 * Second;
       FixedWindowCounter.count := 5; FixedWindowCounter.startTime := 0 |} in
  fst (FixedWindowCounter.GetCurrentCount fwc (12 * Second)) = 0 /\
  fst (FixedWindowCounter.GetTimeUntilReset fwc (12 * Second)) = 0 /\
  FixedWindowCounter.startTime
    (snd (FixedWindowCounter.AllowRequest fwc (12 * Second))) = 12 * Second /\
  FixedWindowCounter.count
    (snd (FixedWindowCounter.AllowRequest fwc (12 * Second))) = 1.
Proof.
  cbv zeta.
  apply (proj2 (proj2 (fwc_accessors_do_not_reset
           {| FixedWindowCounter.limit := 5; FixedWindowCounter.windowSize := 10 * Second;
              FixedWindowCounter.count := 5; FixedWindowCounter.startTime := 0 |}
           (12 * Second)))).
  vm_compute. discriminate.
Defined.

Lemma swl_cleanup_witness :
  let swl :=
    {| SlidingWindowLog.limit := 5; SlidingWindowLog.windowSize := 10 * Second;
       SlidingWindowLog.requests := [0; Second; 5 * Second; 11 * Second] |} in
  Forall (fun ts => 12 * Second - 10 * Second < ts)
    (SlidingWindowLog.requests (SlidingWindowLog.cleanupOldRequests swl (12 * Second))).
Proof.
  cbv zeta.
  assert (minDuration < 10 * Second <= maxDuration) as Hw
    by (split; [reflexivity | vm_compute; discriminate]).
  destruct (swl_cleanup_removes_expired_front
              {| SlidingWindowLog.limit := 5; SlidingWindowLog.windowSize := 10 * Second;
                 SlidingWindowLog.requests := [0; Second; 5 * Second; 11 * Second] |}
              (12 * Second) Hw) as (_ & _ & _ & _ & _ & _ & Hsorted & _).
  apply Hsorted.
  repeat constructor; vm_compute; discriminate.
Defined.

Lemma swl_log_size_witness :
  SlidingWindowLog.Len
    (SlidingWindowLog.requests
       (swl_step opAllowRequest
          (SlidingWindowLog.NewSlidingWindowLog 5 (10 * Second)) Second)) <= 5.
Proof.
  assert (0 <= 5) as Hlimit by (vm_compute; discriminate).
  apply (proj1 (swl_log_size_at_most_limit 5 (10 * Second) Hlimit) Second).
  apply swl_hist_step with (last := 0); [apply swl_hist_new | vm_compute; discriminate].
Defined.

Lemma utilization_with_zero_ceiling_witness :
  is_nan (fst (LeakyBucket.GetCapacityUsed
                 (snd (LeakyBucket.AllowRequest
                         (LeakyBucket.NewLeakyBucket (F:=float) 0%float 1%float 0)
                         Second))
                 (2 * Second))) = true.
Proof.
  apply (proj1 utilization_with_zero_ceiling 0%float 1%float).
  - reflexivity.
  - reflexivity.
  - apply lb_reach_AllowRequest; [apply lb_reach_new | vm_compute; discriminate].
  - vm_compute. discriminate.
Defined.

(** * Further properties of the limiters *)

(** ** Buckets too small to admit anything (binary64) *)

Lemma SFcompare_finite_pos_lt (m1 m2 : positive) (e1 e2 : Z) :
  SFcompare (S754_finite false m1 e1) (S754_finite false m2 e2) = Some Lt <->
  (e1 < e2 \/ (e1 = e2 /\ (m1 < m2)%positive)).
Proof.
  cbn [SFcompare]. unfold Pos.lt, Pos.compare.
  destruct (Z.compare_spec e1 e2) as [Heq|Hlt|Hgt].
  - split.
    + intros H0. injection H0 as H0. right. split; assumption.
    + intros [H0|[_ H0]]; [lia | rewrite H0; reflexivity].
  - split; [intros _; left; exact Hlt | reflexivity].
  - split; [discriminate | intros [H0|[H0 _]]; lia].
Qed.

(** Below a positive finite value [z]: what is below something below [z] is
    not at or above [z]. *)
Lemma SFltb_below_finite (y c : spec_float) (m : positive) (e : Z) :
  SFltb y c = true -> SFltb c (S754_finite false m e) = true ->
  SFleb (S754_finite false m e) y = false.
Proof.
  unfold SFltb, SFleb.
  destruct y as [sy|sy| |sy my ey]; [ | | discriminate | ].
  - reflexivity.
  - destruct sy; [reflexivity|].
    destruct c as [sc|sc| |sc mc ec]; cbn [SFcompare]; try discriminate;
      destruct sc; discriminate.
  - destruct sy; [reflexivity|].
    destruct c as [sc|sc| |sc mc ec];
      try (cbn [SFcompare]; try destruct sc; discriminate).
    destruct sc; [cbn [SFcompare]; discriminate|].
    destruct (SFcompare (S754_finite false my ey) (S754_finite false mc ec))
      as [[| |]|] eqn:E1; try discriminate.
    destruct (SFcompare (S754_finite false mc ec) (S754_finite false m e))
      as [[| |]|] eqn:E2; try discriminate.
    intros _ _.
    apply SFcompare_finite_pos_lt in E1, E2.
    destruct (SFcompare (S754_finite false m e) (S754_finite false my ey))
      as [[| |]|] eqn:E3; try reflexivity.
    + cbn [SFcompare] in E3.
      destruct (Z.compare_spec e ey); try discriminate.
      injection E3 as E3. apply Pos.compare_eq in E3. subst. lia.
    + apply SFcompare_finite_pos_lt in E3. lia.
Qed.

Lemma SFltb_not_leb_finite (c : spec_float) (m : positive) (e : Z) :
  SFltb c (S754_finite false m e) = true ->
  SFleb (S754_finite false m e) c = false.
Proof.
  unfold SFltb, SFleb.
  destruct c as [sc|sc| |sc mc ec]; try reflexivity; try discriminate.
  - destruct sc; [reflexivity | discriminate].
  - destruct sc; [reflexivity|].
    destruct (SFcompare (S754_finite false mc ec) (S754_finite false m e))
      as [[| |]|] eqn:E2; try discriminate.
    intros _. apply SFcompare_finite_pos_lt in E2.
    destruct (SFcompare (S754_finite false m e) (S754_finite false mc ec))
      as [[| |]|] eqn:E3; try reflexivity.
    + cbn [SFcompare] in E3.
      destruct (Z.compare_spec e ec); try discriminate.
      injection E3 as E3. apply Pos.compare_eq in E3. subst. lia.
    + apply SFcompare_finite_pos_lt in E3. lia.
Qed.

(** The smaller of a capacity below 1 and anything else is not at or above 1. *)
Lemma fmin_below_one (c y : float) :
  (c <? 1)%float = true -> (1 <=? IEEE.fmin c y)%float = false.
Proof.
  rewrite FloatAxioms.ltb_spec, Prim2SF_one. intros Hc.
  assert ((1 <=? c)%float = false) as Hc1
    by (rewrite FloatAxioms.leb_spec, Prim2SF_one; apply SFltb_not_leb_finite, Hc).
  unfold IEEE.fmin.
  destruct (is_nan y) eqn:Eny; cbn [orb].
  - rewrite is_nan_spec in Eny. rewrite FloatAxioms.leb_spec.
    destruct (Prim2SF y); try discriminate. reflexivity.
  - destruct (y <? c)%float eqn:Eyc.
    + rewrite FloatAxioms.ltb_spec in Eyc.
      rewrite FloatAxioms.leb_spec, Prim2SF_one.
      eapply SFltb_below_finite; eassumption.
    + destruct (is_nan c || (c <? y)%float || negb (c =? 0)%float) eqn:E2; [exact Hc1|].
      destruct (get_sign c); [exact Hc1|].
      apply orb_false_elim in E2 as [E2 Ez]. apply orb_false_elim in E2 as [_ Ecy].
      apply negb_false_iff in Ez. apply eqb_zero_spec in Ez as [s Ez].
      rewrite is_nan_spec in Eny.
      rewrite FloatAxioms.ltb_spec, Ez in Eyc, Ecy.
      rewrite FloatAxioms.leb_spec, Prim2SF_one.
      destruct (Prim2SF y) as [sy|sy| |sy my ey]; try discriminate; try reflexivity.
      * destruct sy; [reflexivity | discriminate].
      * destruct sy; [reflexivity | discriminate].
Qed.

(** A token bucket whose capacity is below 1 (zero in particular) denies every
    request, whatever its state, its refill rate and the clock: the refill caps
    the level at the capacity (or leaves NaN), which is never at or above 1. *)
Theorem tb_capacity_below_one_denies
  (tb : TokenBucket.TokenBucket float) (now : Time) :
  (TokenBucket.capacity tb <? 1)%float = true ->
  fst (TokenBucket.AllowRequest tb now) = false /\
  snd (TokenBucket.AllowRequest tb now) = TokenBucket.refill tb now.
Proof.
  intros Hc. unfold TokenBucket.AllowRequest. cbv zeta.
  cbn [f_le f_of_int binary64].
  change (IEEE.of_int 1) with 1%float.
  assert ((1 <=? TokenBucket.tokens (TokenBucket.refill tb now))%float = false) as Hlevel
    by (cbn [TokenBucket.refill TokenBucket.tokens f_min binary64];
        apply fmin_below_one, Hc).
  rewrite Hlevel. split; reflexivity.
Qed.

(** What [max(0, y)] returns is NaN, a zero or above zero. *)
Lemma fmax_zero_nonneg (y : float) : sf_nonneg (Prim2SF (IEEE.fmax 0 y)).
Proof.
  unfold IEEE.fmax. rewrite (is_nan_spec y), !FloatAxioms.ltb_spec.
  change (is_nan 0) with false. change (0 =? 0)%float with true.
  change (get_sign 0) with false. change (Prim2SF 0) with (S754_zero false).
  destruct (Prim2SF y) as [s|s| |s m e] eqn:Ey; cbn; rewrite ?Ey; try exact I.
  - destruct s; cbn; rewrite ?Ey; cbn; auto.
  - destruct s; cbn; rewrite ?Ey; cbn; auto.
Qed.

(** A leaky bucket whose capacity is zero or negative denies every request,
    whatever its state, its leak rate and the clock: the leak leaves a level
    that is NaN or not below zero. *)
Theorem lb_capacity_not_positive_denies
  (lb : LeakyBucket.LeakyBucket float) (now : Time) :
  (LeakyBucket.capacity lb <=? 0)%float = true ->
  fst (LeakyBucket.AllowRequest lb now) = false /\
  snd (LeakyBucket.AllowRequest lb now) = LeakyBucket.leak lb now.
Proof.
  intros Hc. unfold LeakyBucket.AllowRequest. cbv zeta. cbn [f_lt binary64].
  assert ((LeakyBucket.water (LeakyBucket.leak lb now)
           <? LeakyBucket.capacity (LeakyBucket.leak lb now))%float = false) as Hlevel.
  { cbn [LeakyBucket.leak LeakyBucket.water LeakyBucket.capacity f_max f_of_int binary64].
    change (IEEE.of_int 0) with 0%float.
    pose proof (fmax_zero_nonneg
                  (LeakyBucket.water lb
                   - Seconds (F:=float) (Sub now (LeakyBucket.lastTime lb))
                     * LeakyBucket.leakRate lb)%float) as Hw.
    cbn [f_sub f_mul binary64].
    rewrite FloatAxioms.leb_spec in Hc. change (Prim2SF 0) with (S754_zero false) in Hc.
    rewrite FloatAxioms.ltb_spec.
    destruct (Prim2SF (IEEE.fmax 0 _)) as [sw|sw| |sw mw ew];
      destruct (Prim2SF (LeakyBucket.capacity lb)) as [sc|sc| |sc mc ec];
      cbn in Hw, Hc |- *; subst; try reflexivity; try discriminate;
      destruct sc; try reflexivity; try discriminate. }
  rewrite Hlevel. split; reflexivity.
Qed.

(** ** Fixed window counter: the count and the window *)

Lemma is_int_between (lo hi z : Z) :
  GoInt.is_int lo = true -> GoInt.is_int hi = true -> lo <= z <= hi ->
  GoInt.is_int z = true.
Proof.
  unfold GoInt.is_int. intros Hlo Hhi Hz.
  apply andb_prop in Hlo as [Hlo _]. apply andb_prop in Hhi as [_ Hhi].
  apply Z.leb_le in Hlo, Hhi.
  apply andb_true_intro. split; apply Z.leb_le; lia.
Qed.

Lemma fwc_history_count (limit : Z) (windowSize : Duration)
  (fwc : FixedWindowCounter.FixedWindowCounter) :
  0 <= limit -> GoInt.is_int limit = true ->
  fwc_history limit windowSize fwc ->
  FixedWindowCounter.limit fwc = limit /\
  FixedWindowCounter.windowSize fwc = windowSize /\
  0 <= FixedWindowCounter.count fwc <= limit.
Proof.
  intros Hlimit Hint Hhist.
  induction Hhist as [t0 | op now fwc Hhist (El & Ew & Hc) Hnow].
  - cbn. repeat split; lia.
  - destruct op; cbn [fwc_step].
    + unfold FixedWindowCounter.AllowRequest.
      destruct (_ <=? _);
        cbn [FixedWindowCounter.count FixedWindowCounter.limit];
        rewrite ?El.
      * destruct (Z.ltb_spec 0 limit);
          cbn [snd FixedWindowCounter.count FixedWindowCounter.limit
               FixedWindowCounter.windowSize]; repeat split; auto; try lia;
          change (GoInt.incr 0) with 1; lia.
      * destruct (Z.ltb_spec (FixedWindowCounter.count fwc) limit) as [Hlt|Hge];
          cbn [snd FixedWindowCounter.count FixedWindowCounter.limit
               FixedWindowCounter.windowSize]; repeat split; auto; try lia;
          rewrite (incr_below_limit _ limit) by
            (try assumption; apply (is_int_between 0 limit); auto); lia.
    + unfold FixedWindowCounter.GetCurrentCount. destruct (_ <=? _); cbn; auto.
    + unfold FixedWindowCounter.GetTimeUntilReset. destruct (_ <=? _); cbn; auto.
    + unfold FixedWindowCounter.GetWindowInfo. destruct (_ <=? _); cbn; auto.
Qed.

(** The counter never passes the limit.  For a limit that is a non-negative
    [int], in every state of a history [0 <= count <= limit], and the limit and
    the window size stay as constructed. *)
Theorem fwc_count_within_limit (limit : Z) (windowSize : Duration)
  (fwc : FixedWindowCounter.FixedWindowCounter) :
  0 <= limit -> GoInt.is_int limit = true ->
  fwc_history limit windowSize fwc ->
  0 <= FixedWindowCounter.count fwc <= limit /\
  FixedWindowCounter.limit fwc = limit /\
  FixedWindowCounter.windowSize fwc = windowSize.
Proof.
  intros Hlimit Hint Hhist.
  destruct (fwc_history_count limit windowSize fwc Hlimit Hint Hhist) as (El & Ew & Hc).
  auto.
Qed.

(** Requests inside the current window are admitted until the count reaches
    the limit and denied from then on; the window start does not move. *)
Lemma fwc_run_in_window (times : list Time) :
  forall fwc : FixedWindowCounter.FixedWindowCounter,
  GoInt.is_int (FixedWindowCounter.limit fwc) = true ->
  0 <= FixedWindowCounter.count fwc <= FixedWindowCounter.limit fwc ->
  Forall (fun t => Sub t (FixedWindowCounter.startTime fwc)
                   < FixedWindowCounter.windowSize fwc) times ->
  let k := Nat.min (length times)
             (Z.to_nat (FixedWindowCounter.limit fwc - FixedWindowCounter.count fwc)) in
  fst (fwc_run fwc times) = repeat true k ++ repeat false (length times - k) /\
  snd (fwc_run fwc times) =
    {| FixedWindowCounter.limit := FixedWindowCounter.limit fwc;
       FixedWindowCounter.windowSize := FixedWindowCounter.windowSize fwc;
       FixedWindowCounter.count := FixedWindowCounter.count fwc + Z.of_nat k;
       FixedWindowCounter.startTime := FixedWindowCounter.startTime fwc |}.
Proof.
  induction times as [|now rest IH]; intros fwc Hint Hc Hin; cbv zeta.
  - cbn. rewrite Z.add_0_r. destruct fwc; split; reflexivity.
  - inversion_clear Hin as [|? ? Hnow Hrest].
    cbn [fwc_run]. rewrite (fwc_AllowRequest_in_window fwc now Hnow).
    destruct (Z.ltb_spec (FixedWindowCounter.count fwc) (FixedWindowCounter.limit fwc))
      as [Hlt|Hge].
    + rewrite (incr_below_limit _ (FixedWindowCounter.limit fwc))
        by (try assumption;
            apply (is_int_between 0 (FixedWindowCounter.limit fwc)); auto; lia).
      set (fwc1 := {| FixedWindowCounter.limit := FixedWindowCounter.limit fwc;
                      FixedWindowCounter.windowSize := FixedWindowCounter.windowSize fwc;
                      FixedWindowCounter.count := FixedWindowCounter.count fwc + 1;
                      FixedWindowCounter.startTime := FixedWindowCounter.startTime fwc |}).
      destruct (IH fwc1) as [IHoks IHst]; [exact Hint | cbn; lia | exact Hrest |].
      destruct (fwc_run fwc1 rest) as [oks fwc2]. cbn [fst snd] in *.
      cbn [FixedWindowCounter.limit FixedWindowCounter.count fwc1
           FixedWindowCounter.windowSize FixedWindowCounter.startTime] in IHoks, IHst.
      replace (Z.to_nat (FixedWindowCounter.limit fwc - FixedWindowCounter.count fwc))
        with (S (Z.to_nat (FixedWindowCounter.limit fwc
                           - (FixedWindowCounter.count fwc + 1)))) by lia.
      cbn [length Nat.min Nat.sub repeat app].
      rewrite IHoks, IHst. split; [reflexivity|]. f_equal. lia.
    + destruct (IH fwc) as [IHoks IHst]; [exact Hint | exact Hc | exact Hrest |].
      destruct (fwc_run fwc rest) as [oks fwc2]. cbn [fst snd] in *.
      replace (Z.to_nat (FixedWindowCounter.limit fwc - FixedWindowCounter.count fwc))
        with 0%nat in * by lia.
      rewrite Nat.min_0_r in *. cbn [length repeat app Nat.sub] in *.
      rewrite Nat.sub_0_r in IHoks. rewrite IHoks, IHst. split; reflexivity.
Qed.

(** A burst inside a fresh window: of [n] requests that all fall inside the
    window opened by the constructor, exactly the first [min n limit] are
    admitted, for every limit that is a non-negative [int]. *)
Theorem fwc_burst_in_fresh_window (limit : Z) (windowSize : Duration) (t0 : Time)
  (times : list Time) :
  0 <= limit -> GoInt.is_int limit = true ->
  Forall (fun t => Sub t t0 < windowSize) times ->
  let k := Nat.min (length times) (Z.to_nat limit) in
  fst (fwc_run (FixedWindowCounter.NewFixedWindowCounter limit windowSize t0) times)
  = repeat true k ++ repeat false (length times - k).
Proof.
  intros Hlimit Hint Hin. cbv zeta.
  destruct (fwc_run_in_window times
              (FixedWindowCounter.NewFixedWindowCounter limit windowSize t0))
    as [Hoks _]; cbn; try assumption; try lia.
  cbn in Hoks. rewrite Z.sub_0_r in Hoks. exact Hoks.
Qed.

Lemma fwc_run_app (l1 l2 : list Time) :
  forall fwc : FixedWindowCounter.FixedWindowCounter,
  fwc_run fwc (l1 ++ l2) =
    (fst (fwc_run fwc l1) ++ fst (fwc_run (snd (fwc_run fwc l1)) l2),
     snd (fwc_run (snd (fwc_run fwc l1)) l2)).
Proof.
  induction l1 as [|now rest IH]; intros fwc.
  - cbn. destruct (fwc_run fwc l2); reflexivity.
  - cbn [app fwc_run].
    destruct (FixedWindowCounter.AllowRequest fwc now) as [ok fwc1].
    rewrite (IH fwc1).
    destruct (fwc_run fwc1 rest) as [oks fwc2]. reflexivity.
Qed.

(** The boundary burst.  With a limit that is a positive [int], [limit]
    requests inside the first window followed by [limit] requests that start
    at or after its end and fall inside the window the first of them opens are
    all admitted: twice the limit, however close the two bursts are to the
    boundary. *)
Theorem fwc_double_burst_across_boundary
  (limit : Z) (windowSize : Duration) (t0 : Time)
  (times1 : list Time) (t : Time) (times2 : list Time) :
  0 <= limit -> GoInt.is_int limit = true ->
  Forall (fun t1 => Sub t1 t0 < windowSize) times1 ->
  windowSize <= Sub t t0 ->
  Forall (fun t2 => Sub t2 t < windowSize) times2 ->
  length times1 = Z.to_nat limit ->
  S (length times2) = Z.to_nat limit ->
  fst (fwc_run (FixedWindowCounter.NewFixedWindowCounter limit windowSize t0)
               (times1 ++ t :: times2))
  = repeat true (Z.to_nat limit + Z.to_nat limit).
Proof.
  intros Hlimit Hint Hin1 Hexp Hin2 Hlen1 Hlen2.
  rewrite fwc_run_app. cbn [fst].
  destruct (fwc_run_in_window times1
              (FixedWindowCounter.NewFixedWindowCounter limit windowSize t0))
    as [Hoks1 Hst1]; cbn; try assumption; try lia.
  cbn in Hoks1, Hst1. rewrite Z.sub_0_r in Hoks1, Hst1.
  rewrite Hlen1, Nat.min_id, Nat.sub_diag in Hoks1. cbn [repeat] in Hoks1.
  rewrite app_nil_r in Hoks1.
  rewrite Hlen1, Nat.min_id in Hst1.
  rewrite Hoks1, Hst1. clear Hoks1 Hst1.
  cbn [fwc_run]. unfold FixedWindowCounter.AllowRequest at 1.
  cbn [FixedWindowCounter.windowSize FixedWindowCounter.startTime].
  destruct (Z.leb_spec windowSize (Sub t t0)) as [_|Hno]; [|lia].
  cbn [FixedWindowCounter.count FixedWindowCounter.limit
       FixedWindowCounter.windowSize FixedWindowCounter.startTime].
  destruct (Z.ltb_spec 0 limit) as [Hpos|Hzero]; [|lia].
  change (GoInt.incr 0) with 1.
  set (fwc1 := {| FixedWindowCounter.limit := limit;
                  FixedWindowCounter.windowSize := windowSize;
                  FixedWindowCounter.count := 1;
                  FixedWindowCounter.startTime := t |}).
  destruct (fwc_run_in_window times2 fwc1) as [Hoks2 _]; cbn; try assumption; try lia.
  cbn in Hoks2.
  destruct (fwc_run fwc1 times2) as [oks2 fwc2]. cbn [fst] in *.
  replace (Nat.min (length times2) (Z.to_nat (limit - 1))) with (length times2)
    in Hoks2 by lia.
  rewrite Nat.sub_diag in Hoks2. cbn [repeat] in Hoks2. rewrite app_nil_r in Hoks2.
  rewrite Hoks2.
  change (true :: repeat true (length times2)) with (repeat true (S (length times2))).
  rewrite Hlen2. symmetry. apply repeat_app.
Qed.

(** Waiting out [GetTimeUntilReset].  Under the monotonic clock and for an
    [int] window size, the time [GetTimeUntilReset] returns is 0 on an expired
    window and [windowSize - (now - startTime)], between 1 and [windowSize],
    on an active one; and an [AllowRequest] that reads the clock that much
    later finds the window expired: it opens a new window at its own clock
    reading and admits the request whenever the limit is positive. *)
Theorem fwc_wait_until_reset
  (fwc : FixedWindowCounter.FixedWindowCounter) (now : Time) :
  FixedWindowCounter.startTime fwc <= now ->
  GoInt.is_int (FixedWindowCounter.windowSize fwc) = true ->
  let r := fst (FixedWindowCounter.GetTimeUntilReset fwc now) in
  (FixedWindowCounter.windowSize fwc <= now - FixedWindowCounter.startTime fwc ->
     r = 0) /\
  (now - FixedWindowCounter.startTime fwc < FixedWindowCounter.windowSize fwc ->
     r = FixedWindowCounter.windowSize fwc - (now - FixedWindowCounter.startTime fwc)
     /\ 0 < r <= FixedWindowCounter.windowSize fwc) /\
  FixedWindowCounter.AllowRequest fwc (now + r) =
    (0 <? FixedWindowCounter.limit fwc,
     {| FixedWindowCounter.limit := FixedWindowCounter.limit fwc;
        FixedWindowCounter.windowSize := FixedWindowCounter.windowSize fwc;
        FixedWindowCounter.count := if 0 <? FixedWindowCounter.limit fwc then 1 else 0;
        FixedWindowCounter.startTime := now + r |}).
Proof.
  intros Hnow Hw. cbv zeta.
  pose proof Hw as Hw'. unfold GoInt.is_int, GoInt.minInt64, GoInt.maxInt64 in Hw'.
  apply andb_prop in Hw' as [Hw1 Hw2]. apply Z.leb_le in Hw1, Hw2.
  unfold FixedWindowCounter.GetTimeUntilReset. cbv zeta.
  rewrite (fwc_expired_exact _ _ _ Hw Hnow).
  destruct (Z.leb_spec (FixedWindowCounter.windowSize fwc)
                       (now - FixedWindowCounter.startTime fwc)) as [Hexp|Hact];
    cbn [fst].
  - split; [reflexivity | split; [lia|]].
    rewrite Z.add_0_r. unfold FixedWindowCounter.AllowRequest.
    rewrite (fwc_expired_exact _ _ _ Hw Hnow).
    destruct (Z.leb_spec (FixedWindowCounter.windowSize fwc)
                         (now - FixedWindowCounter.startTime fwc)); [|lia].
    cbn [FixedWindowCounter.count FixedWindowCounter.limit
         FixedWindowCounter.windowSize FixedWindowCounter.startTime].
    destruct (0 <? FixedWindowCounter.limit fwc); reflexivity.
  - assert (Sub now (FixedWindowCounter.startTime fwc)
            = now - FixedWindowCounter.startTime fwc) as Esub
      by (apply Sub_exact;
          unfold minDuration, maxDuration, GoInt.minInt64, GoInt.maxInt64; lia).
    rewrite Esub.
    assert (GoInt.sub (FixedWindowCounter.windowSize fwc)
                      (now - FixedWindowCounter.startTime fwc)
            = FixedWindowCounter.windowSize fwc
              - (now - FixedWindowCounter.startTime fwc)) as Er
      by (unfold GoInt.sub, GoInt.wrap; rewrite Z.mod_small; lia).
    rewrite Er.
    split; [lia | split; [intros _; split; [reflexivity | lia]|]].
    unfold FixedWindowCounter.AllowRequest. cbv zeta.
    assert (FixedWindowCounter.startTime fwc
            <= now + (FixedWindowCounter.windowSize fwc
                      - (now - FixedWindowCounter.startTime fwc))) as Hlater by lia.
    rewrite (fwc_expired_exact _ _ _ Hw Hlater).
    destruct (Z.leb_spec (FixedWindowCounter.windowSize fwc)
                (now + (FixedWindowCounter.windowSize fwc
                        - (now - FixedWindowCounter.startTime fwc))
                 - FixedWindowCounter.startTime fwc)); [|lia].
    cbn [FixedWindowCounter.count FixedWindowCounter.limit
         FixedWindowCounter.windowSize FixedWindowCounter.startTime].
    destruct (0 <? FixedWindowCounter.limit fwc); reflexivity.
Qed.

(** ** Sliding window log: what the cleanup keeps *)

Lemma filter_all (f : Time -> bool) (l : list Time) :
  Forall (fun ts => f ts = true) l -> filter f l = l.
Proof.
  induction 1 as [|ts l Hts _ IH]; cbn; [reflexivity|].
  rewrite Hts, IH. reflexivity.
Qed.

(** On a sorted log the cleanup keeps exactly the entries after the cutoff. *)
Lemma cleanupLoop_filter (cutoff : Time) (l : list Time) :
  Sorted Z.le l ->
  SlidingWindowLog.cleanupLoop cutoff l = filter (fun ts => cutoff <? ts) l.
Proof.
  intros Hs. apply Sorted_StronglySorted in Hs; [|exact Z.le_trans].
  induction Hs as [|ts l Hs IH Hle]; [reflexivity|].
  cbn [SlidingWindowLog.cleanupLoop filter]. unfold After.
  destruct (Z.ltb_spec cutoff ts) as [Hafter|Hold]; [|exact IH].
  f_equal. symmetry. apply filter_all.
  eapply Forall_impl; [|exact Hle]. cbn. intros a Ha. apply Z.ltb_lt. lia.
Qed.

(** Cleaning twice at one cutoff is cleaning once. *)
Lemma cleanupLoop_idempotent (cutoff : Time) (l : list Time) :
  SlidingWindowLog.cleanupLoop cutoff (SlidingWindowLog.cleanupLoop cutoff l)
  = SlidingWindowLog.cleanupLoop cutoff l.
Proof.
  destruct (cleanupLoop_split cutoff l) as [removed [_ [_ Hfront]]].
  destruct (SlidingWindowLog.cleanupLoop cutoff l) as [|ts kept]; [reflexivity|].
  cbn [SlidingWindowLog.cleanupLoop]. unfold After.
  apply Z.ltb_lt in Hfront. rewrite Hfront. reflexivity.
Qed.

Lemma cleanupOldRequests_idempotent
  (swl : SlidingWindowLog.SlidingWindowLog) (now : Time) :
  SlidingWindowLog.cleanupOldRequests (SlidingWindowLog.cleanupOldRequests swl now) now
  = SlidingWindowLog.cleanupOldRequests swl now.
Proof.
  unfold SlidingWindowLog.cleanupOldRequests at 1 3.
  cbn [SlidingWindowLog.limit SlidingWindowLog.windowSize SlidingWindowLog.requests
       SlidingWindowLog.cleanupOldRequests].
  f_equal. apply cleanupLoop_idempotent.
Qed.

(** [GetCurrentCount] counts the window and nothing older.  In a history under
    the monotonic clock, for a window size whose negation does not wrap, it
    returns the number of logged timestamps after [now - windowSize] and leaves
    exactly those in the log. *)
Theorem swl_GetCurrentCount_counts_window
  (limit : Z) (windowSize : Duration) (last now : Time)
  (swl : SlidingWindowLog.SlidingWindowLog) :
  minDuration < windowSize <= maxDuration ->
  swl_history limit windowSize last swl ->
  let inWindow := filter (fun ts => now - windowSize <? ts)
                         (SlidingWindowLog.requests swl) in
  fst (SlidingWindowLog.GetCurrentCount swl now) = Z.of_nat (length inWindow) /\
  SlidingWindowLog.requests (snd (SlidingWindowLog.GetCurrentCount swl now)) = inWindow.
Proof.
  intros Hw Hhist. cbv zeta.
  destruct (swl_history_parameters _ _ _ _ Hhist) as [_ Ew].
  destruct (swl_history_sorted _ _ _ _ Hhist) as [Hs _].
  apply StronglySorted_Sorted in Hs.
  cbn [SlidingWindowLog.GetCurrentCount SlidingWindowLog.cleanupOldRequests
       SlidingWindowLog.requests fst snd].
  rewrite (cutoffTime_exact swl now) by (rewrite Ew; exact Hw).
  rewrite Ew, (cleanupLoop_filter _ _ Hs). split; reflexivity.
Qed.

(** When [GetTimeUntilSlotAvailable] panics.  It dereferences the front of an
    empty deque exactly when the limit is zero or negative and the cleanup
    leaves no timestamp; with a positive limit it always returns a duration. *)
Theorem swl_GetTimeUntilSlotAvailable_panics_iff
  (swl : SlidingWindowLog.SlidingWindowLog) (now : Time) :
  (fst (SlidingWindowLog.GetTimeUntilSlotAvailable swl now) = None <->
   SlidingWindowLog.limit swl <= 0 /\
   SlidingWindowLog.requests (SlidingWindowLog.cleanupOldRequests swl now) = []) /\
  snd (SlidingWindowLog.GetTimeUntilSlotAvailable swl now)
  = SlidingWindowLog.cleanupOldRequests swl now.
Proof.
  unfold SlidingWindowLog.GetTimeUntilSlotAvailable. cbv zeta.
  cbn [SlidingWindowLog.limit SlidingWindowLog.cleanupOldRequests].
  set (cleaned := SlidingWindowLog.requests (SlidingWindowLog.cleanupOldRequests swl now)).
  cbn [SlidingWindowLog.requests SlidingWindowLog.cleanupOldRequests] in cleaned.
  fold cleaned.
  unfold SlidingWindowLog.Len.
  destruct (Z.ltb_spec (Z.of_nat (length cleaned)) (SlidingWindowLog.limit swl))
    as [Hlt|Hge].
  - split; [|reflexivity]. split; [discriminate|].
    intros [Hl Hc]. rewrite Hc in Hlt. cbn in Hlt. lia.
  - destruct cleaned as [|oldest rest] eqn:Ec.
    + split; [|reflexivity]. split; [intros _; cbn in Hge; split; [lia | reflexivity]|].
      reflexivity.
    + destruct (After _ _); (split; [|reflexivity]);
        (split; [discriminate | intros [_ Hc]; discriminate]).
Qed.

(** Reads at an unchanged clock.  Each read of the log, repeated at the same
    clock reading on the state the first call left, returns the same value and
    the same state: the second cleanup finds nothing to remove. *)
Theorem swl_reads_repeat (swl : SlidingWindowLog.SlidingWindowLog) (now : Time) :
  SlidingWindowLog.GetCurrentCount
    (snd (SlidingWindowLog.GetCurrentCount swl now)) now
  = SlidingWindowLog.GetCurrentCount swl now /\
  SlidingWindowLog.GetOldestRequestAge
    (snd (SlidingWindowLog.GetOldestRequestAge swl now)) now
  = SlidingWindowLog.GetOldestRequestAge swl now /\
  SlidingWindowLog.GetTimeUntilSlotAvailable
    (snd (SlidingWindowLog.GetTimeUntilSlotAvailable swl now)) now
  = SlidingWindowLog.GetTimeUntilSlotAvailable swl now /\
  SlidingWindowLog.GetWindowInfo (F:=float)
    (snd (SlidingWindowLog.GetWindowInfo (F:=float) swl now)) now
  = SlidingWindowLog.GetWindowInfo (F:=float) swl now /\
  SlidingWindowLog.GetRequestTimestamps
    (snd (SlidingWindowLog.GetRequestTimestamps swl now)) now
  = SlidingWindowLog.GetRequestTimestamps swl now.
Proof.
  assert (forall op, op <> opAllowRequest ->
            swl_step op swl now = SlidingWindowLog.cleanupOldRequests swl now) as Hstate.
  { intros op Hop. destruct (swl_step_requests op swl now) as (El & Ew & Er).
    destruct (swl_step op swl now) as [l w r] eqn:Es.
    cbn [SlidingWindowLog.limit SlidingWindowLog.windowSize SlidingWindowLog.requests]
      in El, Ew, Er.
    unfold SlidingWindowLog.cleanupOldRequests. subst l w.
    destruct op; try congruence; rewrite Er; reflexivity. }
  pose proof (Hstate opGetCurrentCount ltac:(discriminate)) as E1.
  pose proof (Hstate opGetOldestRequestAge ltac:(discriminate)) as E2.
  pose proof (Hstate opGetTimeUntilSlotAvailable ltac:(discriminate)) as E3.
  pose proof (Hstate opGetWindowInfo ltac:(discriminate)) as E4.
  pose proof (Hstate opGetRequestTimestamps ltac:(discriminate)) as E5.
  cbn [swl_step] in E1, E2, E3, E4, E5.
  rewrite E1, E2, E3, E4, E5.
  unfold SlidingWindowLog.GetCurrentCount, SlidingWindowLog.GetOldestRequestAge,
    SlidingWindowLog.GetTimeUntilSlotAvailable, SlidingWindowLog.GetWindowInfo,
    SlidingWindowLog.GetRequestTimestamps.
  cbv zeta. rewrite !cleanupOldRequests_idempotent.
  repeat split; reflexivity.
Qed.

Lemma swl_history_within_window (limit : Z) (windowSize : Duration) (last : Time)
  (swl : SlidingWindowLog.SlidingWindowLog) :
  0 < windowSize <= maxDuration ->
  swl_history limit windowSize last swl ->
  Forall (fun ts => last - windowSize < ts) (SlidingWindowLog.requests swl).
Proof.
  intros Hw Hhist.
  induction Hhist as [t0 | op last now swl Hhist IH Hnow]; [constructor|].
  destruct (swl_history_parameters _ _ _ _ Hhist) as [_ Ew].
  destruct (swl_history_sorted _ _ _ _ Hhist) as [Hs _].
  destruct (swl_step_requests op swl now) as [_ [_ Ereq]].
  cbn [SlidingWindowLog.cleanupOldRequests SlidingWindowLog.requests] in Ereq.
  assert (SlidingWindowLog.cutoffTime swl now = now - windowSize) as Ec
    by (rewrite <- Ew; apply cutoffTime_exact; rewrite Ew;
        unfold minDuration, GoInt.minInt64; lia).
  rewrite Ec in Ereq.
  pose proof (cleanupLoop_sorted_after (now - windowSize) _ (StronglySorted_Sorted Hs))
    as Hkept.
  rewrite Ereq. destruct op; try exact Hkept.
  destruct (_ <? _); [|exact Hkept].
  apply Forall_app. split; [exact Hkept | repeat constructor; lia].
Qed.

(** The log invariant.  In every state of a history under the monotonic clock,
    for a positive window size, the log is sorted ascending and each of its
    timestamps lies in the window that ends at the latest clock reading:
    [last - windowSize < ts <= last]. *)
Theorem swl_log_sorted_within_window
  (limit : Z) (windowSize : Duration) (last : Time)
  (swl : SlidingWindowLog.SlidingWindowLog) :
  0 < windowSize <= maxDuration ->
  swl_history limit windowSize last swl ->
  Sorted Z.le (SlidingWindowLog.requests swl) /\
  Forall (fun ts => last - windowSize < ts <= last) (SlidingWindowLog.requests swl).
Proof.
  intros Hw Hhist.
  destruct (swl_history_sorted _ _ _ _ Hhist) as [Hs Hle].
  pose proof (swl_history_within_window _ _ _ _ Hw Hhist) as Hin.
  split; [apply StronglySorted_Sorted, Hs|].
  rewrite Forall_forall in *. intros ts Hts. split; [apply Hin | apply Hle]; exact Hts.
Qed.

(** The age of the oldest request.  In a history under the monotonic clock,
    for a window size whose negation does not wrap, [GetOldestRequestAge]
    returns 0 when the cleanup leaves the log empty, and otherwise the exact
    distance from the oldest retained timestamp to [now], which is at least 0
    and below the window size. *)
Theorem swl_GetOldestRequestAge_below_window
  (limit : Z) (windowSize : Duration) (last now : Time)
  (swl : SlidingWindowLog.SlidingWindowLog) :
  minDuration < windowSize <= maxDuration ->
  swl_history limit windowSize last swl ->
  last <= now ->
  let age := fst (SlidingWindowLog.GetOldestRequestAge swl now) in
  match SlidingWindowLog.requests (SlidingWindowLog.cleanupOldRequests swl now) with
  | [] => age = 0
  | oldest :: _ => age = now - oldest /\ 0 <= age < windowSize
  end.
Proof.
  intros Hw Hhist Hnow. cbv zeta.
  destruct (swl_history_parameters _ _ _ _ Hhist) as [_ Ew].
  destruct (swl_history_sorted _ _ _ _ Hhist) as [_ Hle].
  unfold SlidingWindowLog.GetOldestRequestAge. cbv zeta.
  cbn [SlidingWindowLog.cleanupOldRequests SlidingWindowLog.requests].
  destruct (cleanupLoop_split (SlidingWindowLog.cutoffTime swl now)
              (SlidingWindowLog.requests swl)) as [removed [Heq [_ Hfront]]].
  rewrite (cutoffTime_exact swl now) in * by (rewrite Ew; exact Hw).
  rewrite Ew in *.
  destruct (SlidingWindowLog.cleanupLoop (now - windowSize)
              (SlidingWindowLog.requests swl)) as [|oldest kept]; [reflexivity|].
  cbn [fst].
  assert (oldest <= last) as Hold.
  { rewrite Heq in Hle. apply Forall_app in Hle as [_ Hle].
    inversion_clear Hle. assumption. }
  assert (Sub now oldest = now - oldest) as Esub
    by (apply Sub_exact;
        unfold minDuration, maxDuration, GoInt.minInt64, GoInt.maxInt64 in *; lia).
  rewrite Esub. split; [reflexivity | lia].
Qed.

Lemma swl_history_size_nonempty (limit : Z) (windowSize : Duration) (last : Time)
  (swl : SlidingWindowLog.SlidingWindowLog) :
  swl_history limit windowSize last swl ->
  SlidingWindowLog.requests swl = [] \/
  SlidingWindowLog.Len (SlidingWindowLog.requests swl) <= limit.
Proof.
  intros Hhist.
  induction Hhist as [t0 | op last now swl Hhist IH Hnow]; [left; reflexivity|].
  destruct (swl_history_parameters _ _ _ _ Hhist) as [El _].
  destruct (swl_step_requests op swl now) as [_ [_ Ereq]].
  cbn [SlidingWindowLog.cleanupOldRequests SlidingWindowLog.requests] in Ereq.
  destruct (cleanupLoop_split (SlidingWindowLog.cutoffTime swl now)
              (SlidingWindowLog.requests swl)) as [removed [Heq _]].
  pose proof (cleanupLoop_length (SlidingWindowLog.cutoffTime swl now)
                (SlidingWindowLog.requests swl)) as Hlen.
  assert (SlidingWindowLog.cleanupLoop (SlidingWindowLog.cutoffTime swl now)
            (SlidingWindowLog.requests swl) = [] \/
          SlidingWindowLog.Len
            (SlidingWindowLog.cleanupLoop (SlidingWindowLog.cutoffTime swl now)
               (SlidingWindowLog.requests swl)) <= limit) as Hkept.
  { destruct IH as [IH|IH].
    - left. rewrite IH. reflexivity.
    - right. unfold SlidingWindowLog.Len in *. lia. }
  rewrite Ereq. destruct op; try exact Hkept.
  rewrite El.
  destruct (Z.ltb_spec
              (SlidingWindowLog.Len
                 (SlidingWindowLog.cleanupLoop (SlidingWindowLog.cutoffTime swl now)
                    (SlidingWindowLog.requests swl))) limit) as [Hlt|Hge];
    [|exact Hkept].
  right. unfold SlidingWindowLog.Len in *. rewrite length_app. cbn [length]. lia.
Qed.

Lemma GetTimeUntilSlotAvailable_state
  (swl : SlidingWindowLog.SlidingWindowLog) (now : Time) :
  snd (SlidingWindowLog.GetTimeUntilSlotAvailable swl now)
  = SlidingWindowLog.cleanupOldRequests swl now.
Proof.
  unfold SlidingWindowLog.GetTimeUntilSlotAvailable. cbv zeta.
  destruct (_ <? _); [reflexivity|].
  destruct (SlidingWindowLog.requests _); [reflexivity|].
  destruct (After _ _); reflexivity.
Qed.

Lemma AllowRequest_after_cleanup
  (swl : SlidingWindowLog.SlidingWindowLog) (now t : Time) :
  fst (SlidingWindowLog.AllowRequest (SlidingWindowLog.cleanupOldRequests swl now) t)
  = (SlidingWindowLog.Len
       (SlidingWindowLog.cleanupLoop (SlidingWindowLog.cutoffTime swl t)
          (SlidingWindowLog.cleanupLoop (SlidingWindowLog.cutoffTime swl now)
             (SlidingWindowLog.requests swl)))
     <? SlidingWindowLog.limit swl).
Proof.
  unfold SlidingWindowLog.AllowRequest. cbv zeta.
  cbn [SlidingWindowLog.cleanupOldRequests SlidingWindowLog.requests
       SlidingWindowLog.limit].
  change (SlidingWindowLog.cutoffTime _ t) with (SlidingWindowLog.cutoffTime swl t).
  destruct (_ <? _); reflexivity.
Qed.

(** Waiting out [GetTimeUntilSlotAvailable].  In a history under the monotonic
    clock, for a window size whose negation does not wrap, a duration [d] that
    [GetTimeUntilSlotAvailable] returns is at least 0 and at most the window
    size, and an [AllowRequest] that reads the clock [d] later is admitted. *)
Theorem swl_wait_until_slot
  (limit : Z) (windowSize : Duration) (last now : Time)
  (swl : SlidingWindowLog.SlidingWindowLog) (d : Duration) :
  0 < windowSize <= maxDuration ->
  swl_history limit windowSize last swl ->
  last <= now ->
  fst (SlidingWindowLog.GetTimeUntilSlotAvailable swl now) = Some d ->
  0 <= d <= windowSize /\
  fst (SlidingWindowLog.AllowRequest
         (snd (SlidingWindowLog.GetTimeUntilSlotAvailable swl now)) (now + d)) = true.
Proof.
  intros Hw Hhist Hnow Hd.
  destruct (swl_history_parameters _ _ _ _ Hhist) as [El Ew].
  destruct (swl_history_sorted _ _ _ _ Hhist) as [_ Hle].
  assert (minDuration < SlidingWindowLog.windowSize swl <= maxDuration) as Hw'
    by (rewrite Ew; unfold minDuration, GoInt.minInt64; lia).
  rewrite GetTimeUntilSlotAvailable_state, AllowRequest_after_cleanup.
  rewrite !cutoffTime_exact by exact Hw'.
  revert Hd. unfold SlidingWindowLog.GetTimeUntilSlotAvailable. cbv zeta.
  cbn [SlidingWindowLog.cleanupOldRequests SlidingWindowLog.requests
       SlidingWindowLog.limit SlidingWindowLog.windowSize].
  rewrite cutoffTime_exact by exact Hw'. rewrite Ew, El.
  destruct (cleanupLoop_split (now - windowSize) (SlidingWindowLog.requests swl))
    as [removed [Heq [_ Hfront]]].
  pose proof (cleanupLoop_length (now - windowSize) (SlidingWindowLog.requests swl))
    as Hlen.
  pose proof (cleanupLoop_idempotent (now - windowSize) (SlidingWindowLog.requests swl))
    as Hidem.
  destruct (swl_history_size_nonempty _ _ _ _ Hhist) as [Hempty|Hsize].
  - (* an empty log: a slot is free now, or the query panics *)
    rewrite Hempty. cbn [SlidingWindowLog.cleanupLoop SlidingWindowLog.Len length Z.of_nat].
    destruct (0 <? limit) eqn:Hpos; [|discriminate].
    cbn [fst]. intros Hd. injection Hd as Hd. subst d. split; [lia | reflexivity].
  - set (cleaned := SlidingWindowLog.cleanupLoop (now - windowSize)
                      (SlidingWindowLog.requests swl)) in *.
    destruct (Z.ltb_spec (SlidingWindowLog.Len cleaned) limit) as [Hfree|Hfull].
    + (* a slot is free now *)
      cbn [fst]. intros Hd. injection Hd as Hd. subst d.
      split; [lia|]. rewrite Z.add_0_r, Hidem. apply Z.ltb_lt, Hfree.
    + (* the log is full: wait until the oldest entry leaves the window *)
      destruct cleaned as [|oldest kept] eqn:Ecleaned; [discriminate|].
      assert (oldest <= last) as Hold.
      { rewrite Heq in Hle. apply Forall_app in Hle as [_ Hle].
        inversion_clear Hle. assumption. }
      unfold After, Add.
      destruct (Z.ltb_spec now (oldest + windowSize)) as [Hwait|Hgone]; [|lia].
      cbn [fst]. intros Hd. injection Hd as Hd.
      assert (Sub (oldest + windowSize) now = oldest + windowSize - now) as Esub
        by (apply Sub_exact;
            unfold minDuration, maxDuration, GoInt.minInt64, GoInt.maxInt64 in *; lia).
      rewrite Esub in Hd. subst d. split; [lia|].
      replace (now + (oldest + windowSize - now) - windowSize) with oldest by lia.
      cbn [SlidingWindowLog.cleanupLoop]. unfold After. rewrite Z.ltb_irrefl.
      pose proof (cleanupLoop_length oldest kept) as Hlen2.
      apply Z.ltb_lt. unfold SlidingWindowLog.Len in *. cbn [length] in Hlen.
      lia.
Qed.

(** ** Sliding window log: the guarantee over any window *)

Lemma filter_none {A : Type} (f : A -> bool) (l : list A) :
  Forall (fun x => f x = false) l -> filter f l = [].
Proof.
  induction 1 as [|x l Hx _ IH]; [reflexivity|]. cbn. rewrite Hx. exact IH.
Qed.

Lemma filter_length_le {A : Type} (f : A -> bool) (l : list A) :
  (length (filter f l) <= length l)%nat.
Proof.
  induction l as [|x l IH]; [constructor|]. cbn. destruct (f x); cbn; lia.
Qed.

Lemma admitted_incl (times : list Time) (oks : list bool) (ts : Time) :
  In ts (admitted times oks) -> In ts times.
Proof.
  unfold admitted. rewrite in_map_iff. intros [[t ok] [Et Hin]].
  apply filter_In in Hin as [Hin _]. cbn in Et. subst t.
  exact (in_combine_l _ _ _ _ Hin).
Qed.

Lemma admitted_cons (now : Time) (rest : list Time) (ok : bool) (oks : list bool) :
  admitted (now :: rest) (ok :: oks)
  = (if ok then [now] else []) ++ admitted rest oks.
Proof. unfold admitted. cbn. destruct ok; reflexivity. Qed.

Lemma swl_run_in_any_window (times : list Time) :
  forall (swl : SlidingWindowLog.SlidingWindowLog) (t : Time),
  minDuration < SlidingWindowLog.windowSize swl <= maxDuration ->
  SlidingWindowLog.Len (SlidingWindowLog.requests swl) <= SlidingWindowLog.limit swl ->
  Sorted Z.le times ->
  SlidingWindowLog.Len
    (filter (in_window (SlidingWindowLog.windowSize swl) t)
       (SlidingWindowLog.requests swl
        ++ admitted times (fst (swl_run swl times))))
  <= SlidingWindowLog.limit swl.
Proof.
  induction times as [|now rest IH]; intros swl t Hw Hsize Hsorted.
  - cbn [swl_run fst admitted combine filter map]. rewrite app_nil_r.
    pose proof (filter_length_le
                  (in_window (SlidingWindowLog.windowSize swl) t)
                  (SlidingWindowLog.requests swl)).
    unfold SlidingWindowLog.Len in *. lia.
  - assert (Forall (fun ts => now <= ts) rest) as Hrest.
    { apply Sorted_StronglySorted in Hsorted; [|intros x y z; lia].
      inversion_clear Hsorted. assumption. }
    assert (Sorted Z.le rest) as Hsorted' by (inversion_clear Hsorted; assumption).
    cbn [swl_run].
    destruct (SlidingWindowLog.AllowRequest swl now) as [ok swl1] eqn:Estep.
    specialize (IH swl1 t).
    destruct (swl_run swl1 rest) as [oks swl2] eqn:Erun.
    cbn [fst] in *. rewrite admitted_cons.
    destruct (cleanupLoop_split (SlidingWindowLog.cutoffTime swl now)
                (SlidingWindowLog.requests swl)) as [removed [Heq [Hremoved _]]].
    rewrite (cutoffTime_exact swl now Hw) in *.
    set (cleaned := SlidingWindowLog.cleanupLoop
                      (now - SlidingWindowLog.windowSize swl)
                      (SlidingWindowLog.requests swl)) in *.
    assert (SlidingWindowLog.limit swl1 = SlidingWindowLog.limit swl /\
            SlidingWindowLog.windowSize swl1 = SlidingWindowLog.windowSize swl /\
            SlidingWindowLog.requests swl1 = cleaned ++ (if ok then [now] else []) /\
            SlidingWindowLog.Len (SlidingWindowLog.requests swl1)
            <= SlidingWindowLog.limit swl) as [El [Ew [Ereq Hsize1]]].
    { revert Estep. unfold SlidingWindowLog.AllowRequest. cbv zeta.
      cbn [SlidingWindowLog.cleanupOldRequests SlidingWindowLog.requests
           SlidingWindowLog.limit SlidingWindowLog.windowSize].
      rewrite (cutoffTime_exact swl now Hw). fold cleaned.
      assert (SlidingWindowLog.Len cleaned
              <= SlidingWindowLog.Len (SlidingWindowLog.requests swl)) as Hlen.
      { pose proof (f_equal (@length Time) Heq) as Hl. rewrite length_app in Hl.
        unfold SlidingWindowLog.Len. lia. }
      destruct (Z.ltb_spec (SlidingWindowLog.Len cleaned) (SlidingWindowLog.limit swl))
        as [Hfree|Hfull];
        intros Estep; injection Estep as Eok Eswl; subst ok swl1;
        cbn [SlidingWindowLog.cleanupOldRequests SlidingWindowLog.requests
             SlidingWindowLog.limit SlidingWindowLog.windowSize];
        rewrite ?(cutoffTime_exact swl now Hw); fold cleaned;
        (do 3 (split; [rewrite ?app_nil_r; reflexivity|])).
      - unfold SlidingWindowLog.Len in *. rewrite length_app. cbn [length]. lia.
      - lia. }
    rewrite El, Ew, Ereq in IH. rewrite Ereq in Hsize1.
    specialize (IH Hw Hsize1 Hsorted').
    destruct (Z.lt_ge_cases t now) as [Hbefore|Hafter].
    + (* the window ends before this call: only logged entries fall in it *)
      rewrite filter_app.
      rewrite (filter_none _ ((if ok then [now] else []) ++ admitted rest oks)).
      * rewrite app_nil_r.
        pose proof (filter_length_le
                      (in_window (SlidingWindowLog.windowSize swl) t)
                      (SlidingWindowLog.requests swl)).
        unfold SlidingWindowLog.Len in *. lia.
      * apply Forall_app. split.
        -- destruct ok; repeat constructor.
           unfold in_window. apply andb_false_intro2, Z.leb_gt. exact Hbefore.
        -- apply Forall_forall. intros ts Hts. apply admitted_incl in Hts.
           rewrite Forall_forall in Hrest. specialize (Hrest ts Hts).
           unfold in_window. apply andb_false_intro2, Z.leb_gt. lia.
    + (* the window ends at or after this call: the removed entries are outside *)
      rewrite Heq, <- !app_assoc, filter_app.
      rewrite (filter_none _ removed).
      * cbn [app]. rewrite app_assoc. exact IH.
      * revert Hremoved. apply Forall_impl. intros ts Hts.
        unfold in_window. apply andb_false_intro1, Z.ltb_ge. lia.
Qed.

(** The sliding-window guarantee.  For a limit that is not negative and a
    window size whose negation does not wrap, take any run of [AllowRequest]
    calls on a new log whose clock readings do not decrease.  Whatever the
    instant [t], the admitted requests whose clock reading lies in the window
    [t - windowSize < ts <= t] number at most [limit]. *)
Theorem swl_admissions_in_any_window
  (limit : Z) (windowSize : Duration) (times : list Time) (t : Time) :
  0 <= limit ->
  minDuration < windowSize <= maxDuration ->
  Sorted Z.le times ->
  let oks := fst (swl_run (SlidingWindowLog.NewSlidingWindowLog limit windowSize) times) in
  SlidingWindowLog.Len (filter (in_window windowSize t) (admitted times oks)) <= limit.
Proof.
  intros Hl Hw Hsorted. cbv zeta.
  exact (swl_run_in_any_window times
           (SlidingWindowLog.NewSlidingWindowLog limit windowSize) t Hw Hl Hsorted).
Qed.

(** ** Buckets: reads at an unchanged clock, and waiting for a token (binary64) *)

Lemma fmin_cases (x y : float) : IEEE.fmin x y = x \/ IEEE.fmin x y = y.
Proof.
  unfold IEEE.fmin.
  destruct (is_nan y || (y <? x)%float); [right; reflexivity|].
  destruct (is_nan x || (x <? y)%float || negb (x =? 0)%float); [left; reflexivity|].
  destruct (get_sign x); [left | right]; reflexivity.
Qed.

(** Zero seconds times a finite rate is a zero, and adding a zero to a level
    gives a float that compares equal to the level. *)
Lemma add_zero_product (t r : float) :
  finite_nonneg (Prim2SF r) -> nonneg_float (Prim2SF t) ->
  nonneg_float (Prim2SF (t + 0 * r)) /\
  SFeqb (Prim2SF (t + 0 * r)) (Prim2SF t) = true /\
  (forall c, SFltb (Prim2SF (t + 0 * r)) c = SFltb (Prim2SF t) c).
Proof.
  intros Fr Ht.
  assert (exists s, Prim2SF (0 * r) = S754_zero s) as [s Ep].
  { rewrite FloatAxioms.mul_spec. change (Prim2SF 0) with (S754_zero false).
    destruct (Prim2SF r) as [sr|sr| |sr mr er]; cbn in Fr |- *; try contradiction; eauto. }
  rewrite FloatAxioms.add_spec, Ep.
  pose proof (SFleb_refl_nonneg _ Ht) as Hrefl.
  destruct (Prim2SF t) as [st|st| |st mt et]; cbn [nonneg_float] in Ht; try contradiction.
  - destruct st, s; cbn; repeat split; reflexivity.
  - subst st. cbn. repeat split; reflexivity.
  - destruct Ht as [-> Hb].
    change (SF64add (S754_finite false mt et) (S754_zero s))
      with (S754_finite false mt et).
    split; [split; [reflexivity | exact Hb]|].
    split; [|reflexivity].
    unfold SFeqb. unfold SFleb in Hrefl.
    destruct (SFcompare (S754_finite false mt et) (S754_finite false mt et)) as [[]|] eqn:E;
      try discriminate; try reflexivity.
    exfalso. rewrite (SFcompare_finite_value _ _ _ _ Hb Hb) in E.
    injection E as E. apply Qlt_alt in E. lra.
Qed.

(** A level that is at most the capacity and not strictly below it compares
    equal to it. *)
Lemma SFleb_not_ltb_eqb (t c : spec_float) :
  nonneg_float t -> valid_binary c = true ->
  SFleb t c = true -> SFltb t c = false -> SFeqb c t = true.
Proof.
  intros Ht Hv Hle Hlt.
  pose proof (SFleb_nonneg_r _ _ Ht Hv Hle) as Hc.
  destruct (nonneg_float_cases _ Ht) as [Ft | ->], (nonneg_float_cases _ Hc) as [Fc | ->].
  - apply SFeqb_value; [exact Fc | exact Ft|].
    apply (SFleb_value _ _ Ft Fc) in Hle.
    assert (~ (SF2Q t < SF2Q c)%Q) as Hn
      by (intros H; apply (SFltb_value _ _ Ft Fc) in H; congruence).
    lra.
  - exfalso. destruct t as [s|s| |s m e]; cbn in Ft; try contradiction.
    + discriminate.
    + destruct Ft as [-> _]. discriminate.
  - exfalso. destruct c as [s|s| |s m e]; cbn in Fc; try contradiction.
    + discriminate.
    + destruct Fc as [-> _]. discriminate.
  - reflexivity.
Qed.

(** A refill at the clock reading the bucket stored last changes nothing. *)
Lemma tb_refill_nothing (tb : TokenBucket.TokenBucket float) :
  (0 <=? TokenBucket.refillRate tb)%float = true ->
  (TokenBucket.refillRate tb <? infinity)%float = true ->
  (0 <=? TokenBucket.tokens tb)%float = true ->
  (TokenBucket.tokens tb <=? TokenBucket.capacity tb)%float = true ->
  (TokenBucket.tokens (TokenBucket.refill tb (TokenBucket.lastRefillTime tb))
   =? TokenBucket.tokens tb)%float = true.
Proof.
  intros Hr Hfin H0 Hle.
  cbn [TokenBucket.refill TokenBucket.tokens f_min f_add f_mul binary64].
  rewrite Sub_diag. change (Seconds (F:=float) 0) with 0%float.
  pose proof (ltb_infinity_finite _ Hr Hfin) as Fr.
  apply leb_zero_nonneg_float in H0.
  destruct (add_zero_product (TokenBucket.tokens tb) (TokenBucket.refillRate tb) Fr H0)
    as (Hn & Heq & Hlt).
  set (t' := (TokenBucket.tokens tb + 0 * TokenBucket.refillRate tb)%float) in *.
  rewrite FloatAxioms.leb_spec in Hle.
  destruct (t' <? TokenBucket.capacity tb)%float eqn:Hlt'.
  - assert (IEEE.fmin (TokenBucket.capacity tb) t' = t') as ->
      by (unfold IEEE.fmin; rewrite Hlt', orb_true_r; reflexivity).
    rewrite FloatAxioms.eqb_spec. exact Heq.
  - rewrite FloatAxioms.ltb_spec, Hlt in Hlt'.
    pose proof (SFleb_not_ltb_eqb _ _ H0 (Prim2SF_valid _) Hle Hlt') as Hct.
    destruct (fmin_cases (TokenBucket.capacity tb) t') as [-> | ->];
      rewrite FloatAxioms.eqb_spec; [exact Hct | exact Heq].
Qed.

(** Reads at an unchanged clock, on binary64.  For a capacity that is
    not negative and a rate that is not negative and not infinite, on a
    reachable bucket under the monotonic clock: a second [GetTokens] at the
    same clock reading, on the bucket the first call left, returns a level
    that compares equal to the first one, and likewise a second
    [GetWaterLevel]. *)
Theorem bucket_reads_repeat (capacity rate : float)
  (tb : TokenBucket.TokenBucket float) (lb : LeakyBucket.LeakyBucket float) (now : Time) :
  (0 <=? capacity)%float = true ->
  (0 <=? rate)%float = true ->
  (rate <? infinity)%float = true ->
  (tb_reachable capacity rate tb -> TokenBucket.lastRefillTime tb <= now ->
   (fst (TokenBucket.GetTokens (snd (TokenBucket.GetTokens tb now)) now)
    =? fst (TokenBucket.GetTokens tb now))%float = true) /\
  (lb_reachable capacity rate lb -> LeakyBucket.lastTime lb <= now ->
   (fst (LeakyBucket.GetWaterLevel (snd (LeakyBucket.GetWaterLevel lb now)) now)
    =? fst (LeakyBucket.GetWaterLevel lb now))%float = true).
Proof.
  intros Hc Hr Hfin. split.
  - intros Hreach Hnow.
    destruct (tb_refill_keeps_parameters _ _ _ Hreach) as [Ec Er].
    destruct (tb_tokens_invariant _ _ _ Hc Hr Hfin Hreach) as [H0 _].
    destruct (tb_refill_level tb now) as [R0 Rc]; rewrite ?Ec, ?Er; auto.
    cbn [TokenBucket.GetTokens fst snd].
    apply (tb_refill_nothing (TokenBucket.refill tb now));
      cbn [TokenBucket.refill TokenBucket.refillRate TokenBucket.capacity];
      rewrite ?Er; assumption.
  - intros Hreach Hnow.
    destruct (lb_leak_keeps_parameters _ _ _ Hreach) as [Ec Er].
    destruct (lb_water_invariant _ _ _ Hc Hr Hfin Hreach) as [Fw _].
    destruct (lb_leak_level lb now) as [Fl _]; rewrite ?Er; auto.
    cbn [LeakyBucket.GetWaterLevel fst snd].
    destruct (lb_leak_nothing (LeakyBucket.leak lb now)) as [Fl2 Ev];
      cbn [LeakyBucket.leak LeakyBucket.leakRate]; rewrite ?Er; auto.
    rewrite FloatAxioms.eqb_spec. apply SFeqb_value; assumption.
Qed.

(** Waiting for a token, on binary64.  For a capacity of at least one
    and a refill rate that is not negative and not infinite, on a reachable
    bucket under the monotonic clock: a request is admitted whenever the
    refill the code computes for it, the float64 product of the elapsed
    seconds and the rate, is at least one token, whatever the bucket held. *)
Theorem tb_admits_after_one_token_refilled (capacity refillRate : float)
  (tb : TokenBucket.TokenBucket float) (now : Time) :
  (1 <=? capacity)%float = true ->
  (0 <=? refillRate)%float = true ->
  (refillRate <? infinity)%float = true ->
  tb_reachable capacity refillRate tb ->
  TokenBucket.lastRefillTime tb <= now ->
  (1 <=? Seconds (Sub now (TokenBucket.lastRefillTime tb)) * refillRate)%float = true ->
  fst (TokenBucket.AllowRequest tb now) = true.
Proof.
  intros H1c Hr Hfin Hreach Hnow Hp.
  assert ((0 <=? capacity)%float = true) as Hc
    by (apply (leb_trans_nonneg 0 1 capacity); [reflexivity | reflexivity | exact H1c]).
  destruct (tb_refill_keeps_parameters _ _ _ Hreach) as [Ec Er].
  destruct (tb_tokens_invariant _ _ _ Hc Hr Hfin Hreach) as [H0 _].
  unfold TokenBucket.AllowRequest.
  cbn [TokenBucket.refill TokenBucket.tokens f_le f_min f_add f_mul f_of_int binary64].
  change (IEEE.of_int 1) with 1%float. rewrite Ec, Er.
  set (p := (Seconds (Sub now (TokenBucket.lastRefillTime tb)) * refillRate)%float) in *.
  assert ((1 <=? TokenBucket.tokens tb + p)%float = true) as Hs.
  { destruct (leb_one_level p Hp) as [Hn Hv].
    apply leb_zero_nonneg_float in H0.
    destruct one_float as [F1 V1].
    rewrite FloatAxioms.leb_spec, FloatAxioms.add_spec.
    destruct (nonneg_float_cases _ H0) as [Ft|Et], (nonneg_float_cases _ Hn) as [Fp|Ep].
    - apply (rounded_ge_value _ _ _ (SFadd_finite_nonneg _ _ Ft Fp) F1).
      specialize (Hv Fp). pose proof (finite_nonneg_value _ Ft). rewrite V1. lra.
    - rewrite Ep, Prim2SF_one.
      destruct (Prim2SF (TokenBucket.tokens tb)); cbn in Ft |- *;
        try contradiction; reflexivity.
    - rewrite Et, Prim2SF_one.
      destruct (Prim2SF p); cbn in Fp |- *; try contradiction; reflexivity.
    - rewrite Et, Ep, Prim2SF_one. reflexivity. }
  destruct (fmin_cases capacity (TokenBucket.tokens tb + p)) as [-> | ->].
  - rewrite H1c. reflexivity.
  - rewrite Hs. reflexivity.
Qed.

(** ** The utilization the window reads report (binary64) *)

Lemma hundred_float :
  finite_nonneg (Prim2SF 100) /\ (SF2Q (Prim2SF 100) == 100)%Q.
Proof.
  change (Prim2SF 100) with (S754_finite false 7036874417766400 (-46)).
  split; [split; reflexivity|].
  cbn [SF2Q]. rewrite Qmult_1_l.
  change 7036874417766400%positive with (Z.to_pos (25 * 2 ^ 48)).
  change (-46) with (- 48 + 2).
  rewrite bpow_add.
  setoid_replace (inject_Z (Z.pos (Z.to_pos (25 * 2 ^ 48))))
    with (25 * inject_Z (2 ^ 48))%Q by reflexivity.
  rewrite <- (bpow_Z 48) by lia.
  setoid_replace (25 * bpow 48 * (bpow (- 48) * bpow 2))%Q
    with (25 * (bpow 48 * bpow (- 48)) * bpow 2)%Q by ring.
  rewrite <- bpow_add. change (48 + - 48) with 0. rewrite bpow_0.
  reflexivity.
Qed.

(** The percentage [float64(count) / float64(limit) * 100] of a count between
    zero and a positive limit lies between 0 and 100, roundings included. *)
Lemma utilization_bounds (count limit : Z) :
  0 <= count <= limit -> 0 < limit -> limit <= GoInt.maxInt64 ->
  (0 <=? IEEE.of_int count / IEEE.of_int limit * 100)%float = true /\
  (IEEE.of_int count / IEEE.of_int limit * 100 <=? 100)%float = true.
Proof.
  intros Hc Hl Hmax.
  destruct one_float as [F1 V1]. destruct hundred_float as [F100 V100].
  pose proof (of_int_rounded count ltac:(lia)) as Rc.
  pose proof (of_int_rounded limit ltac:(lia)) as Rl.
  destruct (of_int_finite count ltac:(lia)) as [Fc _].
  destruct (of_int_finite limit ltac:(lia)) as [Fl _].
  assert (SF2Q (Prim2SF (IEEE.of_int count)) <= SF2Q (Prim2SF (IEEE.of_int limit)))%Q as Hcl.
  { apply SFleb_value; [exact Fc | exact Fl|].
    apply (rounded_mono _ _ _ _ Rc Rl). rewrite <- Zle_Qle. lia. }
  assert (1 <= SF2Q (Prim2SF (IEEE.of_int limit)))%Q as Hl1.
  { rewrite <- V1. apply SFleb_value; [exact F1 | exact Fl|].
    apply (rounded_ge_value _ _ _ Rl F1). rewrite V1.
    change 1%Q with (inject_Z 1). rewrite <- Zle_Qle. lia. }
  pose proof (finite_nonneg_value _ Fc) as Hc0.
  assert (rounded (SF2Q (Prim2SF (IEEE.of_int count)) / SF2Q (Prim2SF (IEEE.of_int limit)))
                  (Prim2SF (IEEE.of_int count / IEEE.of_int limit))) as Rq.
  { rewrite FloatAxioms.div_spec.
    destruct (Prim2SF (IEEE.of_int limit)) as [s|s| |s m e] eqn:El;
      cbn [finite_nonneg] in Fl; try contradiction;
      try (exfalso; cbn [SF2Q] in Hl1; lra).
    destruct Fl as [-> Hb]. apply SFdiv_finite_nonneg. exact Fc. }
  set (c := SF2Q (Prim2SF (IEEE.of_int count))) in *.
  set (l := SF2Q (Prim2SF (IEEE.of_int limit))) in *.
  assert (0 <= c / l <= 1)%Q as [Hq0 Hq1].
  { split; [apply Qle_shift_div_l | apply Qle_shift_div_r]; lra. }
  destruct (rounded_le_finite _ _ _ Rq F1) as (Fq & Vq & _); [rewrite V1; exact Hq1|].
  rewrite V1 in Vq.
  pose proof (finite_nonneg_value _ Fq) as Vq0.
  pose proof (SFmul_finite_nonneg _ _ Fq F100) as Ru.
  rewrite <- FloatAxioms.mul_spec in Ru.
  split.
  - apply leb_zero_nonneg_float. exact (rounded_nonneg _ _ Ru).
  - rewrite FloatAxioms.leb_spec.
    apply (rounded_le_finite _ _ _ Ru F100). rewrite V100.
    set (q := SF2Q (Prim2SF (IEEE.of_int count / IEEE.of_int limit))) in *.
    lra.
Qed.

(** Zero requests are zero percent of a positive limit. *)
Lemma utilization_zero (limit : Z) :
  0 < limit -> limit <= GoInt.maxInt64 ->
  (IEEE.of_int 0 / IEEE.of_int limit * 100)%float = 0%float.
Proof.
  intros Hl Hmax. apply Prim2SF_inj.
  destruct one_float as [F1 V1].
  pose proof (of_int_rounded limit ltac:(lia)) as Rl.
  destruct (of_int_finite limit ltac:(lia)) as [Fl _].
  assert (1 <= SF2Q (Prim2SF (IEEE.of_int limit)))%Q as Hl1.
  { rewrite <- V1. apply SFleb_value; [exact F1 | exact Fl|].
    apply (rounded_ge_value _ _ _ Rl F1). rewrite V1.
    change 1%Q with (inject_Z 1). rewrite <- Zle_Qle. lia. }
  rewrite FloatAxioms.mul_spec, FloatAxioms.div_spec.
  change (IEEE.of_int 0) with 0%float.
  change (Prim2SF 0) with (S754_zero false).
  change (Prim2SF 100) with (S754_finite false 7036874417766400 (-46)).
  destruct (Prim2SF (IEEE.of_int limit)) as [s|s| |s m e];
    cbn [finite_nonneg] in Fl; try contradiction;
    try (exfalso; cbn [SF2Q] in Hl1; lra).
  destruct Fl as [-> _]. reflexivity.
Qed.

(** [GetWindowInfo] and the single accessors, on binary64.  At one
    clock reading [GetWindowInfo] reports the count of [GetCurrentCount], the
    time of [GetTimeUntilReset] and the configured limit, and leaves the
    counter as it found it.  In a history with a limit that is a positive
    [int] the utilization it reports is the float64 value
    [float64(count) / float64(limit) * 100] of the reported count, and it
    lies between 0 and 100, roundings included. *)
Theorem fwc_GetWindowInfo_consistent (limit : Z) (windowSize : Duration)
  (fwc : FixedWindowCounter.FixedWindowCounter) (now : Time) :
  0 < limit -> GoInt.is_int limit = true ->
  fwc_history limit windowSize fwc ->
  let info := fst (FixedWindowCounter.GetWindowInfo (F:=float) fwc now) in
  snd (FixedWindowCounter.GetWindowInfo (F:=float) fwc now) = fwc /\
  FixedWindowCounter.info_count info = fst (FixedWindowCounter.GetCurrentCount fwc now) /\
  FixedWindowCounter.timeUntilReset info
    = fst (FixedWindowCounter.GetTimeUntilReset fwc now) /\
  FixedWindowCounter.info_limit info = limit /\
  FixedWindowCounter.utilizationPercent info
  = (IEEE.of_int (FixedWindowCounter.info_count info) / IEEE.of_int limit * 100)%float /\
  (0 <=? FixedWindowCounter.utilizationPercent info)%float = true /\
  (FixedWindowCounter.utilizationPercent info <=? 100)%float = true.
Proof.
  intros Hlimit Hint Hhist. cbv zeta.
  destruct (fwc_history_count limit windowSize fwc (Z.lt_le_incl _ _ Hlimit) Hint Hhist)
    as (El & Ew & Hc).
  assert (limit <= GoInt.maxInt64) as Hmax
    by (unfold GoInt.is_int in Hint; apply andb_prop in Hint as [_ Hint];
        apply Z.leb_le in Hint; exact Hint).
  unfold FixedWindowCounter.GetWindowInfo, FixedWindowCounter.GetCurrentCount,
    FixedWindowCounter.GetTimeUntilReset. cbv zeta.
  destruct (_ <=? _);
    cbn [fst snd FixedWindowCounter.info_count FixedWindowCounter.timeUntilReset
         FixedWindowCounter.info_limit FixedWindowCounter.utilizationPercent
         f_of_int f_mul f_div binary64]; rewrite ?El;
    change (IEEE.of_int 100) with 100%float.
  - do 4 (split; [reflexivity|]).
    rewrite (utilization_zero limit Hlimit Hmax).
    change (IEEE.of_int 0) with 0%float.
    split; [reflexivity | split; reflexivity].
  - do 4 (split; [reflexivity|]).
    split; [reflexivity|].
    apply utilization_bounds; [exact Hc | exact Hlimit | exact Hmax].
Qed.

(** [GetWindowInfo] and the single reads of the log, on binary64.  At
    one clock reading on one state, [GetWindowInfo] reports the count of
    [GetCurrentCount], which is the number of timestamps
    [GetRequestTimestamps] returns, the age of [GetOldestRequestAge] and the
    configured limit, and leaves the cleaned log.  In a history with a limit
    that is a positive [int] the utilization it reports is the float64 value
    [float64(count) / float64(limit) * 100] of the reported count, and it
    lies between 0 and 100, roundings included. *)
Theorem swl_GetWindowInfo_consistent
  (limit : Z) (windowSize : Duration) (last now : Time)
  (swl : SlidingWindowLog.SlidingWindowLog) :
  0 < limit -> GoInt.is_int limit = true ->
  swl_history limit windowSize last swl ->
  let info := fst (SlidingWindowLog.GetWindowInfo (F:=float) swl now) in
  snd (SlidingWindowLog.GetWindowInfo (F:=float) swl now)
  = SlidingWindowLog.cleanupOldRequests swl now /\
  SlidingWindowLog.info_count info = fst (SlidingWindowLog.GetCurrentCount swl now) /\
  SlidingWindowLog.info_count info
  = SlidingWindowLog.Len (fst (SlidingWindowLog.GetRequestTimestamps swl now)) /\
  SlidingWindowLog.oldestAge info = fst (SlidingWindowLog.GetOldestRequestAge swl now) /\
  SlidingWindowLog.info_limit info = limit /\
  SlidingWindowLog.utilizationPercent info
  = (IEEE.of_int (SlidingWindowLog.info_count info) / IEEE.of_int limit * 100)%float /\
  (0 <=? SlidingWindowLog.utilizationPercent info)%float = true /\
  (SlidingWindowLog.utilizationPercent info <=? 100)%float = true.
Proof.
  intros Hlimit Hint Hhist. cbv zeta.
  destruct (swl_history_parameters _ _ _ _ Hhist) as [El Ew].
  pose proof (swl_history_size _ _ _ _ (Z.lt_le_incl _ _ Hlimit) Hhist) as Hsize.
  assert (limit <= GoInt.maxInt64) as Hmax
    by (unfold GoInt.is_int in Hint; apply andb_prop in Hint as [_ Hint];
        apply Z.leb_le in Hint; exact Hint).
  unfold SlidingWindowLog.GetWindowInfo, SlidingWindowLog.GetCurrentCount,
    SlidingWindowLog.GetRequestTimestamps, SlidingWindowLog.GetOldestRequestAge.
  cbv zeta.
  cbn [fst snd SlidingWindowLog.info_count SlidingWindowLog.info_limit
       SlidingWindowLog.oldestAge SlidingWindowLog.utilizationPercent
       SlidingWindowLog.cleanupOldRequests SlidingWindowLog.requests
       SlidingWindowLog.limit f_of_int f_mul f_div binary64].
  pose proof (cleanupLoop_length (SlidingWindowLog.cutoffTime swl now)
                (SlidingWindowLog.requests swl)) as Hlen.
  set (cleaned := SlidingWindowLog.cleanupLoop _ _) in *.
  rewrite El. change (IEEE.of_int 100) with 100%float.
  do 3 (split; [reflexivity|]).
  split; [destruct cleaned; reflexivity|].
  split; [reflexivity|]. split; [reflexivity|].
  apply utilization_bounds; [|exact Hlimit | exact Hmax].
  unfold SlidingWindowLog.Len in *. lia.
Qed.

(** * The further properties on concrete limiters *)

Lemma tb_capacity_below_one_denies_witness :
  fst (TokenBucket.AllowRequest
         (TokenBucket.NewTokenBucket (F:=float) 0.5%float 1%float 0) Second) = false.
Proof.
  apply (proj1 (tb_capacity_below_one_denies
                  (TokenBucket.NewTokenBucket (F:=float) 0.5%float 1%float 0) Second
                  eq_refl)).
Defined.

Lemma lb_capacity_not_positive_denies_witness :
  fst (LeakyBucket.AllowRequest
         (LeakyBucket.NewLeakyBucket (F:=float) 0%float 1%float 0) Second) = false.
Proof.
  apply (proj1 (lb_capacity_not_positive_denies
                  (LeakyBucket.NewLeakyBucket (F:=float) 0%float 1%float 0) Second
                  eq_refl)).
Defined.

Lemma fwc_count_within_limit_witness :
  0 <= FixedWindowCounter.count
         (fwc_step fwcAllowRequest
            (FixedWindowCounter.NewFixedWindowCounter 5 (10 * Second) 0) Second) <= 5.
Proof.
  assert (0 <= 5) as Hlimit by (vm_compute; discriminate).
  apply (proj1 (fwc_count_within_limit 5 (10 * Second) _ Hlimit eq_refl
                  (fwc_hist_step 5 (10 * Second) fwcAllowRequest Second _
                     (fwc_hist_new 5 (10 * Second) 0)
                     ltac:(vm_compute; discriminate)))).
Defined.

Lemma fwc_burst_in_fresh_window_witness :
  fst (fwc_run (FixedWindowCounter.NewFixedWindowCounter 2 (10 * Second) 0)
               [0; Second; 2 * Second])
  = [true; true; false].
Proof.
  assert (0 <= 2) as Hlimit by (vm_compute; discriminate).
  apply (fwc_burst_in_fresh_window 2 (10 * Second) 0 [0; Second; 2 * Second]
           Hlimit eq_refl).
  repeat constructor.
Defined.

Lemma fwc_double_burst_across_boundary_witness :
  fst (fwc_run (FixedWindowCounter.NewFixedWindowCounter 2 (10 * Second) 0)
               ([8 * Second; 9 * Second] ++ 10 * Second :: [11 * Second]))
  = [true; true; true; true].
Proof.
  assert (0 <= 2) as Hlimit by (vm_compute; discriminate).
  apply (fwc_double_burst_across_boundary 2 (10 * Second) 0
           [8 * Second; 9 * Second] (10 * Second) [11 * Second] Hlimit eq_refl).
  - repeat constructor.
  - vm_compute. discriminate.
  - repeat constructor.
  - reflexivity.
  - reflexivity.
Defined.

Lemma fwc_wait_until_reset_witness :
  let fwc :=
    {| FixedWindowCounter.limit := 5; FixedWindowCounter.windowSize := 10 * Second;
       FixedWindowCounter.count := 5; FixedWindowCounter.startTime := 0 |} in
  fst (FixedWindowCounter.AllowRequest fwc
         (4 * Second + fst (FixedWindowCounter.GetTimeUntilReset fwc (4 * Second))))
  = true.
Proof.
  cbv zeta.
  assert (0 <= 4 * Second) as Hnow by (vm_compute; discriminate).
  exact (f_equal fst
           (proj2 (proj2 (fwc_wait_until_reset
              {| FixedWindowCounter.limit := 5;
                 FixedWindowCounter.windowSize := 10 * Second;
                 FixedWindowCounter.count := 5; FixedWindowCounter.startTime := 0 |}
              (4 * Second) Hnow eq_refl)))).
Defined.

Lemma swl_GetCurrentCount_counts_window_witness :
  let swl := swl_step opAllowRequest
               (SlidingWindowLog.NewSlidingWindowLog 5 (10 * Second)) Second in
  fst (SlidingWindowLog.GetCurrentCount swl (12 * Second))
  = Z.of_nat (length (filter (fun ts => 12 * Second - 10 * Second <? ts)
                             (SlidingWindowLog.requests swl))).
Proof.
  cbv zeta.
  assert (minDuration < 10 * Second <= maxDuration) as Hw
    by (split; [reflexivity | vm_compute; discriminate]).
  apply (proj1 (swl_GetCurrentCount_counts_window 5 (10 * Second) Second (12 * Second)
                  _ Hw
                  (swl_hist_step 5 (10 * Second) opAllowRequest 0 Second _
                     (swl_hist_new 5 (10 * Second) 0)
                     ltac:(vm_compute; discriminate)))).
Defined.

Lemma swl_log_sorted_within_window_witness :
  let swl := swl_step opAllowRequest
               (SlidingWindowLog.NewSlidingWindowLog 5 (10 * Second)) Second in
  Forall (fun ts => Second - 10 * Second < ts <= Second)
    (SlidingWindowLog.requests swl).
Proof.
  cbv zeta.
  assert (0 < 10 * Second <= maxDuration) as Hw
    by (split; [reflexivity | vm_compute; discriminate]).
  apply (proj2 (swl_log_sorted_within_window 5 (10 * Second) Second _ Hw
                  (swl_hist_step 5 (10 * Second) opAllowRequest 0 Second _
                     (swl_hist_new 5 (10 * Second) 0)
                     ltac:(vm_compute; discriminate)))).
Defined.

Lemma swl_GetOldestRequestAge_below_window_witness :
  let swl := swl_step opAllowRequest
               (SlidingWindowLog.NewSlidingWindowLog 5 (10 * Second)) Second in
  let age := fst (SlidingWindowLog.GetOldestRequestAge swl (3 * Second)) in
  age = 3 * Second - Second /\ 0 <= age < 10 * Second.
Proof.
  cbv zeta.
  assert (minDuration < 10 * Second <= maxDuration) as Hw
    by (split; [reflexivity | vm_compute; discriminate]).
  assert (Second <= 3 * Second) as Hnow by (vm_compute; discriminate).
  exact (swl_GetOldestRequestAge_below_window 5 (10 * Second) Second (3 * Second)
           _ Hw
           (swl_hist_step 5 (10 * Second) opAllowRequest 0 Second _
              (swl_hist_new 5 (10 * Second) 0)
              ltac:(vm_compute; discriminate))
           Hnow).
Defined.

Lemma swl_wait_until_slot_witness :
  let swl := swl_step opAllowRequest
               (SlidingWindowLog.NewSlidingWindowLog 1 (10 * Second)) Second in
  0 <= 9 * Second <= 10 * Second /\
  fst (SlidingWindowLog.AllowRequest
         (snd (SlidingWindowLog.GetTimeUntilSlotAvailable swl (2 * Second)))
         (2 * Second + 9 * Second)) = true.
Proof.
  cbv zeta.
  assert (0 < 10 * Second <= maxDuration) as Hw
    by (split; [reflexivity | vm_compute; discriminate]).
  assert (Second <= 2 * Second) as Hnow by (vm_compute; discriminate).
  exact (swl_wait_until_slot 1 (10 * Second) Second (2 * Second) _ (9 * Second) Hw
           (swl_hist_step 1 (10 * Second) opAllowRequest 0 Second _
              (swl_hist_new 1 (10 * Second) 0)
              ltac:(vm_compute; discriminate))
           Hnow eq_refl).
Defined.

Lemma swl_admissions_in_any_window_witness :
  let times := [0; Second; 2 * Second; 11 * Second] in
  let oks := fst (swl_run (SlidingWindowLog.NewSlidingWindowLog 2 (10 * Second)) times) in
  SlidingWindowLog.Len
    (filter (in_window (10 * Second) (11 * Second)) (admitted times oks)) <= 2.
Proof.
  cbv zeta.
  assert (0 <= 2) as Hlimit by (vm_compute; discriminate).
  assert (minDuration < 10 * Second <= maxDuration) as Hw
    by (split; [reflexivity | vm_compute; discriminate]).
  apply (swl_admissions_in_any_window 2 (10 * Second)
           [0; Second; 2 * Second; 11 * Second] (11 * Second) Hlimit Hw).
  repeat constructor; vm_compute; discriminate.
Defined.

Lemma bucket_reads_repeat_witness :
  (fst (TokenBucket.GetTokens
          (snd (TokenBucket.GetTokens
                  (TokenBucket.NewTokenBucket (F:=float) 5%float 1%float 0%Z) Second))
          Second)
   =? fst (TokenBucket.GetTokens
             (TokenBucket.NewTokenBucket (F:=float) 5%float 1%float 0%Z) Second))%float = true /\
  (fst (LeakyBucket.GetWaterLevel
          (snd (LeakyBucket.GetWaterLevel
                  (LeakyBucket.NewLeakyBucket (F:=float) 5%float 1%float 0%Z) Second))
          Second)
   =? fst (LeakyBucket.GetWaterLevel
             (LeakyBucket.NewLeakyBucket (F:=float) 5%float 1%float 0%Z) Second))%float = true.
Proof.
  destruct (bucket_reads_repeat 5%float 1%float
              (TokenBucket.NewTokenBucket (F:=float) 5%float 1%float 0)
              (LeakyBucket.NewLeakyBucket (F:=float) 5%float 1%float 0)
              Second eq_refl eq_refl eq_refl) as [Ht Hl].
  split.
  - apply Ht; [apply tb_reach_new | vm_compute; discriminate].
  - apply Hl; [apply lb_reach_new | vm_compute; discriminate].
Defined.

Lemma fwc_GetWindowInfo_consistent_witness :
  let fwc := fwc_step fwcAllowRequest
               (FixedWindowCounter.NewFixedWindowCounter 5 (10 * Second) 0) Second in
  let info := fst (FixedWindowCounter.GetWindowInfo (F:=float) fwc (2 * Second)) in
  FixedWindowCounter.utilizationPercent info = 20%float /\
  (0 <=? FixedWindowCounter.utilizationPercent info)%float = true /\
  (FixedWindowCounter.utilizationPercent info <=? 100)%float = true.
Proof.
  cbv zeta.
  assert (0 < 5) as Hlimit by reflexivity.
  destruct (fwc_GetWindowInfo_consistent 5 (10 * Second) _ (2 * Second) Hlimit eq_refl
              (fwc_hist_step 5 (10 * Second) fwcAllowRequest Second _
                 (fwc_hist_new 5 (10 * Second) 0)
                 ltac:(vm_compute; discriminate)))
    as (_ & _ & _ & _ & Eu & H0 & H100).
  split; [exact Eu | split; [exact H0 | exact H100]].
Defined.

Lemma swl_GetWindowInfo_consistent_witness :
  let swl := swl_step opAllowRequest
               (SlidingWindowLog.NewSlidingWindowLog 5 (10 * Second)) Second in
  let info := fst (SlidingWindowLog.GetWindowInfo (F:=float) swl (2 * Second)) in
  SlidingWindowLog.utilizationPercent info = 20%float /\
  (0 <=? SlidingWindowLog.utilizationPercent info)%float = true /\
  (SlidingWindowLog.utilizationPercent info <=? 100)%float = true.
Proof.
  cbv zeta.
  assert (0 < 5) as Hlimit by reflexivity.
  destruct (swl_GetWindowInfo_consistent 5 (10 * Second) Second (2 * Second) _ Hlimit eq_refl
              (swl_hist_step 5 (10 * Second) opAllowRequest 0 Second _
                 (swl_hist_new 5 (10 * Second) 0)
                 ltac:(vm_compute; discriminate)))
    as (_ & _ & _ & _ & _ & Eu & H0 & H100).
  split; [exact Eu | split; [exact H0 | exact H100]].
Defined.

Lemma tb_admits_after_one_token_refilled_witness :
  fst (TokenBucket.AllowRequest
         (snd (TokenBucket.AllowRequest
                 (TokenBucket.NewTokenBucket (F:=float) 1%float 1%float 0) 0)) Second) = true.
Proof.
  apply (tb_admits_after_one_token_refilled 1%float 1%float).
  - reflexivity.
  - reflexivity.
  - reflexivity.
  - apply tb_reach_AllowRequest; [apply tb_reach_new | vm_compute; discriminate].
  - vm_compute. discriminate.
  - reflexivity.
Defined.
